(** * Napoleonic wargame: combat, line of sight, exhaustion, state sync

    A shallow embedding of the simulation core of the game
    (js/Unit.js, js/CombatSystem.js, js/LOSSystem.js, ExhaustionSystem,
    js/ReloadSystem.js, js/Projectile.js, js/FormationSystem.js,
    GameEngine in js/DeploymentManager.js,
    js/multiplayer/GameStateSync.js, AIExecutor and AIDeployment) and the
    properties of it that the specification states, followed by further
    properties that the code itself shows.

    Numbers.  A JavaScript number is modelled as a real number: the
    arithmetic is exact, there is no rounding, no NaN and no infinity.
    [Math.random()] is an explicit argument (a draw in [0,1)) or is taken
    from an oracle [nat -> R] read in the order of the calls.

    Objects.  Unit objects live in a store (a list indexed by address);
    the registry [game.units], the selection and [unit.currentTarget]
    hold addresses, so that in-place mutation is seen through every
    reference as in the source. *)

From Stdlib Require Import Reals Lra Psatz ZArith.
From stdpp Require Import base option list gmap.

Open Scope R_scope.

(** ** JavaScript numbers *)

Module JS.

Definition ltb (a b : R) : bool := if Rlt_dec a b then true else false.
Definition leb (a b : R) : bool := if Rle_dec a b then true else false.
Definition gtb (a b : R) : bool := ltb b a.
Definition geb (a b : R) : bool := leb b a.
Definition eqb (a b : R) : bool := if Req_dec_T a b then true else false.

(** [v || d] on numbers: 0 is falsy. *)
Definition or_num (v d : R) : R := if eqb v 0 then d else v.

(** A field that only some unit types define, read behind a test of the
    type; units built by the constructor have it. *)
Definition num (o : option R) : R := default 0 o.

(** Truthiness of a flag that can be undefined. *)
Definition truthy (o : option bool) : bool := default false o.

(** [Math.trunc], the rounding that the remainder operator uses. *)
Definition trunc (v : R) : Z :=
  if leb 0 v then Int_part v else (- Int_part (- v))%Z.

(** [a % b]: the remainder has the sign of the dividend. *)
Definition rem (a b : R) : R := a - b * IZR (trunc (a / b)).

(** [Math.floor]. *)
Definition floor (v : R) : Z := Int_part v.

(** [Math.sign]. *)
Definition sign (v : R) : R :=
  if ltb 0 v then 1 else if ltb v 0 then -1 else 0.

(** [Math.atan2(y, x)]: the argument of the point (x, y), in (-PI, PI]. *)
Definition atan2 (y x : R) : R :=
  if ltb 0 x then atan (y / x)
  else if ltb x 0 then
    (if leb 0 y then atan (y / x) + PI else atan (y / x) - PI)
  else if ltb 0 y then PI / 2
  else if ltb y 0 then - (PI / 2)
  else 0.

End JS.

(** ** js/config.js *)

Module CONFIG.

Definition CANVAS_WIDTH : R := 1200.
Definition CANVAS_HEIGHT : R := 800.

Module INFANTRY.
Definition ENTITY_COUNT : R := 100.
Definition MAX_SPEED : R := 80.
Definition TURN_RATE : R := 8 / 10.
Definition COLLISION_RADIUS : R := 12.
Definition BASE_DAMAGE : R := 35.
Definition MELEE_DAMAGE : R := 15 / 100.
Definition FIRE_RANGE : R := 250.
Definition RELOAD_DURATION : R := 15.
Definition SIZE : R := 20.
End INFANTRY.

Module CAVALRY.
Definition ENTITY_COUNT : R := 50.
Definition MAX_SPEED : R := 150.
Definition TURN_RATE : R := 5 / 10.
Definition COLLISION_RADIUS : R := 15.
Definition BASE_DAMAGE : R := 20.
Definition MELEE_DAMAGE : R := 25 / 100.
Definition CHARGE_SPEED : R := 120.
Definition CHARGE_MULTIPLIER : R := 3.
Definition SIZE : R := 20.
End CAVALRY.

Module CANNON.
Definition ENTITY_COUNT : R := 15.
Definition MAX_SPEED : R := 30.
Definition TURN_RATE : R := 3 / 10.
Definition COLLISION_RADIUS : R := 15.
Definition BASE_DAMAGE : R := 60.
Definition MELEE_DAMAGE : R := 5 / 100.
Definition FIRE_RANGE : R := 700.
Definition RELOAD_DURATION : R := 30.
Definition SIZE : R := 18.
End CANNON.

Module FORMATION.
Module LINE.
Definition ACCURACY_BONUS : R := 11 / 10.
Definition RELOAD_BONUS : R := 9 / 10.
Definition MOVEMENT_PENALTY : R := 9 / 10.
Definition FIRE_ARC : R := PI / 2.
End LINE.
Module COLUMN.
Definition MOVEMENT_BONUS : R := 13 / 10.
Definition VULNERABILITY : R := 15 / 10.
Definition FIRE_ARC : R := PI / 2.
End COLUMN.
Module SQUARE.
Definition MOVEMENT_PENALTY : R := 0.
Definition CAVALRY_DEFENSE : R := 3.
Definition FIRE_ARC : R := PI * 2.
End SQUARE.
End FORMATION.

Module DAMAGE.
Definition CAVALRY_VS_INFANTRY_BONUS : R := 5.
Definition SQUARE_VS_CAVALRY_BONUS : R := 4.
Definition REAR_MULTIPLIER : R := 3.
Definition FLANK_MULTIPLIER : R := 2.
Definition FRONT_MULTIPLIER : R := 1.
Definition REAR_ANGLE : R := PI / 3.
Definition FLANK_ANGLE : R := 2 * PI / 3.
End DAMAGE.

Module ACCURACY.
Definition SHORT_MIN : R := 80 / 100.
Definition SHORT_MAX : R := 90 / 100.
Definition MEDIUM_MIN : R := 50 / 100.
Definition MEDIUM_MAX : R := 70 / 100.
Definition LONG_MIN : R := 20 / 100.
Definition LONG_MAX : R := 40 / 100.
End ACCURACY.

Module CANNON_ACCURACY.
Definition CLOSE_RANGE : R := 100.
Definition MEDIUM_RANGE : R := 300.
Definition CLOSE_MIN : R := 60 / 100.
Definition CLOSE_MAX : R := 75 / 100.
Definition MEDIUM_MIN : R := 30 / 100.
Definition MEDIUM_MAX : R := 45 / 100.
Definition LONG_MIN : R := 10 / 100.
Definition LONG_MAX : R := 25 / 100.
End CANNON_ACCURACY.

Module EXHAUSTION.
Definition MOVEMENT_RATE : R := 1 / 10.
Definition COLUMN_MOVEMENT_RATE : R := 5 / 100.
Definition COMBAT_RATE : R := 5.
Definition RECOVERY_RATE : R := 8 / 100.
Definition MAX : R := 100.
Definition SPEED_PENALTY : R := 5 / 10.
Definition ACCURACY_PENALTY : R := 3 / 10.
Definition RELOAD_PENALTY : R := 5 / 10.
End EXHAUSTION.

Module LOS.
Definition SAMPLE_RATE : R := 5.
Definition TERRAIN_BLOCKS : bool := true.
Definition FRIENDLY_BLOCKS : bool := true.
End LOS.

End CONFIG.

(** ** js/Unit.js *)

Inductive UnitType := INFANTRY | CAVALRY | CANNON.
Inductive Team := RED | BLUE.
Inductive Formation := LINE | COLUMN | SQUARE.

#[global] Instance UnitType_eq_dec : EqDecision UnitType.
Proof. solve_decision. Defined.
#[global] Instance Team_eq_dec : EqDecision Team.
Proof. solve_decision. Defined.
#[global] Instance Formation_eq_dec : EqDecision Formation.
Proof. solve_decision. Defined.

(** The address of a unit object in the store. *)
Abbreviation ref := nat (only parsing).

(** The fields of a unit, grouped as the constructor groups them. *)

(** Position and movement, with the current speed. *)
Record Motion := mkMotion {
  x : R; y : R; vx : R; vy : R;
  angle : R;
  targetX : option R; targetY : option R;
  speed : R
}.

(** Stats based on unit type. *)
Record Stats := mkStats {
  entityCount : R; maxEntityCount : R;
  baseMaxSpeed : R; maxSpeed : R;
  turnRate : R; collisionRadius : R;
  baseDamage : R; meleeDamage : R;
  size : R
}.

(** Infantry and cannon only; undefined ([None]) on cavalry. *)
Record Musket := mkMusket {
  fireRange : option R;
  isReloading : option bool;
  reloadProgress : option R;
  reloadDuration : option R;
  canFire : option bool;
  currentTarget : option ref;
  lastFireTime : option R
}.

(** Cavalry only. *)
Record Charge := mkCharge {
  chargeSpeed : option R;
  chargeDamageMultiplier : option R
}.

(** Formation modifiers. *)
Record Modifiers := mkModifiers {
  fireRateBonus : R; accuracyBonus : R;
  movementBonus : R; movementPenalty : R;
  vulnerabilityMultiplier : R; damageBonus : R;
  directionalDefense : bool; cavalryDefense : R
}.

(** Exhaustion and the performance multipliers it drives. *)
Record Fatigue := mkFatigue {
  exhaustion : R;
  speedMultiplier : R; accuracyMultiplier : R; reloadMultiplier : R
}.

(** Combat state.  [isFleeing] is first assigned in melee (undefined, hence
    falsy, before); [lastMeleeTime] is read by the engine and assigned
    nowhere. *)
Record Melee := mkMelee {
  isMeleeLocked : bool; wasMeleeLocked : bool;
  meleeTimer : R;
  isFleeing : bool;
  lastMeleeTime : option R
}.

Record Unit := mkUnit {
  id : Z; type : UnitType; team : Team;
  motion : Motion;
  stats : Stats;
  musket : Musket;
  charge : Charge;
  formation : option Formation; formationAngle : R;
  modifiers : Modifiers;
  fatigue : Fatigue;
  isSelected : bool;
  melee : Melee
}.

(** Assignments to one field (group) of a unit. *)

Definition set_id (v : Z) (u : Unit) : Unit :=
  mkUnit v (type u) (team u) (motion u) (stats u) (musket u) (charge u)
    (formation u) (formationAngle u) (modifiers u) (fatigue u) (isSelected u) (melee u).
Definition set_motion (v : Motion) (u : Unit) : Unit :=
  mkUnit (id u) (type u) (team u) v (stats u) (musket u) (charge u)
    (formation u) (formationAngle u) (modifiers u) (fatigue u) (isSelected u) (melee u).
Definition set_stats (v : Stats) (u : Unit) : Unit :=
  mkUnit (id u) (type u) (team u) (motion u) v (musket u) (charge u)
    (formation u) (formationAngle u) (modifiers u) (fatigue u) (isSelected u) (melee u).
Definition set_musket (v : Musket) (u : Unit) : Unit :=
  mkUnit (id u) (type u) (team u) (motion u) (stats u) v (charge u)
    (formation u) (formationAngle u) (modifiers u) (fatigue u) (isSelected u) (melee u).
Definition set_formation (v : option Formation) (u : Unit) : Unit :=
  mkUnit (id u) (type u) (team u) (motion u) (stats u) (musket u) (charge u)
    v (formationAngle u) (modifiers u) (fatigue u) (isSelected u) (melee u).
Definition set_modifiers (v : Modifiers) (u : Unit) : Unit :=
  mkUnit (id u) (type u) (team u) (motion u) (stats u) (musket u) (charge u)
    (formation u) (formationAngle u) v (fatigue u) (isSelected u) (melee u).
Definition set_fatigue (v : Fatigue) (u : Unit) : Unit :=
  mkUnit (id u) (type u) (team u) (motion u) (stats u) (musket u) (charge u)
    (formation u) (formationAngle u) (modifiers u) v (isSelected u) (melee u).
Definition set_isSelected (v : bool) (u : Unit) : Unit :=
  mkUnit (id u) (type u) (team u) (motion u) (stats u) (musket u) (charge u)
    (formation u) (formationAngle u) (modifiers u) (fatigue u) v (melee u).
Definition set_melee (v : Melee) (u : Unit) : Unit :=
  mkUnit (id u) (type u) (team u) (motion u) (stats u) (musket u) (charge u)
    (formation u) (formationAngle u) (modifiers u) (fatigue u) (isSelected u) v.

Definition set_x (v : R) (m : Motion) : Motion :=
  mkMotion v (y m) (vx m) (vy m) (angle m) (targetX m) (targetY m) (speed m).
Definition set_y (v : R) (m : Motion) : Motion :=
  mkMotion (x m) v (vx m) (vy m) (angle m) (targetX m) (targetY m) (speed m).
Definition set_vx (v : R) (m : Motion) : Motion :=
  mkMotion (x m) (y m) v (vy m) (angle m) (targetX m) (targetY m) (speed m).
Definition set_vy (v : R) (m : Motion) : Motion :=
  mkMotion (x m) (y m) (vx m) v (angle m) (targetX m) (targetY m) (speed m).
Definition set_angle (v : R) (m : Motion) : Motion :=
  mkMotion (x m) (y m) (vx m) (vy m) v (targetX m) (targetY m) (speed m).
Definition set_targetX (v : option R) (m : Motion) : Motion :=
  mkMotion (x m) (y m) (vx m) (vy m) (angle m) v (targetY m) (speed m).
Definition set_targetY (v : option R) (m : Motion) : Motion :=
  mkMotion (x m) (y m) (vx m) (vy m) (angle m) (targetX m) v (speed m).
Definition set_speed (v : R) (m : Motion) : Motion :=
  mkMotion (x m) (y m) (vx m) (vy m) (angle m) (targetX m) (targetY m) v.

Definition set_entityCount (v : R) (s : Stats) : Stats :=
  mkStats v (maxEntityCount s) (baseMaxSpeed s) (maxSpeed s) (turnRate s)
    (collisionRadius s) (baseDamage s) (meleeDamage s) (size s).
Definition set_maxSpeed (v : R) (s : Stats) : Stats :=
  mkStats (entityCount s) (maxEntityCount s) (baseMaxSpeed s) v (turnRate s)
    (collisionRadius s) (baseDamage s) (meleeDamage s) (size s).

Definition set_isReloading (v : option bool) (g : Musket) : Musket :=
  mkMusket (fireRange g) v (reloadProgress g) (reloadDuration g) (canFire g)
    (currentTarget g) (lastFireTime g).
Definition set_reloadProgress (v : option R) (g : Musket) : Musket :=
  mkMusket (fireRange g) (isReloading g) v (reloadDuration g) (canFire g)
    (currentTarget g) (lastFireTime g).
Definition set_reloadDuration (v : option R) (g : Musket) : Musket :=
  mkMusket (fireRange g) (isReloading g) (reloadProgress g) v (canFire g)
    (currentTarget g) (lastFireTime g).
Definition set_canFire (v : option bool) (g : Musket) : Musket :=
  mkMusket (fireRange g) (isReloading g) (reloadProgress g) (reloadDuration g) v
    (currentTarget g) (lastFireTime g).
Definition set_currentTarget (v : option ref) (g : Musket) : Musket :=
  mkMusket (fireRange g) (isReloading g) (reloadProgress g) (reloadDuration g)
    (canFire g) v (lastFireTime g).
Definition set_lastFireTime (v : option R) (g : Musket) : Musket :=
  mkMusket (fireRange g) (isReloading g) (reloadProgress g) (reloadDuration g)
    (canFire g) (currentTarget g) v.

Definition set_exhaustion (v : R) (f : Fatigue) : Fatigue :=
  mkFatigue v (speedMultiplier f) (accuracyMultiplier f) (reloadMultiplier f).

Definition set_isMeleeLocked (v : bool) (c : Melee) : Melee :=
  mkMelee v (wasMeleeLocked c) (meleeTimer c) (isFleeing c) (lastMeleeTime c).
Definition set_wasMeleeLocked (v : bool) (c : Melee) : Melee :=
  mkMelee (isMeleeLocked c) v (meleeTimer c) (isFleeing c) (lastMeleeTime c).
Definition set_meleeTimer (v : R) (c : Melee) : Melee :=
  mkMelee (isMeleeLocked c) (wasMeleeLocked c) v (isFleeing c) (lastMeleeTime c).
Definition set_isFleeing (v : bool) (c : Melee) : Melee :=
  mkMelee (isMeleeLocked c) (wasMeleeLocked c) (meleeTimer c) v (lastMeleeTime c).

(** Updates of a field inside a group, on the unit. *)
Definition on_motion (f : Motion -> Motion) (u : Unit) : Unit := set_motion (f (motion u)) u.
Definition on_stats (f : Stats -> Stats) (u : Unit) : Unit := set_stats (f (stats u)) u.
Definition on_musket (f : Musket -> Musket) (u : Unit) : Unit := set_musket (f (musket u)) u.
Definition on_fatigue (f : Fatigue -> Fatigue) (u : Unit) : Unit := set_fatigue (f (fatigue u)) u.
Definition on_melee (f : Melee -> Melee) (u : Unit) : Unit := set_melee (f (melee u)) u.

(** [new Unit(id, type, team, x, y)]. *)
Definition newUnit (i : Z) (ty : UnitType) (tm : Team) (px py : R) : Unit :=
  let st_mu_ch :=
    match ty with
    | INFANTRY =>
        (mkStats CONFIG.INFANTRY.ENTITY_COUNT CONFIG.INFANTRY.ENTITY_COUNT
           CONFIG.INFANTRY.MAX_SPEED CONFIG.INFANTRY.MAX_SPEED
           CONFIG.INFANTRY.TURN_RATE CONFIG.INFANTRY.COLLISION_RADIUS
           CONFIG.INFANTRY.BASE_DAMAGE CONFIG.INFANTRY.MELEE_DAMAGE
           CONFIG.INFANTRY.SIZE,
         mkMusket (Some CONFIG.INFANTRY.FIRE_RANGE) (Some false) (Some 0)
           (Some CONFIG.INFANTRY.RELOAD_DURATION) (Some true) None (Some 0),
         mkCharge None None)
    | CAVALRY =>
        (mkStats CONFIG.CAVALRY.ENTITY_COUNT CONFIG.CAVALRY.ENTITY_COUNT
           CONFIG.CAVALRY.MAX_SPEED CONFIG.CAVALRY.MAX_SPEED
           CONFIG.CAVALRY.TURN_RATE CONFIG.CAVALRY.COLLISION_RADIUS
           CONFIG.CAVALRY.BASE_DAMAGE CONFIG.CAVALRY.MELEE_DAMAGE
           CONFIG.CAVALRY.SIZE,
         mkMusket None None None None None None None,
         mkCharge (Some CONFIG.CAVALRY.CHARGE_SPEED)
           (Some CONFIG.CAVALRY.CHARGE_MULTIPLIER))
    | CANNON =>
        (mkStats CONFIG.CANNON.ENTITY_COUNT CONFIG.CANNON.ENTITY_COUNT
           CONFIG.CANNON.MAX_SPEED CONFIG.CANNON.MAX_SPEED
           CONFIG.CANNON.TURN_RATE CONFIG.CANNON.COLLISION_RADIUS
           CONFIG.CANNON.BASE_DAMAGE CONFIG.CANNON.MELEE_DAMAGE
           CONFIG.CANNON.SIZE,
         mkMusket (Some CONFIG.CANNON.FIRE_RANGE) (Some false) (Some 0)
           (Some CONFIG.CANNON.RELOAD_DURATION) (Some true) None (Some 0),
         mkCharge None None)
    end in
  mkUnit i ty tm
    (mkMotion px py 0 0 0 None None 0)
    (fst (fst st_mu_ch)) (snd (fst st_mu_ch)) (snd st_mu_ch)
    None 0
    (mkModifiers 1 1 1 1 1 1 false 1)
    (mkFatigue 0 1 1 1)
    false
    (mkMelee false false 0 false None).

(** The angle normalisation that update, calculateDirectionalMultiplier
    and isInFireArc each write out:
      a = (a + PI) % (2 PI); if (a < 0) a += 2 PI; a -= PI. *)
Definition normalizeAngle (a : R) : R :=
  let r := JS.rem (a + PI) (PI * 2) in
  let r := if JS.ltb r 0 then r + PI * 2 else r in
  r - PI.

(** The final clamp of [update]: keep within canvas bounds. *)
Definition clampToCanvas (u : Unit) : Unit :=
  let r := collisionRadius (stats u) in
  let m := motion u in
  let m := set_x (Rmax r (Rmin (CONFIG.CANVAS_WIDTH - r) (x m))) m in
  let m := set_y (Rmax r (Rmin (CONFIG.CANVAS_HEIGHT - r) (y m))) m in
  set_motion m u.

(** [unit.update(deltaTime)]. *)
Definition Unit_update (deltaTime : R) (u : Unit) : Unit :=
  let m := motion u in
  if isMeleeLocked (melee u) || bool_decide (formation u = Some SQUARE) then
    set_motion (set_vy 0 (set_vx 0 (set_speed 0 m))) u
  else
    let u :=
      match targetX m, targetY m with
      | Some tx, Some ty =>
          let dx := tx - x m in
          let dy := ty - y m in
          let distToTarget := sqrt (dx * dx + dy * dy) in
          if JS.gtb distToTarget 5 then
            let targetAngle := JS.atan2 dy dx in
            let angleDiff := normalizeAngle (targetAngle - angle m) in
            let angle' :=
              angle m + JS.sign angleDiff * Rmin (Rabs angleDiff) (turnRate (stats u)) in
            let formationSpeedMod := if JS.gtb distToTarget 50 then 15 / 10 else 1 in
            let effectiveMaxSpeed :=
              maxSpeed (stats u) * movementBonus (modifiers u)
              * movementPenalty (modifiers u) * speedMultiplier (fatigue u)
              * formationSpeedMod in
            let speed' := Rmin effectiveMaxSpeed (speed m + 200 * deltaTime) in
            let vx' := cos angle' * speed' * deltaTime in
            let vy' := sin angle' * speed' * deltaTime in
            set_motion
              (mkMotion (x m + vx') (y m + vy') vx' vy' angle'
                 (targetX m) (targetY m) speed') u
          else
            set_motion
              (set_speed (Rmax 0 (speed m - 100 * deltaTime))
                 (set_targetY None (set_targetX None m))) u
      | _, _ =>
          set_motion
            (set_vy (vy m * (9 / 10))
               (set_vx (vx m * (9 / 10))
                  (set_speed (Rmax 0 (speed m - 100 * deltaTime)) m))) u
      end in
    clampToCanvas u.

Definition setTarget (tx ty : R) (u : Unit) : Unit :=
  on_motion (fun m => set_targetY (Some ty) (set_targetX (Some tx) m)) u.

(** The modifiers that [setFormation] leaves for a formation type. *)
Definition formationModifiers (f : option Formation) : Modifiers :=
  match f with
  | Some LINE =>
      mkModifiers CONFIG.FORMATION.LINE.RELOAD_BONUS
        CONFIG.FORMATION.LINE.ACCURACY_BONUS
        1 CONFIG.FORMATION.LINE.MOVEMENT_PENALTY 1 (12 / 10) false 1
  | Some COLUMN =>
      mkModifiers 1 1 CONFIG.FORMATION.COLUMN.MOVEMENT_BONUS 1
        CONFIG.FORMATION.COLUMN.VULNERABILITY (13 / 10) false 1
  | Some SQUARE =>
      mkModifiers (85 / 100) 1 1 1 1 1 true
        CONFIG.FORMATION.SQUARE.CAVALRY_DEFENSE
  | None => mkModifiers 1 1 1 1 1 1 false 1
  end.

(** [unit.setFormation(formationType)]: reset the modifiers and the top
    speed, then apply the formation's own. *)
Definition setFormation (f : option Formation) (u : Unit) : Unit :=
  let u := set_formation f u in
  let u := set_modifiers (formationModifiers f) u in
  on_stats
    (set_maxSpeed
       (match f with
        | Some SQUARE => 0
        | _ => baseMaxSpeed (stats u)
        end)) u.

Definition takeDamage (amount : R) (u : Unit) : Unit :=
  let e := entityCount (stats u) - amount in
  on_stats (set_entityCount (if JS.ltb e 0 then 0 else e)) u.

Definition isDead (u : Unit) : bool := JS.leb (entityCount (stats u)) 0.

Definition getHealthPercentage (u : Unit) : R :=
  entityCount (stats u) / maxEntityCount (stats u).

Definition getFireArc (u : Unit) : R :=
  match type u with
  | CANNON => PI / 6
  | CAVALRY => 0
  | INFANTRY =>
      match formation u with
      | Some LINE => CONFIG.FORMATION.LINE.FIRE_ARC
      | Some COLUMN => CONFIG.FORMATION.COLUMN.FIRE_ARC
      | Some SQUARE => CONFIG.FORMATION.SQUARE.FIRE_ARC
      | None => PI
      end
  end.

(** ** ExhaustionSystem *)

Module ExhaustionSystem.

(** [applyExhaustionPenalties(unit)]. *)
Definition applyExhaustionPenalties (u : Unit) : Unit :=
  let exhaustionRatio := exhaustion (fatigue u) / CONFIG.EXHAUSTION.MAX in
  set_fatigue
    (mkFatigue (exhaustion (fatigue u))
       (1 - exhaustionRatio * CONFIG.EXHAUSTION.SPEED_PENALTY)
       (1 - exhaustionRatio * CONFIG.EXHAUSTION.ACCURACY_PENALTY)
       (1 + exhaustionRatio * CONFIG.EXHAUSTION.RELOAD_PENALTY)) u.

(** [update(unit, deltaTime)]. *)
Definition update (deltaTime : R) (u : Unit) : Unit :=
  let u :=
    if JS.gtb (speed (motion u)) 10 then
      let rate :=
        if bool_decide (formation u = Some COLUMN)
        then CONFIG.EXHAUSTION.COLUMN_MOVEMENT_RATE
        else CONFIG.EXHAUSTION.MOVEMENT_RATE in
      on_fatigue
        (set_exhaustion
           (Rmin CONFIG.EXHAUSTION.MAX (exhaustion (fatigue u) + rate * deltaTime))) u
    else
      on_fatigue
        (set_exhaustion
           (Rmax 0 (exhaustion (fatigue u) - CONFIG.EXHAUSTION.RECOVERY_RATE * deltaTime))) u
  in
  applyExhaustionPenalties u.

(** [addCombatExhaustion(unit, amount = null)]. *)
Definition addCombatExhaustion (amount : option R) (u : Unit) : Unit :=
  let exhaustionAmount := default CONFIG.EXHAUSTION.COMBAT_RATE amount in
  let u :=
    on_fatigue
      (set_exhaustion
         (Rmin CONFIG.EXHAUSTION.MAX (exhaustion (fatigue u) + exhaustionAmount))) u in
  applyExhaustionPenalties u.

Definition getExhaustionPercentage (u : Unit) : R :=
  exhaustion (fatigue u) / CONFIG.EXHAUSTION.MAX * 100.

Definition isExhausted (u : Unit) : bool :=
  JS.gtb (exhaustion (fatigue u)) (CONFIG.EXHAUSTION.MAX * (7 / 10)).

End ExhaustionSystem.

(** ** js/Projectile.js *)

Record Projectile := mkProjectile {
  p_x : R; p_y : R;
  p_startX : R; p_startY : R;
  p_vx : R; p_vy : R;
  p_speed : R;
  p_damage : R;
  p_team : Team;
  p_range : R;
  p_radius : R;
  p_isDead : bool
}.

(** [new Projectile(x, y, angle, speed, damage, team, range)]: the ball
    starts 20 pixels down the barrel. *)
Definition newProjectile (px py ang spd dmg : R) (tm : Team) (rng : R) : Projectile :=
  mkProjectile (px + cos ang * 20) (py + sin ang * 20) px py
    (cos ang * spd) (sin ang * spd) spd dmg tm rng 4 false.

(** [projectile.update(deltaTime)]. *)
Definition Projectile_update (deltaTime : R) (p : Projectile) : Projectile :=
  let nx := p_x p + p_vx p * deltaTime in
  let ny := p_y p + p_vy p * deltaTime in
  let dist := sqrt ((nx - p_startX p) ^ 2 + (ny - p_startY p) ^ 2) in
  let dead := p_isDead p in
  let dead := if JS.gtb dist (p_range p) then true else dead in
  let dead :=
    if JS.ltb nx 0 || JS.gtb nx CONFIG.CANVAS_WIDTH
       || JS.ltb ny 0 || JS.gtb ny CONFIG.CANVAS_HEIGHT
    then true else dead in
  mkProjectile nx ny (p_startX p) (p_startY p) (p_vx p) (p_vy p) (p_speed p)
    (p_damage p) (p_team p) (p_range p) (p_radius p) dead.

(** ** Math.random *)

(** A computation that calls [Math.random()]: it reads an oracle of
    draws from a position and returns the next position. *)
Module Rng.

Definition M (A : Type) : Type := (nat -> R) -> nat -> A * nat.

Definition ret {A} (a : A) : M A := fun _ k => (a, k).

Definition bind {A B} (c : M A) (f : A -> M B) : M B :=
  fun rnd k => let '(a, k') := c rnd k in f a rnd k'.

(** [Math.random()]. *)
Definition random : M R := fun rnd k => (rnd k, S k).

(** The value of a computation and the number of draws it made. *)
Definition value {A} (c : M A) (rnd : nat -> R) (k : nat) : A := fst (c rnd k).

End Rng.

#[global] Instance rng_ret : MRet Rng.M := @Rng.ret.
#[global] Instance rng_bind : MBind Rng.M := fun A B f c => Rng.bind c f.

(** ** js/CombatSystem.js *)

Module CombatSystem.

(** The result object of [resolveMusketFire]. *)
Record FireResult := mkFireResult {
  hit : bool;
  damage : R;
  multiplier : R;
  accuracy : option R;
  projectile : option Projectile
}.

(** [calculateAccuracy(distance, maxRange)]. *)
Definition calculateAccuracy (distance maxRange : R) : Rng.M R :=
  let ratio := distance / maxRange in
  if JS.ltb ratio (33 / 100) then
    r ← Rng.random;
    mret (CONFIG.ACCURACY.SHORT_MIN
             + r * (CONFIG.ACCURACY.SHORT_MAX - CONFIG.ACCURACY.SHORT_MIN))
  else if JS.ltb ratio (67 / 100) then
    r ← Rng.random;
    mret (CONFIG.ACCURACY.MEDIUM_MIN
             + r * (CONFIG.ACCURACY.MEDIUM_MAX - CONFIG.ACCURACY.MEDIUM_MIN))
  else
    r ← Rng.random;
    mret (CONFIG.ACCURACY.LONG_MIN
             + r * (CONFIG.ACCURACY.LONG_MAX - CONFIG.ACCURACY.LONG_MIN)).

(** [calculateCannonAccuracy(distance, maxRange)]. *)
Definition calculateCannonAccuracy (distance maxRange : R) : Rng.M R :=
  if JS.leb distance CONFIG.CANNON_ACCURACY.CLOSE_RANGE then
    r ← Rng.random;
    mret (CONFIG.CANNON_ACCURACY.CLOSE_MIN
             + r * (CONFIG.CANNON_ACCURACY.CLOSE_MAX - CONFIG.CANNON_ACCURACY.CLOSE_MIN))
  else if JS.leb distance CONFIG.CANNON_ACCURACY.MEDIUM_RANGE then
    r ← Rng.random;
    mret (CONFIG.CANNON_ACCURACY.MEDIUM_MIN
             + r * (CONFIG.CANNON_ACCURACY.MEDIUM_MAX - CONFIG.CANNON_ACCURACY.MEDIUM_MIN))
  else
    r ← Rng.random;
    mret (CONFIG.CANNON_ACCURACY.LONG_MIN
             + r * (CONFIG.CANNON_ACCURACY.LONG_MAX - CONFIG.CANNON_ACCURACY.LONG_MIN)).

(** The attack bearing relative to the defender's facing, normalised. *)
Definition relativeAttackAngle (attacker defender : Unit) : R :=
  let attackAngle :=
    JS.atan2 (y (motion defender) - y (motion attacker))
             (x (motion defender) - x (motion attacker)) in
  normalizeAngle (attackAngle - angle (motion defender)).

(** [calculateDirectionalMultiplier(attacker, defender)]. *)
Definition calculateDirectionalMultiplier (attacker defender : Unit) : R :=
  if directionalDefense (modifiers defender) then CONFIG.DAMAGE.FRONT_MULTIPLIER
  else
    let absAngle := Rabs (relativeAttackAngle attacker defender) in
    if JS.ltb absAngle CONFIG.DAMAGE.REAR_ANGLE then CONFIG.DAMAGE.REAR_MULTIPLIER
    else if JS.ltb absAngle CONFIG.DAMAGE.FLANK_ANGLE then CONFIG.DAMAGE.FLANK_MULTIPLIER
    else CONFIG.DAMAGE.FRONT_MULTIPLIER.

(** [isInFireArc(shooter, target)]. *)
Definition isInFireArc (shooter target : Unit) : bool :=
  let angleToTarget :=
    JS.atan2 (y (motion target) - y (motion shooter))
             (x (motion target) - x (motion shooter)) in
  let relativeAngle := normalizeAngle (angleToTarget - angle (motion shooter)) in
  let fireArc := getFireArc shooter in
  JS.leb (Rabs relativeAngle) (fireArc / 2).

(** [calculateCavalryChargeBonus(cavalry, target)]. *)
Definition calculateCavalryChargeBonus (cavalry target : Unit) : R :=
  if negb (bool_decide (type cavalry = CAVALRY)) then 1
  else if JS.ltb (speed (motion cavalry)) (JS.num (chargeSpeed (charge cavalry))) then 1
  else if negb (bool_decide (type target = INFANTRY)) then 1
  else if bool_decide (formation target = Some SQUARE)
       then 1 / cavalryDefense (modifiers target)
  else JS.num (chargeDamageMultiplier (charge cavalry)).

(** [applyPushBack(unit1, unit2)]. *)
Definition applyPushBack (unit1 unit2 : Unit) : Unit * Unit :=
  let dx := x (motion unit2) - x (motion unit1) in
  let dy := y (motion unit2) - y (motion unit1) in
  let distance := sqrt (dx * dx + dy * dy) in
  if JS.eqb distance 0 then (unit1, unit2)
  else
    let minDistance := collisionRadius (stats unit1) + collisionRadius (stats unit2) in
    let overlap := minDistance - distance in
    if JS.gtb overlap 0 then
      let pushForce := overlap * (5 / 10) in
      let nx := dx / distance in
      let ny := dy / distance in
      (on_motion (fun m => set_y (y m - ny * pushForce) (set_x (x m - nx * pushForce) m)) unit1,
       on_motion (fun m => set_y (y m + ny * pushForce) (set_x (x m + nx * pushForce) m)) unit2)
    else (unit1, unit2).

(** The charge block of [resolveMeleeCombat], written once for unit1
    against unit2 and once for unit2 against unit1 in the source:
    [dc] is the cavalry's damage, [di] the other unit's. *)
Definition chargeBlock (cav other : Unit) (dc di : R) : R * R :=
  if bool_decide (type cav = CAVALRY) then
    let chargeBonus := calculateCavalryChargeBonus cav other in
    let dc := dc * chargeBonus in
    if bool_decide (type other = INFANTRY) then
      if bool_decide (formation other = Some SQUARE)
      then (0, di * CONFIG.DAMAGE.SQUARE_VS_CAVALRY_BONUS)
      else (dc * CONFIG.DAMAGE.CAVALRY_VS_INFANTRY_BONUS, di)
    else (dc, di)
  else (dc, di).

(** The damage that [resolveMeleeCombat] computes for each side before
    applying it, given the two draws of the random factor:
    (damage1, damage2), dealt to unit2 and to unit1. *)
Definition meleeDamages (unit1 unit2 : Unit) (r1 r2 : R) : R * R :=
  let damage1 := meleeDamage (stats unit1) * JS.or_num (damageBonus (modifiers unit1)) 1 in
  let damage2 := meleeDamage (stats unit2) * JS.or_num (damageBonus (modifiers unit2)) 1 in
  let damage1 := damage1 * (r1 * 2) in
  let damage2 := damage2 * (r2 * 2) in
  let '(damage1, damage2) := chargeBlock unit1 unit2 damage1 damage2 in
  let '(damage2, damage1) := chargeBlock unit2 unit1 damage2 damage1 in
  let multiplier1 := calculateDirectionalMultiplier unit1 unit2 in
  let multiplier2 := calculateDirectionalMultiplier unit2 unit1 in
  let damage1 := damage1 * multiplier1 in
  let damage2 := damage2 * multiplier2 in
  let unit1Momentum := speed (motion unit1) in
  let unit2Momentum := speed (motion unit2) in
  let '(damage1, damage2) :=
    if JS.gtb unit1Momentum (unit2Momentum * (15 / 10)) then (damage1 * (15 / 10), damage2)
    else if JS.gtb unit2Momentum (unit1Momentum * (15 / 10)) then (damage1, damage2 * (15 / 10))
    else (damage1, damage2) in
  (damage1 * JS.or_num (accuracyMultiplier (fatigue unit1)) 1,
   damage2 * JS.or_num (accuracyMultiplier (fatigue unit2)) 1).

(** The wounded-sound roll of a charge: made only when the charge bonus
    exceeds 1.5 and both effect managers are present. *)
Definition chargeEffects (cav other : Unit) (visualEffects audioManager : bool)
  : Rng.M unit :=
  if bool_decide (type cav = CAVALRY)
     && JS.gtb (calculateCavalryChargeBonus cav other) (15 / 10)
     && visualEffects && audioManager
  then _ ← Rng.random; mret tt
  else mret tt.

(** Damage taken, then the morale check of a cavalry unit. *)
Definition takeDamageAndMaybeFlee (amount : R) (u : Unit) : Rng.M Unit :=
  let u := takeDamage amount u in
  if bool_decide (type u = CAVALRY)
     && JS.ltb (getHealthPercentage u) (3 / 10)
     && negb (isFleeing (melee u))
  then
    let u := on_melee (set_isFleeing true) u in
    r ← Rng.random;
    mret (setTarget (match team u with RED => 0 | BLUE => 1200 end)
               (y (motion u) + (r - 5 / 10) * 200) u)
  else mret u.

(** The inline combat exhaustion of [resolveMeleeCombat]. *)
Definition meleeExhaustion (u : Unit) : Unit :=
  on_fatigue
    (set_exhaustion
       (Rmin CONFIG.EXHAUSTION.MAX
          (exhaustion (fatigue u) + CONFIG.EXHAUSTION.COMBAT_RATE))) u.

(** The melee timers (the sounds themselves are outside the model). *)
Definition meleeTimers (deltaTime : R) (audioManager : bool) (unit1 unit2 : Unit)
  : Unit * Unit :=
  if audioManager then
    let t1 := meleeTimer (melee unit1) + deltaTime in
    let t2 := meleeTimer (melee unit2) + deltaTime in
    if JS.gtb t1 (6 / 10)
    then (on_melee (set_meleeTimer (1 / 10)) unit1, on_melee (set_meleeTimer (1 / 10)) unit2)
    else (on_melee (set_meleeTimer t1) unit1, on_melee (set_meleeTimer t2) unit2)
  else (unit1, unit2).

(** [resolveMeleeCombat(unit1, unit2, deltaTime, visualEffects, audioManager)],
    for two distinct unit objects (the engine passes units[i], units[j],
    i < j). *)
Definition resolveMeleeCombat (unit1 unit2 : Unit) (deltaTime : R)
    (visualEffects audioManager : bool) : Rng.M (Unit * Unit) :=
  r1 ← Rng.random;
  r2 ← Rng.random;
  _ ← chargeEffects unit1 unit2 visualEffects audioManager;
  _ ← chargeEffects unit2 unit1 visualEffects audioManager;
  let '(damage1, damage2) := meleeDamages unit1 unit2 r1 r2 in
  unit1 ← takeDamageAndMaybeFlee damage2 unit1;
  unit2 ← takeDamageAndMaybeFlee damage1 unit2;
  let unit1 := meleeExhaustion unit1 in
  let unit2 := meleeExhaustion unit2 in
  let '(unit1, unit2) := applyPushBack unit1 unit2 in
  mret (meleeTimers deltaTime audioManager unit1 unit2).

Definition miss : FireResult := mkFireResult false 0 1 None None.

(** The final accuracy of [resolveMusketFire]: formation bonus and
    exhaustion penalty on the base accuracy, then the point-blank value
    or the long-range penalty. *)
Definition finalAccuracy (shooter : Unit) (distance baseAccuracy : R) : R :=
  let fireRange := JS.num (fireRange (musket shooter)) in
  let formationBonus := JS.or_num (accuracyBonus (modifiers shooter)) 1 in
  let exhaustionPenalty := JS.or_num (accuracyMultiplier (fatigue shooter)) 1 in
  let finalAccuracy := baseAccuracy * formationBonus * exhaustionPenalty in
  if JS.ltb (distance / fireRange) (2 / 10) then 95 / 100
  else if JS.gtb (distance / fireRange) (8 / 10) then finalAccuracy * (1 / 10)
  else finalAccuracy.

(** [resolveMusketFire(shooter, target, allUnits, visualEffects, audioManager)]:
    the result object with the shooter and the target as the call leaves
    them.  The effect managers are modelled by their presence. *)
Definition resolveMusketFire (shooter target : Unit)
    (visualEffects audioManager : bool) : Rng.M (FireResult * Unit * Unit) :=
  if negb (bool_decide (type shooter = INFANTRY))
     && negb (bool_decide (type shooter = CANNON))
  then mret (miss, shooter, target)
  else
    let dx := x (motion target) - x (motion shooter) in
    let dy := y (motion target) - y (motion shooter) in
    let distance := sqrt (dx * dx + dy * dy) in
    let fireRange := JS.num (fireRange (musket shooter)) in
    baseAccuracy ←
      (if bool_decide (type shooter = CANNON)
       then calculateCannonAccuracy distance fireRange
       else calculateAccuracy distance fireRange);
    let finalAccuracy := finalAccuracy shooter distance baseAccuracy in
    hitRoll ← Rng.random;
    let hit := JS.ltb hitRoll finalAccuracy in
    if audioManager && bool_decide (type shooter = CANNON) then
      let angleToTarget := JS.atan2 dy dx in
      let jitterMax := 15 / 100 in
      r ← Rng.random;
      let jitter := (r - 5 / 10) * 2 * jitterMax * (1 - finalAccuracy) in
      let fireAngle := angleToTarget + jitter in
      let cannonball :=
        newProjectile (x (motion shooter)) (y (motion shooter)) fireAngle 300
          (baseDamage (stats shooter)) (team shooter) (fireRange * (15 / 10)) in
      mret (mkFireResult false 0 1 None (Some cannonball), shooter, target)
    else if negb hit then mret (miss, shooter, target)
    else
      let directionalMultiplier := calculateDirectionalMultiplier shooter target in
      let damage :=
        baseDamage (stats shooter) * JS.or_num (damageBonus (modifiers shooter)) 1 in
      let damage := damage * directionalMultiplier in
      let target := takeDamage damage target in
      let shooter := ExhaustionSystem.addCombatExhaustion None shooter in
      let target := ExhaustionSystem.addCombatExhaustion None target in
      mret (mkFireResult true damage directionalMultiplier (Some finalAccuracy) None,
            shooter, target).

(** [resolveProjectileHit(projectile, target, visualEffects, audioManager)]. *)
Definition resolveProjectileHit (p : Projectile) (target : Unit) : Rng.M Unit :=
  let damage := p_damage p in
  let distanceTraveled :=
    sqrt ((p_x p - p_startX p) ^ 2 + (p_y p - p_startY p) ^ 2) in
  let rangeRatio := Rmin 1 (distanceTraveled / p_range p) in
  damage ←
    (if JS.gtb rangeRatio (6 / 10) then
       r ← Rng.random;
       let randomFactor := 2 / 10 + r * (8 / 10) in
       mret (damage * randomFactor)
     else mret damage);
  let damage :=
    if bool_decide (formation target = Some LINE)
       || bool_decide (formation target = Some COLUMN)
    then damage * (15 / 10) else damage in
  let damage :=
    if bool_decide (type target = CANNON) then damage * 3 else damage in
  mret (takeDamage damage target).

End CombatSystem.

(** ** js/ReloadSystem.js *)

Module ReloadSystem.

Definition ranged (u : Unit) : bool :=
  bool_decide (type u = INFANTRY) || bool_decide (type u = CANNON).

(** [startReload(unit, reloadDuration = null)]; [now] is [Date.now()]. *)
Definition startReload (now : R) (reloadDuration_arg : option R) (u : Unit) : Unit :=
  if negb (ranged u) then u
  else
    let formationModifier := JS.or_num (fireRateBonus (modifiers u)) 1 in
    let exhaustionPenalty := JS.or_num (reloadMultiplier (fatigue u)) 1 in
    let baseDuration :=
      match reloadDuration_arg with
      | Some d => d
      | None => JS.num (reloadDuration (musket u))
      end in
    on_musket
      (fun g =>
         set_reloadDuration (Some (baseDuration * formationModifier * exhaustionPenalty))
           (set_lastFireTime (Some now)
              (set_reloadProgress (Some 0)
                 (set_canFire (Some false)
                    (set_isReloading (Some true) g))))) u.

(** [completeReload(unit, audioManager)]. *)
Definition completeReload (u : Unit) : Unit :=
  if negb (ranged u) then u
  else
    on_musket
      (fun g =>
         set_reloadProgress (Some 0)
           (set_canFire (Some true)
              (set_isReloading (Some false) g))) u.

(** [updateReload(unit, deltaTime, audioManager)]. *)
Definition updateReload (deltaTime : R) (u : Unit) : Unit :=
  if negb (ranged u) then u
  else if negb (JS.truthy (isReloading (musket u))) then u
  else
    let progress :=
      JS.num (reloadProgress (musket u))
      + deltaTime / JS.num (reloadDuration (musket u)) in
    let u := on_musket (set_reloadProgress (Some progress)) u in
    if JS.geb progress 1 then completeReload u else u.

Definition getRemainingTime (u : Unit) : R :=
  if negb (ranged u) then 0
  else if negb (JS.truthy (isReloading (musket u))) then 0
  else JS.num (reloadDuration (musket u)) * (1 - JS.num (reloadProgress (musket u))).

Definition canFire_ (u : Unit) : bool :=
  if negb (ranged u) then false
  else JS.truthy (canFire (musket u)) && negb (JS.truthy (isReloading (musket u))).

End ReloadSystem.

(** ** js/LOSSystem.js *)

Module LOSSystem.

Inductive Blocker := terrain | friendly.

(** The result object of [checkLOS]. *)
Record LOSResult := mkLOSResult {
  hasLOS : bool;
  blockedBy : option Blocker;
  blockingUnit : option Unit
}.

(** Terrain data: an extension point, nothing in it is read. *)
Definition Terrain := unit.

(** [Math.ceil]. *)
Definition ceil (v : R) : Z := (- Int_part (- v))%Z.

(** [raycast(startX, startY, endX, endY, sampleRate)]: the samples at
    d = 0, sampleRate, 2 sampleRate, ... while d < distance. *)
Definition raycast (startX startY endX endY sampleRate : R) : list (R * R) :=
  let dx := endX - startX in
  let dy := endY - startY in
  let distance := sqrt (dx * dx + dy * dy) in
  if JS.eqb distance 0 then []
  else
    let dirX := dx / distance in
    let dirY := dy / distance in
    map (fun k : nat =>
           let d := INR k * sampleRate in
           (startX + dirX * d, startY + dirY * d))
        (seq 0 (Z.to_nat (ceil (distance / sampleRate)))).

(** [checkTerrainBlock(x, y, terrain)]: a placeholder in the source. *)
Definition checkTerrainBlock (px py : R) (t : Terrain) : bool := false.

(** [circleLineIntersection(cx, cy, radius, x1, y1, x2, y2)]. *)
Definition circleLineIntersection (cx cy radius x1 y1 x2 y2 : R) : bool :=
  let dx := cx - x1 in
  let dy := cy - y1 in
  let lx := x2 - x1 in
  let ly := y2 - y1 in
  let lineLength := sqrt (lx * lx + ly * ly) in
  if JS.eqb lineLength 0 then false
  else
    let nx := lx / lineLength in
    let ny := ly / lineLength in
    let t := Rmax 0 (Rmin lineLength (dx * nx + dy * ny)) in
    let closestX := x1 + nx * t in
    let closestY := y1 + ny * t in
    let distX := cx - closestX in
    let distY := cy - closestY in
    let distance := sqrt (distX * distX + distY * distY) in
    JS.leb distance radius.

(** The filter of [checkFriendlyBlock]: same team as the shooter, neither
    the shooter nor the target, alive, inside the ray's bounding box
    widened by the infantry collision radius. *)
Definition friendlyCandidate (x1 y1 x2 y2 : R) (fromUnit toUnit u : Unit) : bool :=
  let minX := Rmin x1 x2 - CONFIG.INFANTRY.COLLISION_RADIUS in
  let maxX := Rmax x1 x2 + CONFIG.INFANTRY.COLLISION_RADIUS in
  let minY := Rmin y1 y2 - CONFIG.INFANTRY.COLLISION_RADIUS in
  let maxY := Rmax y1 y2 + CONFIG.INFANTRY.COLLISION_RADIUS in
  bool_decide (team u = team fromUnit)
  && negb (bool_decide (id u = id fromUnit))
  && negb (bool_decide (id u = id toUnit))
  && negb (isDead u)
  && JS.geb (x (motion u)) minX && JS.leb (x (motion u)) maxX
  && JS.geb (y (motion u)) minY && JS.leb (y (motion u)) maxY.

(** [checkFriendlyBlock(x1, y1, x2, y2, fromUnit, toUnit, allUnits)]:
    the first candidate whose circle the ray meets, if any. *)
Definition checkFriendlyBlock (x1 y1 x2 y2 : R) (fromUnit toUnit : Unit)
    (allUnits : list Unit) : option Unit :=
  let friendlyUnits := List.filter (friendlyCandidate x1 y1 x2 y2 fromUnit toUnit) allUnits in
  List.find
    (fun f =>
       circleLineIntersection (x (motion f)) (y (motion f))
         (collisionRadius (stats f)) x1 y1 x2 y2)
    friendlyUnits.

(** [checkLOS(fromUnit, toUnit, allUnits, terrain = null)]. *)
Definition checkLOS (fromUnit toUnit : Unit) (allUnits : list Unit)
    (t : option Terrain) : LOSResult :=
  let rayPoints :=
    raycast (x (motion fromUnit)) (y (motion fromUnit))
      (x (motion toUnit)) (y (motion toUnit)) CONFIG.LOS.SAMPLE_RATE in
  let terrainBlocked :=
    match t with
    | Some tr =>
        CONFIG.LOS.TERRAIN_BLOCKS
        && existsb (fun p => checkTerrainBlock (fst p) (snd p) tr) rayPoints
    | None => false
    end in
  if terrainBlocked then mkLOSResult false (Some terrain) None
  else
    let friendlyBlock :=
      if CONFIG.LOS.FRIENDLY_BLOCKS then
        checkFriendlyBlock (x (motion fromUnit)) (y (motion fromUnit))
          (x (motion toUnit)) (y (motion toUnit)) fromUnit toUnit allUnits
      else None in
    match friendlyBlock with
    | Some b => mkLOSResult false (Some friendly) (Some b)
    | None => mkLOSResult true None None
    end.

End LOSSystem.

(** ** js/FormationSystem.js *)

Module FormationSystem.

(** An entry of the result of [calculateFormationPositions]: the unit (here
    whatever designates it, an object or its address) and its slot. *)
Record Position (A : Type) := mkPosition {
  pos_unit : A;
  pos_x : R;
  pos_y : R;
  pos_angle : R
}.
Arguments mkPosition {A}.
Arguments pos_unit {A}.
Arguments pos_x {A}.
Arguments pos_y {A}.
Arguments pos_angle {A}.

(** [units.reduce((sum, u) => sum + f(u), 0)]. *)
Definition sumOf {A : Type} (f : A -> R) (l : list A) : R :=
  foldl (fun sum a => sum + f a) 0 l.

Definition spacing : R := 30.

(** [calculateFormationPositions(selectedUnits, targetX, targetY,
    formationType)]; [obj] gives the unit object of an entry of
    [selectedUnits]. *)
Definition calculateFormationPositions {A : Type} (obj : A -> Unit)
    (selectedUnits : list A) (targetX targetY : R) (formationType : option Formation)
  : list (Position A) :=
  match selectedUnits with
  | [] => []
  | _ =>
      let n := length selectedUnits in
      let centerX := sumOf (fun a => x (motion (obj a))) selectedUnits / INR n in
      let centerY := sumOf (fun a => y (motion (obj a))) selectedUnits / INR n in
      let angle := JS.atan2 (targetY - centerY) (targetX - centerX) in
      match formationType with
      | Some LINE =>
          let lineAngle := angle + PI / 2 in
          imap (fun i a =>
                  let offset := (INR i - (INR n - 1) / 2) * spacing in
                  mkPosition a (targetX + cos lineAngle * offset)
                    (targetY + sin lineAngle * offset) angle)
               selectedUnits
      | Some COLUMN =>
          imap (fun i a =>
                  let offset := INR i * spacing in
                  mkPosition a (targetX - cos angle * offset)
                    (targetY - sin angle * offset) angle)
               selectedUnits
      | Some SQUARE =>
          let sideLength := Z.to_nat (LOSSystem.ceil (sqrt (INR n))) in
          imap (fun i a =>
                  let row := (i / sideLength)%nat in
                  let col := (i mod sideLength)%nat in
                  let offsetX := (INR col - INR sideLength / 2) * spacing in
                  let offsetY := (INR row - INR sideLength / 2) * spacing in
                  mkPosition a (targetX + offsetX) (targetY + offsetY) angle)
               selectedUnits
      | None =>
          map (fun a =>
                 let relX := x (motion (obj a)) - centerX in
                 let relY := y (motion (obj a)) - centerY in
                 mkPosition a (targetX + relX) (targetY + relY) angle)
              selectedUnits
      end
  end.

(** The body of the loop of [toggleFormation(selectedUnits, formationType)]. *)
Definition toggleFormation (formationType : Formation) (u : Unit) : Unit :=
  if bool_decide (formation u = Some formationType)
  then setFormation None u
  else setFormation (Some formationType) u.

(** [canMove(unit)]. *)
Definition canMove (u : Unit) : bool :=
  negb (bool_decide (formation u = Some SQUARE)).

End FormationSystem.

(** ** GameEngine (js/DeploymentManager.js) *)

Module GameEngine.

(** The engine's fields.  [store] holds every unit object by address;
    [units] and [selectedUnits] are the arrays of references.  The visual
    effects manager is always present (update calls it unguarded); the
    audio manager may be null. *)
Record Game := mkGame {
  store : list Unit;
  units : list ref;
  selectedUnits : list ref;
  projectiles : list Projectile;
  gameTime : R;
  gameOver : bool;
  winner : option Team;
  audioManager : bool;
  nextUnitId : Z
}.

(** [new GameEngine(visualEffects, audioManager)]. *)
Definition newGame (audio : bool) : Game :=
  mkGame [] [] [] [] 0 false None audio 0.

Definition set_store (v : list Unit) (g : Game) : Game :=
  mkGame v (units g) (selectedUnits g) (projectiles g) (gameTime g)
    (gameOver g) (winner g) (audioManager g) (nextUnitId g).
Definition set_units (v : list ref) (g : Game) : Game :=
  mkGame (store g) v (selectedUnits g) (projectiles g) (gameTime g)
    (gameOver g) (winner g) (audioManager g) (nextUnitId g).
Definition set_selectedUnits (v : list ref) (g : Game) : Game :=
  mkGame (store g) (units g) v (projectiles g) (gameTime g)
    (gameOver g) (winner g) (audioManager g) (nextUnitId g).
Definition set_projectiles (v : list Projectile) (g : Game) : Game :=
  mkGame (store g) (units g) (selectedUnits g) v (gameTime g)
    (gameOver g) (winner g) (audioManager g) (nextUnitId g).
Definition set_gameTime (v : R) (g : Game) : Game :=
  mkGame (store g) (units g) (selectedUnits g) (projectiles g) v
    (gameOver g) (winner g) (audioManager g) (nextUnitId g).
Definition set_outcome (over : bool) (w : option Team) (g : Game) : Game :=
  mkGame (store g) (units g) (selectedUnits g) (projectiles g) (gameTime g)
    over w (audioManager g) (nextUnitId g).

(** The unit objects that an array of references designates. *)
Definition objects (st : list Unit) (rs : list ref) : list Unit :=
  omap (fun r => st !! r) rs.

(** [for (const unit of rs) f(unit)], for an [f] that mutates its unit
    only. *)
Definition forEachUnit (f : Unit -> Unit) (rs : list ref) (st : list Unit) : list Unit :=
  foldl (fun st r => alter f r st) st rs.

(** A loop whose body draws random numbers. *)
Fixpoint forEachM {A S : Type} (f : A -> S -> Rng.M S) (l : list A) (s : S) : Rng.M S :=
  match l with
  | [] => mret s
  | a :: l' => s' ← f a s; forEachM f l' s'
  end.

(** [createUnit(type, team, x, y)]: the new unit's reference and the game. *)
Definition createUnit (ty : UnitType) (tm : Team) (px py : R) (g : Game) : ref * Game :=
  let r := length (store g) in
  let unit := newUnit (nextUnitId g) ty tm px py in
  (r,
   mkGame (store g ++ [unit]) (units g ++ [r]) (selectedUnits g) (projectiles g)
     (gameTime g) (gameOver g) (winner g) (audioManager g) (nextUnitId g + 1)%Z).

(** Step 1 of [update], for one unit; [now] is [Date.now()]. *)
Definition moveUnit (deltaTime now : R) (u : Unit) : Unit :=
  let u := Unit_update deltaTime u in
  let u := on_melee (fun c => set_wasMeleeLocked (isMeleeLocked c) c) u in
  let u := on_melee (set_isMeleeLocked false) u in
  let longAgo :=
    match lastMeleeTime (melee u) with
    | Some t => JS.gtb (now - t) 2000
    | None => false
    end in
  if negb (wasMeleeLocked (melee u)) && longAgo
  then on_melee (set_meleeTimer 0) u
  else u.

(** Step 2 of [update], for one unit. *)
Definition reloadUnit (deltaTime : R) (u : Unit) : Unit :=
  if ReloadSystem.ranged u && JS.truthy (isReloading (musket u))
  then ReloadSystem.updateReload deltaTime u
  else u.

Definition distanceBetween (a b : Unit) : R :=
  let dx := x (motion b) - x (motion a) in
  let dy := y (motion b) - y (motion a) in
  sqrt (dx * dx + dy * dy).

(** [acquireTarget(unit)]: the nearest living enemy in range, in arc and
    in sight; the first found wins a tie. *)
Definition acquireTarget (st : list Unit) (rs : list ref) (unit : Unit) : option ref :=
  if negb (ReloadSystem.ranged unit) then None
  else
    let allUnits := objects st rs in
    let enemies :=
      List.filter
        (fun r =>
           match st !! r with
           | Some u => negb (bool_decide (team u = team unit)) && negb (isDead u)
           | None => false
           end) rs in
    let scan (nearest : option (ref * R)) (r : ref) : option (ref * R) :=
      match st !! r with
      | None => nearest
      | Some enemy =>
          let distance := distanceBetween unit enemy in
          if JS.gtb distance (JS.num (fireRange (musket unit))) then nearest
          else if negb (CombatSystem.isInFireArc unit enemy) then nearest
          else if negb (LOSSystem.hasLOS (LOSSystem.checkLOS unit enemy allUnits None))
          then nearest
          else
            match nearest with
            | Some (_, nearestDistance) =>
                if JS.ltb distance nearestDistance then Some (r, distance) else nearest
            | None => Some (r, distance)
            end
      end in
    fst <$> foldl scan None enemies.

(** [isTargetValid(unit, target)]. *)
Definition isTargetValid (st : list Unit) (rs : list ref) (unit target : Unit) : bool :=
  let dx := x (motion target) - x (motion unit) in
  let dy := y (motion target) - y (motion unit) in
  let distSq := dx * dx + dy * dy in
  let range := JS.num (fireRange (musket unit)) in
  if JS.gtb distSq (range * range) then false
  else if negb (CombatSystem.isInFireArc unit target) then false
  else LOSSystem.hasLOS (LOSSystem.checkLOS unit target (objects st rs) None).

(** Step 4 of [update], for the unit at [r]. *)
Definition retarget (frame : Z) (rs : list ref) (st : list Unit) (r : ref) : list Unit :=
  match st !! r with
  | None => st
  | Some unit =>
      if ReloadSystem.ranged unit && negb (isDead unit) then
        let throttleRate := 15%Z in
        let myTurn := bool_decide (Z.rem (id unit + frame) throttleRate = 0%Z) in
        let '(unit, shouldScan) :=
          match currentTarget (musket unit) with
          | Some t =>
              let stale :=
                match st !! t with
                | Some target => isDead target || negb (isTargetValid st rs unit target)
                | None => true
                end in
              if stale then (on_musket (set_currentTarget None) unit, true)
              else (unit, myTurn)
          | None => (unit, myTurn)
          end in
        let st := <[r := unit]> st in
        if shouldScan
        then <[r := on_musket (set_currentTarget (acquireTarget st rs unit)) unit]> st
        else st
      else st
  end.

(** The first living hostile unit that the ball touches. *)
Definition struckUnit (st : list Unit) (rs : list ref) (p : Projectile) : option ref :=
  List.find
    (fun r =>
       match st !! r with
       | Some unit =>
           negb (bool_decide (team unit = p_team p)) && negb (isDead unit)
           && (let dx := x (motion unit) - p_x p in
               let dy := y (motion unit) - p_y p in
               JS.ltb (sqrt (dx * dx + dy * dy)) (collisionRadius (stats unit) + p_radius p))
       | None => false
       end) rs.

(** Step 4b of [update]: the loop runs from the last projectile to the
    first and splices out the dead and the spent ones. *)
Fixpoint updateProjectiles (deltaTime : R) (rs : list ref) (ps : list Projectile)
    (st : list Unit) : Rng.M (list Projectile * list Unit) :=
  match ps with
  | [] => mret ([], st)
  | p :: rest =>
      '(rest, st) ← updateProjectiles deltaTime rs rest st;
      let p := Projectile_update deltaTime p in
      if p_isDead p then mret (rest, st)
      else
        match struckUnit st rs p with
        | Some r =>
            match st !! r with
            | Some unit =>
                unit ← CombatSystem.resolveProjectileHit p unit;
                mret (rest, <[r := unit]> st)
            | None => mret (rest, st)
            end
        | None => mret (p :: rest, st)
        end
  end.

(** Step 5 of [update], for the unit at [r]: fire at the current target
    (a different object: targets are enemies) and start reloading. *)
Definition autoFire (now : R) (audio : bool) (r : ref)
    (s : list Unit * list Projectile) : Rng.M (list Unit * list Projectile) :=
  let '(st, ps) := s in
  match st !! r with
  | None => mret s
  | Some unit =>
      match currentTarget (musket unit) with
      | Some t =>
          if ReloadSystem.ranged unit && JS.truthy (canFire (musket unit))
             && negb (JS.truthy (isReloading (musket unit)))
          then
            match st !! t with
            | None => mret s
            | Some target =>
                '(combatResult, unit, target) ←
                  CombatSystem.resolveMusketFire unit target true audio;
                let ps :=
                  match CombatSystem.projectile combatResult with
                  | Some ball => ps ++ [ball]
                  | None => ps
                  end in
                let unit := on_musket (set_isReloading (Some true)) unit in
                let unit :=
                  ReloadSystem.startReload now
                    (Some (JS.or_num (JS.num (reloadDuration (musket unit)))
                             CONFIG.INFANTRY.RELOAD_DURATION)) unit in
                mret (<[r := unit]> (<[t := target]> st), ps)
            end
          else mret s
      | None => mret s
      end
  end.

(** The index pairs i < j of [checkCollisions], in the order of its two
    loops. *)
Fixpoint pairs (rs : list ref) : list (ref * ref) :=
  match rs with
  | [] => []
  | r :: rest => map (pair r) rest ++ pairs rest
  end.

(** The body of the loops of [checkCollisions]. *)
Definition collide (deltaTime : R) (audio : bool) (ij : ref * ref)
    (st : list Unit) : Rng.M (list Unit) :=
  match st !! fst ij, st !! snd ij with
  | Some unit1, Some unit2 =>
      let dx := x (motion unit2) - x (motion unit1) in
      let maxDist := collisionRadius (stats unit1) + collisionRadius (stats unit2) + 10 in
      if JS.gtb (Rabs dx) maxDist then mret st
      else
        let dy := y (motion unit2) - y (motion unit1) in
        if JS.gtb (Rabs dy) maxDist then mret st
        else
          let distance := sqrt (dx * dx + dy * dy) in
          let minDistance := collisionRadius (stats unit1) + collisionRadius (stats unit2) in
          if JS.ltb distance minDistance then
            if negb (bool_decide (team unit1 = team unit2)) then
              let unit1 := on_melee (set_isMeleeLocked true) unit1 in
              let unit2 := on_melee (set_isMeleeLocked true) unit2 in
              '(unit1, unit2) ←
                CombatSystem.resolveMeleeCombat unit1 unit2 deltaTime true audio;
              mret (<[snd ij := unit2]> (<[fst ij := unit1]> st))
            else
              let '(unit1, unit2) := CombatSystem.applyPushBack unit1 unit2 in
              mret (<[snd ij := unit2]> (<[fst ij := unit1]> st))
          else mret st
  | _, _ => mret st
  end.

(** [checkCollisions(deltaTime)]. *)
Definition checkCollisions (deltaTime : R) (audio : bool) (rs : list ref)
    (st : list Unit) : Rng.M (list Unit) :=
  forEachM (collide deltaTime audio) (pairs rs) st.

Definition alive (st : list Unit) (r : ref) : bool :=
  match st !! r with
  | Some u => negb (isDead u)
  | None => false
  end.

Definition onTeam (st : list Unit) (tm : Team) (r : ref) : bool :=
  match st !! r with
  | Some u => bool_decide (team u = tm)
  | None => false
  end.

(** [checkWinCondition()]. *)
Definition checkWinCondition (g : Game) : Game :=
  let redAlive := length (List.filter (onTeam (store g) RED) (units g)) in
  let blueAlive := length (List.filter (onTeam (store g) BLUE) (units g)) in
  if Nat.eqb redAlive 0 && Nat.ltb 0 blueAlive then set_outcome true (Some BLUE) g
  else if Nat.eqb blueAlive 0 && Nat.ltb 0 redAlive then set_outcome true (Some RED) g
  else g.

(** [update(deltaTime)]; [now] is the clock that [Date.now()] reads during
    the tick. *)
Definition update (deltaTime now : R) (g : Game) : Rng.M Game :=
  if gameOver g then mret g
  else
    let g := set_gameTime (gameTime g + deltaTime) g in
    let rs := units g in
    (* 1. movement, 2. reload timers, 3. exhaustion *)
    let st := forEachUnit (moveUnit deltaTime now) rs (store g) in
    let st := forEachUnit (reloadUnit deltaTime) rs st in
    let st := forEachUnit (ExhaustionSystem.update deltaTime) rs st in
    (* 4. target acquisition *)
    let frame := JS.floor (gameTime g * 60) in
    let st := foldl (retarget frame rs) st rs in
    (* 4b. projectiles *)
    '(ps, st) ← updateProjectiles deltaTime rs (projectiles g) st;
    (* 5. auto-fire *)
    '(st, ps) ← forEachM (autoFire now (audioManager g)) rs (st, ps);
    (* 6. collisions and melee *)
    st ← checkCollisions deltaTime (audioManager g) rs st;
    (* 7. remove dead units *)
    let g := set_projectiles ps (set_store st g) in
    let g := set_units (List.filter (alive st) (units g)) g in
    let g := set_selectedUnits (List.filter (alive st) (selectedUnits g)) g in
    (* 8. win condition *)
    mret (checkWinCondition g).

(** [clearSelection()]. *)
Definition clearSelection (g : Game) : Game :=
  let st := forEachUnit (set_isSelected false) (selectedUnits g) (store g) in
  set_selectedUnits [] (set_store st g).

(** [selectUnitsInBox(x1, y1, x2, y2, team)]; [team] null selects both
    sides. *)
Definition selectUnitsInBox (x1 y1 x2 y2 : R) (tm : option Team) (g : Game) : Game :=
  let minX := Rmin x1 x2 in
  let maxX := Rmax x1 x2 in
  let minY := Rmin y1 y2 in
  let maxY := Rmax y1 y2 in
  let g := clearSelection g in
  let inBox (r : ref) : bool :=
    match store g !! r with
    | Some unit =>
        match tm with
        | None => true
        | Some t => bool_decide (team unit = t)
        end
        && JS.geb (x (motion unit)) minX && JS.leb (x (motion unit)) maxX
        && JS.geb (y (motion unit)) minY && JS.leb (y (motion unit)) maxY
    | None => false
    end in
  let picked := List.filter inBox (units g) in
  set_selectedUnits picked
    (set_store (forEachUnit (set_isSelected true) picked (store g)) g).

(** [selectUnitAtPosition(x, y, team)]: the unit found, if any, and the
    game. *)
Definition selectUnitAtPosition (px py : R) (tm : option Team) (g : Game)
  : option ref * Game :=
  let hit (r : ref) : bool :=
    match store g !! r with
    | Some unit =>
        match tm with
        | None => true
        | Some t => bool_decide (team unit = t)
        end
        && (let dx := px - x (motion unit) in
            let dy := py - y (motion unit) in
            JS.leb (sqrt (dx * dx + dy * dy)) (collisionRadius (stats unit)))
    | None => false
    end in
  match List.find hit (units g) with
  | Some r =>
      let st := forEachUnit (set_isSelected false) (selectedUnits g) (store g) in
      (Some r, set_selectedUnits [r] (set_store (alter (set_isSelected true) r st) g))
  | None => (None, g)
  end.

(** The selected units with their addresses. *)
Definition selection (st : list Unit) (rs : list ref) : list (ref * Unit) :=
  omap (fun r => pair r <$> st !! r) rs.

(** [moveSelectedUnits(targetX, targetY)]. *)
Definition moveSelectedUnits (targetX targetY : R) (g : Game) : Game :=
  match selection (store g) (selectedUnits g) with
  | [] => g
  | (first :: _) as sel =>
      let formation0 := formation (snd first) in
      let positions :=
        FormationSystem.calculateFormationPositions snd sel targetX targetY formation0 in
      let order (st : list Unit) (p : FormationSystem.Position (ref * Unit)) : list Unit :=
        alter
          (fun unit =>
             if bool_decide (formation unit = Some SQUARE) then unit
             else setTarget (FormationSystem.pos_x p) (FormationSystem.pos_y p) unit)
          (fst (FormationSystem.pos_unit p)) st in
      set_store (foldl order (store g) positions) g
  end.

(** [setFormationForSelected(formationType)]. *)
Definition setFormationForSelected (f : option Formation) (g : Game) : Game :=
  set_store (forEachUnit (setFormation f) (selectedUnits g) (store g)) g.

(** [getUnitsByTeam(team)]. *)
Definition getUnitsByTeam (tm : Team) (g : Game) : list ref :=
  List.filter (onTeam (store g) tm) (units g).

(** [restart()]. *)
Definition restart (g : Game) : Game :=
  mkGame (store g) [] [] [] 0 false None (audioManager g) 0.

End GameEngine.

(** ** js/multiplayer/GameStateSync.js *)

Module GameStateSync.

Import GameEngine.

(** A serialized unit, as [serializeUnit] builds it. *)
Record WireUnit := mkWireUnit {
  w_id : Z; w_type : UnitType; w_team : Team;
  w_x : R; w_y : R; w_vx : R; w_vy : R;
  w_angle : R;
  w_targetX : option R; w_targetY : option R;
  w_entityCount : R;
  w_formation : option Formation;
  w_isSelected : bool;
  w_isReloading : option bool;
  w_reloadProgress : option R;
  w_exhaustion : R;
  w_isMeleeLocked : bool;
  w_currentTargetId : option Z
}.

(** [serializeUnit(unit)]; the store gives the id of the current target. *)
Definition serializeUnit (st : list Unit) (u : Unit) : WireUnit :=
  mkWireUnit (id u) (type u) (team u)
    (x (motion u)) (y (motion u)) (vx (motion u)) (vy (motion u))
    (angle (motion u))
    (targetX (motion u)) (targetY (motion u))
    (entityCount (stats u))
    (formation u)
    (isSelected u)
    (isReloading (musket u))
    (reloadProgress (musket u))
    (exhaustion (fatigue u))
    (isMeleeLocked (melee u))
    (t ← currentTarget (musket u); id <$> st !! t).

(** The [units] array of [serializeGameState()]. *)
Definition serializeUnits (g : Game) : list WireUnit :=
  map (serializeUnit (store g)) (objects (store g) (units g)).

(** [this.game.units.find(u => u.id === i)]. *)
Definition findById (g : Game) (i : Z) : option ref :=
  List.find
    (fun r =>
       match store g !! r with
       | Some u => bool_decide (id u = i)
       | None => false
       end) (units g).

(** The assignments of [updateUnit] to the local unit's own fields. *)
Definition copyFields (remoteUnit : WireUnit) (localUnit : Unit) : Unit :=
  let u := localUnit in
  let u :=
    on_motion
      (fun m =>
         mkMotion (w_x remoteUnit) (w_y remoteUnit) (w_vx remoteUnit) (w_vy remoteUnit)
           (w_angle remoteUnit) (w_targetX remoteUnit) (w_targetY remoteUnit) (speed m)) u in
  let u := on_stats (set_entityCount (w_entityCount remoteUnit)) u in
  let u :=
    on_musket
      (fun g =>
         set_reloadProgress (w_reloadProgress remoteUnit)
           (set_isReloading (w_isReloading remoteUnit) g)) u in
  let u := on_fatigue (set_exhaustion (w_exhaustion remoteUnit)) u in
  let u := on_melee (set_isMeleeLocked (w_isMeleeLocked remoteUnit)) u in
  let u :=
    if bool_decide (formation u = w_formation remoteUnit) then u
    else setFormation (w_formation remoteUnit) u in
  set_isSelected (w_isSelected remoteUnit) u.

(** [updateUnit(localUnit, remoteUnit)], the local unit given by its
    address. *)
Definition updateUnit (r : ref) (remoteUnit : WireUnit) (g : Game) : Game :=
  match store g !! r with
  | None => g
  | Some localUnit =>
      let u := copyFields remoteUnit localUnit in
      let g := set_store (<[r := u]> (store g)) g in
      let target :=
        match w_currentTargetId remoteUnit with
        | Some i => findById g i
        | None => None
        end in
      set_store (<[r := on_musket (set_currentTarget target) u]> (store g)) g
  end.

(** The lookup map that [mergeUnits] builds first: id to local unit, a
    later unit of the same id replacing an earlier one. *)
Definition localUnitsMap (g : Game) : gmap Z ref :=
  foldl
    (fun (m : gmap Z ref) r =>
       match store g !! r with
       | Some u => <[id u := r]> m
       | None => m
       end) ∅ (units g).

(** The body of the loop of [mergeUnits] over the remote units. *)
Definition mergeUnit (localMap : gmap Z ref) (s : gset Z * Game) (remoteUnit : WireUnit)
  : gset Z * Game :=
  let '(seenIds, g) := s in
  let seenIds := {[ w_id remoteUnit ]} ∪ seenIds in
  match localMap !! w_id remoteUnit with
  | Some r => (seenIds, updateUnit r remoteUnit g)
  | None =>
      let '(r, g) :=
        createUnit (w_type remoteUnit) (w_team remoteUnit)
          (w_x remoteUnit) (w_y remoteUnit) g in
      let g := set_store (alter (set_id (w_id remoteUnit)) r (store g)) g in
      (seenIds, updateUnit r remoteUnit g)
  end.

(** [mergeUnits(remoteUnits)]. *)
Definition mergeUnits (remoteUnits : list WireUnit) (g : Game) : Game :=
  let localMap := localUnitsMap g in
  let '(seenIds, g) := foldl (mergeUnit localMap) (∅, g) remoteUnits in
  set_units
    (List.filter
       (fun r =>
          match store g !! r with
          | Some u => bool_decide (id u ∈ seenIds)
          | None => false
          end) (units g)) g.

(** [this.syncInterval]: 15 Hz. *)
Definition syncInterval : R := 1 / 15.

(** [shouldSync(deltaTime)]: the answer and the new [lastSyncTime]. *)
Definition shouldSync (deltaTime lastSyncTime : R) : bool * R :=
  let lastSyncTime := lastSyncTime + deltaTime in
  if JS.geb lastSyncTime syncInterval then (true, 0) else (false, lastSyncTime).

(** A DEPLOY_UNIT event, as [serializeDeploymentEvent] builds it. *)
Record DeployEvent := mkDeployEvent {
  ev_timestamp : R;
  ev_id : Z; ev_type : UnitType; ev_team : Team;
  ev_x : R; ev_y : R; ev_angle : R
}.

(** [serializeDeploymentEvent(unit)]; [now] is [Date.now()]. *)
Definition serializeDeploymentEvent (now : R) (u : Unit) : DeployEvent :=
  mkDeployEvent now (id u) (type u) (team u)
    (x (motion u)) (y (motion u)) (angle (motion u)).

(** [applyDeploymentEvent(event)]. *)
Definition applyDeploymentEvent (event : DeployEvent) (g : Game) : Game :=
  match findById g (ev_id event) with
  | Some _ => g
  | None =>
      let '(r, g) := createUnit (ev_type event) (ev_team event) (ev_x event) (ev_y event) g in
      let g := set_store (alter (set_id (ev_id event)) r (store g)) g in
      set_store (alter (on_motion (set_angle (ev_angle event))) r (store g)) g
  end.

End GameStateSync.

(** ** The AI executor (class AIExecutor) *)

Module AIExecutor.

Import GameEngine.

(** A queued command: an object tagged by its [type] field ('move',
    'formation', 'select'), with the id of the commanded unit and the
    units it selects. *)
Inductive Command :=
| Move (unitId : Z) (units : list nat) (targetX targetY : R)
| SetFormation (unitId : Z) (units : list nat) (formation : option Formation)
| Select (unitId : Z) (units : list nat).

Definition cmd_unitId (cmd : Command) : Z :=
  match cmd with
  | Move i _ _ _ => i
  | SetFormation i _ _ => i
  | Select i _ => i
  end.

(** The executor's own state: the queue and the cooldown map from unit id
    to the time of its last command. *)
Record Executor := mkExecutor {
  queue : list Command;
  unitCooldowns : gmap Z R;
  globalCooldown : R
}.

Definition newExecutor : Executor := mkExecutor [] ∅ 0.

(** [reset()]. *)
Definition reset (ex : Executor) : Executor := mkExecutor [] ∅ 0.

(** [queueCommand(command)]. *)
Definition queueCommand (cmd : Command) (ex : Executor) : Executor :=
  mkExecutor (queue ex ++ [cmd]) (unitCooldowns ex) (globalCooldown ex).

(** [executeSelect(cmd)], also the first three statements of
    [executeMove] and [executeFormation]. *)
Definition executeSelect (rs : list nat) (g : Game) : Game :=
  let g := clearSelection g in
  let g := set_store (forEachUnit (set_isSelected true) rs (store g)) g in
  set_selectedUnits rs g.

(** [executeMove(cmd)]. *)
Definition executeMove (rs : list nat) (targetX targetY : R) (g : Game) : Game :=
  let g := executeSelect rs g in
  let g := moveSelectedUnits targetX targetY g in
  clearSelection g.

(** [executeFormation(cmd)]. *)
Definition executeFormation (rs : list nat) (f : option Formation) (g : Game) : Game :=
  let g := executeSelect rs g in
  let g := setFormationForSelected f g in
  clearSelection g.

(** [execute(cmd)]. *)
Definition execute (cmd : Command) (g : Game) : Game :=
  match cmd with
  | Move _ rs tx ty => executeMove rs tx ty g
  | SetFormation _ rs f => executeFormation rs f g
  | Select _ rs => executeSelect rs g
  end.

(** The loop of [executeQueue()] over the queue; [now] is
    [performance.now()], read once before the loop. *)
Fixpoint processQueue (now : R) (q : list Command) (cooldowns : gmap Z R) (g : Game)
  : gmap Z R * Game :=
  match q with
  | [] => (cooldowns, g)
  | cmd :: q =>
      let tooSoon :=
        match cooldowns !! cmd_unitId cmd with
        | Some lastAction => JS.ltb (now - lastAction) 500
        | None => false
        end in
      if tooSoon then processQueue now q cooldowns g
      else
        let g := execute cmd g in
        processQueue now q (<[cmd_unitId cmd := now]> cooldowns) g
  end.

(** [executeQueue()]. *)
Definition executeQueue (now : R) (ex : Executor) (g : Game) : Executor * Game :=
  let '(cooldowns, g) := processQueue now (queue ex) (unitCooldowns ex) g in
  (mkExecutor [] cooldowns (globalCooldown ex), g).

End AIExecutor.

(** ** AI deployment (class AIDeployment) *)

Module AIDeployment.

(** The unit counts by type that the deployment functions receive. *)
Record Counts := mkCounts {
  nINFANTRY : R;
  nCAVALRY : R;
  nCANNON : R
}.

Definition count (c : Counts) (ty : UnitType) : R :=
  match ty with
  | INFANTRY => nINFANTRY c
  | CAVALRY => nCAVALRY c
  | CANNON => nCANNON c
  end.

(** [selectWeightedRandom(weights)], the weights in the order of the
    object's entries. *)
Definition selectWeightedRandom (weights : list (UnitType * R)) : Rng.M UnitType :=
  rand ← Rng.random;
  let fix scan (cumulative : R) (ws : list (UnitType * R)) : UnitType :=
    match ws with
    | [] => INFANTRY
    | (ty, weight) :: ws =>
        let cumulative := cumulative + weight in
        if JS.ltb rand cumulative then ty else scan cumulative ws
    end in
  mret (scan 0 weights).

(** The share of a type in a distribution whose total is 1 when the
    counts sum to 0. *)
Definition share (c : Counts) (ty : UnitType) : R :=
  count c ty / JS.or_num (nINFANTRY c + nCAVALRY c + nCANNON c) 1.

(** [selectMatchingType(redUnits, blueUnits, tolerance)]. *)
Definition selectMatchingType (redUnits blueUnits : Counts) (tolerance : R) : UnitType :=
  let step (s : R * UnitType) (ty : UnitType) : R * UnitType :=
    let deficit := share redUnits ty - share blueUnits ty in
    if JS.gtb deficit (fst s) then (deficit, ty) else s in
  snd (foldl step (-1, INFANTRY) [INFANTRY; CAVALRY; CANNON]).

(** [selectPosition(unitType, blueUnits, existingBlueUnits, difficulty)];
    the last two arguments are not read. *)
Definition selectPosition (unitType : UnitType) (blueUnits : Counts) : Rng.M (R * R) :=
  let zoneLeft := 900 in
  let zoneRight := 1200 in
  let zoneWidth := zoneRight - zoneLeft in
  let frontLineY := CONFIG.CANVAS_HEIGHT * (5 / 10) in
  let backLineY := CONFIG.CANVAS_HEIGHT * (5 / 10) in
  '(px, py) ←
    match unitType with
    | INFANTRY =>
        r1 ← Rng.random;
        let py := frontLineY + (r1 - 5 / 10) * (CONFIG.CANVAS_HEIGHT * (6 / 10)) in
        r2 ← Rng.random;
        let px := zoneLeft + 100 + r2 * (zoneWidth - 200) in
        mret (px, py)
    | CANNON =>
        r1 ← Rng.random;
        let py := backLineY + (r1 - 5 / 10) * (CONFIG.CANVAS_HEIGHT * (4 / 10)) in
        r2 ← Rng.random;
        let px := zoneLeft + 50 + r2 * 100 in
        mret (px, py)
    | CAVALRY =>
        let isTopFlank := JS.eqb (JS.rem (nCAVALRY blueUnits) 2) 0 in
        let py :=
          if isTopFlank then CONFIG.CANVAS_HEIGHT * (25 / 100)
          else CONFIG.CANVAS_HEIGHT * (75 / 100) in
        r1 ← Rng.random;
        let px := zoneLeft + 100 + r1 * (zoneWidth - 200) in
        mret (px, py)
    end;
  let px := Rmax (zoneLeft + 20) (Rmin (zoneRight - 20) px) in
  let py := Rmax 20 (Rmin (CONFIG.CANVAS_HEIGHT - 20) py) in
  mret (px, py).

End AIDeployment.

(** * Properties *)

(** ** Comparisons and arithmetic of JavaScript numbers *)

Module JSFacts.
Import JS.

Lemma ltb_true a b : a < b -> ltb a b = true.
Proof. intros H. unfold ltb. destruct (Rlt_dec a b); [reflexivity | lra]. Qed.

Lemma ltb_false a b : b <= a -> ltb a b = false.
Proof. intros H. unfold ltb. destruct (Rlt_dec a b); [lra | reflexivity]. Qed.

Lemma leb_true a b : a <= b -> leb a b = true.
Proof. intros H. unfold leb. destruct (Rle_dec a b); [reflexivity | lra]. Qed.

Lemma leb_false a b : b < a -> leb a b = false.
Proof. intros H. unfold leb. destruct (Rle_dec a b); [lra | reflexivity]. Qed.

Lemma eqb_true a b : a = b -> eqb a b = true.
Proof.
  intros H. unfold eqb. destruct (Req_dec_T a b); [reflexivity | contradiction].
Qed.

Lemma eqb_false a b : a <> b -> eqb a b = false.
Proof.
  intros H. unfold eqb. destruct (Req_dec_T a b); [contradiction | reflexivity].
Qed.

Lemma ltb_spec a b : ltb a b = true <-> a < b.
Proof. unfold ltb. destruct (Rlt_dec a b); split; (lra || discriminate || auto). Qed.

Lemma leb_spec a b : leb a b = true <-> a <= b.
Proof. unfold leb. destruct (Rle_dec a b); split; (lra || discriminate || auto). Qed.

Lemma or_num_nonzero v d : v <> 0 -> or_num v d = v.
Proof. intros H. unfold or_num. now rewrite eqb_false. Qed.

End JSFacts.

(** ** Angles *)

Module AngleFacts.
Import JS JSFacts.

(** The remainder differs from the dividend by a whole multiple of the
    divisor, is smaller than the divisor and has the dividend's sign. *)
Lemma rem_spec a b :
  0 < b ->
  (exists k : Z, rem a b = a - b * IZR k)
  /\ (0 <= a -> 0 <= rem a b < b)
  /\ (a < 0 -> - b < rem a b <= 0).
Proof.
  intros Hb. unfold rem, trunc.
  split; [eexists; reflexivity |].
  assert (Hq : a / b * b = a) by (field; lra).
  split; intros Ha.
  - assert (H0 : 0 <= a / b).
    { apply Rmult_le_pos; [lra |]. apply Rlt_le, Rinv_0_lt_compat, Hb. }
    rewrite leb_true by exact H0.
    destruct (base_Int_part (a / b)) as [H1 H2]. nra.
  - assert (H0 : a / b < 0).
    { apply Ropp_lt_cancel. rewrite Ropp_0.
      replace (- (a / b)) with ((- a) * / b) by (unfold Rdiv; ring).
      apply Rmult_lt_0_compat; [lra |]. apply Rinv_0_lt_compat, Hb. }
    rewrite leb_false by exact H0.
    destruct (base_Int_part (- (a / b))) as [H1 H2].
    rewrite opp_IZR. nra.
Qed.

(** The normalised angle lies in [-PI, PI) and names the same direction. *)
Lemma normalizeAngle_spec a :
  - PI <= normalizeAngle a < PI
  /\ exists k : Z, normalizeAngle a = a + IZR k * (2 * PI).
Proof.
  pose proof PI_RGT_0 as Hpi.
  unfold normalizeAngle.
  destruct (rem_spec (a + PI) (PI * 2)) as [[k Hk] [Hpos Hneg]]; [lra |].
  destruct (Rle_dec 0 (a + PI)) as [Ha | Ha].
  - specialize (Hpos Ha).
    rewrite ltb_false by lra.
    split; [lra |]. exists (- k)%Z. rewrite Hk, opp_IZR. ring.
  - assert (Ha' : a + PI < 0) by lra. specialize (Hneg Ha').
    destruct (Rlt_dec (rem (a + PI) (PI * 2)) 0) as [Hr | Hr].
    + rewrite ltb_true by exact Hr.
      split; [lra |]. exists (1 - k)%Z. rewrite Hk, minus_IZR. ring.
    + rewrite ltb_false by lra.
      split; [lra |]. exists (- k)%Z. rewrite Hk, opp_IZR. ring.
Qed.

(** Two angles of [-PI, PI] that name the same direction have the same
    absolute value: they are equal, or they are PI and -PI. *)
Lemma same_direction_Rabs a b (k : Z) :
  - PI <= a <= PI -> - PI <= b <= PI -> a = b + IZR k * (2 * PI) ->
  Rabs a = Rabs b.
Proof.
  pose proof PI_RGT_0 as Hpi.
  intros Ha Hb Hk.
  assert (Hk1 : (-1 <= k <= 1)%Z).
  { split; apply le_IZR; simpl; nra. }
  assert (Hcases : (k = -1 \/ k = 0 \/ k = 1)%Z) by lia.
  destruct Hcases as [-> | [-> | ->]].
  - assert (Ea : a = - PI) by lra. assert (Eb : b = PI) by lra.
    rewrite Ea, Eb. apply Rabs_Ropp.
  - f_equal. lra.
  - assert (Ea : a = PI) by lra. assert (Eb : b = - PI) by lra.
    rewrite Ea, Eb. symmetry. apply Rabs_Ropp.
Qed.

(** Any angle of [-PI, PI] that names the direction of [raw] has the
    absolute value of the normalised [raw]. *)
Lemma normalizeAngle_Rabs raw beta :
  - PI <= beta <= PI -> (exists k : Z, beta = raw + IZR k * (2 * PI)) ->
  Rabs (normalizeAngle raw) = Rabs beta.
Proof.
  intros Hb [k Hk].
  destruct (normalizeAngle_spec raw) as [Hn [k' Hk']].
  apply (same_direction_Rabs _ _ (k' - k)%Z); [lra | lra |].
  rewrite Hk', Hk, minus_IZR. ring.
Qed.

Lemma atan2_0_pos v : 0 < v -> atan2 0 v = 0.
Proof.
  intros Hv. unfold atan2. rewrite ltb_true by exact Hv.
  replace (0 / v) with 0 by (unfold Rdiv; ring). apply atan_0.
Qed.

End AngleFacts.

(** ** Directional damage and the fire arc *)

Module ArcFacts.
Import JS JSFacts AngleFacts CombatSystem.

(** The bearing of [target] seen from [viewer], relative to the facing
    [facing], before normalisation. *)
Definition relativeBearing (viewer target : Unit) (facing : R) : R :=
  atan2 (y (motion target) - y (motion viewer))
        (x (motion target) - x (motion viewer)) - facing.

(** [beta] is the angle [raw] normalised to [-PI, PI]. *)
Definition normalised (raw beta : R) : Prop :=
  - PI <= beta <= PI /\ exists k : Z, beta = raw + IZR k * (2 * PI).

Lemma normalised_Rabs raw beta :
  normalised raw beta -> Rabs (normalizeAngle raw) = Rabs beta.
Proof. intros [H1 H2]. now apply normalizeAngle_Rabs. Qed.

Lemma normalised_normalizeAngle raw : normalised raw (normalizeAngle raw).
Proof.
  destruct (normalizeAngle_spec raw) as [H1 H2]. split; [lra | exact H2].
Qed.

Lemma directional_multiplier_values (attacker defender : Unit) :
  let m := calculateDirectionalMultiplier attacker defender in
  m = 1 \/ m = 2 \/ m = 3.
Proof.
  unfold calculateDirectionalMultiplier.
  destruct (directionalDefense (modifiers defender)); [now left |].
  destruct (ltb _ CONFIG.DAMAGE.REAR_ANGLE); [now right; right |].
  destruct (ltb _ CONFIG.DAMAGE.FLANK_ANGLE); [now right; left | now left].
Qed.

Lemma directional_multiplier_pos (attacker defender : Unit) :
  0 < calculateDirectionalMultiplier attacker defender.
Proof.
  destruct (directional_multiplier_values attacker defender) as [H | [H | H]];
    rewrite H; lra.
Qed.

(** The multiplier as a function of the normalised attack bearing. *)
Lemma directional_multiplier_of_bearing (attacker defender : Unit) (beta : R) :
  directionalDefense (modifiers defender) = false ->
  normalised (relativeBearing attacker defender (angle (motion defender))) beta ->
  calculateDirectionalMultiplier attacker defender
  = if ltb (Rabs beta) (PI / 3) then 3
    else if ltb (Rabs beta) (2 * PI / 3) then 2 else 1.
Proof.
  intros Hd Hbeta.
  unfold calculateDirectionalMultiplier, relativeAttackAngle. rewrite Hd.
  fold (relativeBearing attacker defender (angle (motion defender))).
  rewrite (normalised_Rabs _ _ Hbeta). reflexivity.
Qed.

(** C5.  The directional damage multiplier is 1, 2 or 3.  It is 1 whenever
    the defender has directional defense, which a unit put in SQUARE
    formation has, whatever the bearing of the attack.  Otherwise, with
    beta the attack bearing relative to the defender's facing normalised
    to [-PI, PI], it is 3 when |beta| < 60 degrees (PI/3), 2 when
    |beta| < 120 degrees (2 PI/3) and 1 otherwise. *)
Theorem directional_multiplier_cases (attacker defender : Unit) :
  let m := calculateDirectionalMultiplier attacker defender in
  (m = 1 \/ m = 2 \/ m = 3)
  /\ (directionalDefense (modifiers defender) = true -> m = 1)
  /\ calculateDirectionalMultiplier attacker (setFormation (Some SQUARE) defender) = 1
  /\ (directionalDefense (modifiers defender) = false ->
      forall beta : R,
        normalised
          (relativeBearing attacker defender (angle (motion defender))) beta ->
        (Rabs beta < PI / 3 -> m = 3)
        /\ (PI / 3 <= Rabs beta < 2 * PI / 3 -> m = 2)
        /\ (2 * PI / 3 <= Rabs beta -> m = 1)).
Proof.
  split; [apply directional_multiplier_values |].
  split.
  { intros Hd. simpl. unfold calculateDirectionalMultiplier. now rewrite Hd. }
  split; [reflexivity |].
  intros Hd beta Hbeta. simpl.
  rewrite (directional_multiplier_of_bearing _ _ _ Hd Hbeta).
  pose proof PI_RGT_0 as Hpi.
  repeat split; intros H.
  - now rewrite ltb_true by lra.
  - rewrite ltb_false by lra. now rewrite ltb_true by lra.
  - rewrite ltb_false by lra. now rewrite ltb_false by lra.
Qed.

(** An attacker straight behind a defender in LINE formation: the bearing
    is 0 and the multiplier 3. *)
Lemma directional_multiplier_cases_witness :
  let attacker := newUnit 1 CAVALRY RED 100 100 in
  let defender := setFormation (Some LINE) (newUnit 2 INFANTRY BLUE 120 100) in
  calculateDirectionalMultiplier attacker defender = 3.
Proof.
  intros attacker defender.
  destruct (directional_multiplier_cases attacker defender) as (_ & _ & _ & H).
  pose proof PI_RGT_0 as Hpi.
  apply (H eq_refl 0).
  - split; [lra |]. exists 0%Z.
    unfold relativeBearing; simpl.
    replace (100 - 100) with 0 by ring.
    rewrite atan2_0_pos by lra. ring.
  - rewrite Rabs_R0. lra.
Defined.

(** C6, as the code has it.  The fire arc is 30 degrees (PI/6) for a
    cannon, 90 degrees (PI/2) for infantry in LINE or COLUMN, 360 degrees
    (2 PI) for infantry in SQUARE and 180 degrees (PI) for infantry with
    no formation.  A target is in the arc exactly when its bearing
    relative to the shooter's facing, normalised to [-PI, PI], is within
    half the arc; a target that [isTargetValid] keeps or [acquireTarget]
    picks is in the arc. *)
Theorem fire_arc_gating (shooter : Unit) :
  (type shooter = CANNON -> getFireArc shooter = PI / 6)
  /\ (type shooter = INFANTRY -> formation shooter = Some LINE ->
      getFireArc shooter = PI / 2)
  /\ (type shooter = INFANTRY -> formation shooter = Some COLUMN ->
      getFireArc shooter = PI / 2)
  /\ (type shooter = INFANTRY -> formation shooter = Some SQUARE ->
      getFireArc shooter = 2 * PI)
  /\ (type shooter = INFANTRY -> formation shooter = None ->
      getFireArc shooter = PI)
  /\ (forall (target : Unit) (beta : R),
        normalised (relativeBearing shooter target (angle (motion shooter))) beta ->
        (isInFireArc shooter target = true <-> Rabs beta <= getFireArc shooter / 2))
  /\ (forall st rs target,
        GameEngine.isTargetValid st rs shooter target = true ->
        isInFireArc shooter target = true)
  /\ (forall (st : list Unit) rs r,
        GameEngine.acquireTarget st rs shooter = Some r ->
        exists enemy, st !! r = Some enemy /\ isInFireArc shooter enemy = true).
Proof.
  unfold getFireArc.
  repeat split.
  - now intros ->.
  - now intros -> ->.
  - now intros -> ->.
  - intros -> ->. unfold CONFIG.FORMATION.SQUARE.FIRE_ARC. ring.
  - now intros -> ->.
  - unfold isInFireArc.
    fold (relativeBearing shooter target (angle (motion shooter))).
    rewrite (normalised_Rabs _ _ H). apply leb_spec.
  - unfold isInFireArc.
    fold (relativeBearing shooter target (angle (motion shooter))).
    rewrite (normalised_Rabs _ _ H). apply leb_spec.
  - intros st rs target. unfold GameEngine.isTargetValid.
    destruct (gtb _ _); [discriminate |].
    destruct (isInFireArc shooter target); [reflexivity | discriminate].
  - intros st rs r. unfold GameEngine.acquireTarget.
    destruct (negb (ReloadSystem.ranged shooter)); [discriminate |].
    match goal with |- context [foldl ?f None ?l] => set (scan := f); set (es := l) end.
    assert (Hinv : forall acc,
               (forall r d, acc = Some (r, d) ->
                  exists enemy, st !! r = Some enemy /\ isInFireArc shooter enemy = true) ->
               forall r d, foldl scan acc es = Some (r, d) ->
                  exists enemy, st !! r = Some enemy /\ isInFireArc shooter enemy = true).
    { induction es as [| e es IH]; intros acc Hacc r0 d0; simpl; [apply Hacc |].
      apply IH. intros r1 d1. unfold scan at 1.
      destruct (st !! e) as [enemy |] eqn:He; [| apply Hacc].
      destruct (gtb _ _); [apply Hacc |].
      destruct (isInFireArc shooter enemy) eqn:Harc; simpl; [| apply Hacc].
      destruct (negb _); [apply Hacc |].
      destruct acc as [[r2 d2] |].
      - destruct (ltb _ _); [| apply Hacc].
        intros [= <- <-]. eauto.
      - intros [= <- <-]. eauto. }
    destruct (foldl scan None es) as [[r0 d0] |] eqn:Hf; simpl; [| discriminate].
    intros [= <-]. eapply Hinv; [| exact Hf]. discriminate.
Qed.

(** A cannon's arc, and a target straight ahead of it. *)
Lemma fire_arc_gating_witness :
  let cannon := newUnit 0 CANNON RED 100 100 in
  let target := newUnit 1 INFANTRY BLUE 300 100 in
  getFireArc cannon = PI / 6 /\ isInFireArc cannon target = true.
Proof.
  intros cannon target.
  destruct (fire_arc_gating cannon) as (Hc & _ & _ & _ & _ & Harc & _).
  pose proof PI_RGT_0 as Hpi.
  split; [exact (Hc eq_refl) |].
  apply (Harc target 0).
  - split; [lra |]. exists 0%Z.
    unfold relativeBearing; simpl.
    replace (100 - 100) with 0 by ring.
    rewrite atan2_0_pos by lra. ring.
  - rewrite (Hc eq_refl), Rabs_R0. lra.
Defined.

(** C6 as stated fails: infantry with no formation has an arc of 180
    degrees, not 90, and engages a target 90 degrees off its facing,
    outside the 45 degrees that half an arc of 90 would allow. *)
Lemma fire_arc_default_is_not_90 :
  let shooter := newUnit 0 INFANTRY RED 100 100 in
  let target := newUnit 1 INFANTRY BLUE 100 200 in
  type shooter = INFANTRY /\ formation shooter = None
  /\ getFireArc shooter <> PI / 2
  /\ normalised (relativeBearing shooter target (angle (motion shooter))) (PI / 2)
  /\ ~ Rabs (PI / 2) <= (PI / 2) / 2
  /\ isInFireArc shooter target = true.
Proof.
  intros shooter target.
  pose proof PI_RGT_0 as Hpi.
  assert (Hn : normalised (relativeBearing shooter target (angle (motion shooter))) (PI / 2)).
  { split; [lra |]. exists 0%Z.
    unfold relativeBearing, atan2; simpl.
    replace (100 - 100) with 0 by ring.
    rewrite (ltb_false 0 0) by lra.
    rewrite ltb_true by lra. ring. }
  split; [reflexivity |]. split; [reflexivity |].
  split; [unfold shooter, getFireArc; simpl; intros H; lra |]. split; [exact Hn |].
  split.
  - rewrite Rabs_right by lra. lra.
  - unfold isInFireArc.
    fold (relativeBearing shooter target (angle (motion shooter))).
    rewrite (normalised_Rabs _ _ Hn). apply leb_true.
    rewrite Rabs_right by lra. unfold shooter, getFireArc; simpl. lra.
Qed.

End ArcFacts.

(** ** Melee *)

Module MeleeFacts.
Import JS JSFacts CombatSystem.

(** The provisional damage of a side: melee damage per tick, own damage
    bonus, random factor in [0, 2). *)
Definition meleeBase (u : Unit) (r : R) : R :=
  meleeDamage (stats u) * or_num (damageBonus (modifiers u)) 1 * (r * 2).

(** The momentum rule, for unit1 and for unit2. *)
Definition momentum1 (unit1 unit2 : Unit) : R :=
  if gtb (speed (motion unit1)) (speed (motion unit2) * (15 / 10)) then 15 / 10 else 1.

Definition momentum2 (unit1 unit2 : Unit) : R :=
  if gtb (speed (motion unit1)) (speed (motion unit2) * (15 / 10)) then 1
  else if gtb (speed (motion unit2)) (speed (motion unit1) * (15 / 10)) then 15 / 10
  else 1.

(** The scaling that every melee damage gets last: direction, momentum,
    exhaustion. *)
Definition sharedScaling1 (unit1 unit2 : Unit) : R :=
  calculateDirectionalMultiplier unit1 unit2 * momentum1 unit1 unit2
  * or_num (accuracyMultiplier (fatigue unit1)) 1.

Definition sharedScaling2 (unit1 unit2 : Unit) : R :=
  calculateDirectionalMultiplier unit2 unit1 * momentum2 unit1 unit2
  * or_num (accuracyMultiplier (fatigue unit2)) 1.

(** [meleeDamages] is the two charge blocks followed by the shared
    scaling. *)
Lemma meleeDamages_stages unit1 unit2 r1 r2 :
  meleeDamages unit1 unit2 r1 r2 =
  let '(c1, c2) := chargeBlock unit1 unit2 (meleeBase unit1 r1) (meleeBase unit2 r2) in
  let '(c2, c1) := chargeBlock unit2 unit1 c2 c1 in
  (c1 * sharedScaling1 unit1 unit2, c2 * sharedScaling2 unit1 unit2).
Proof.
  unfold meleeDamages, meleeBase, sharedScaling1, sharedScaling2, momentum1, momentum2.
  destruct (chargeBlock unit1 unit2 _ _) as [c1 c2].
  destruct (chargeBlock unit2 unit1 _ _) as [c2' c1'].
  destruct (gtb (speed (motion unit1)) _).
  - f_equal; ring.
  - destruct (gtb (speed (motion unit2)) _); f_equal; ring.
Qed.

Lemma chargeBlock_not_cavalry cav other dc di :
  type cav <> CAVALRY -> chargeBlock cav other dc di = (dc, di).
Proof.
  intros H. unfold chargeBlock. now rewrite bool_decide_eq_false_2.
Qed.

Lemma chargeBlock_square cav inf dc di :
  type cav = CAVALRY -> type inf = INFANTRY -> formation inf = Some SQUARE ->
  chargeBlock cav inf dc di = (0, di * 4).
Proof.
  intros Hc Hi Hs. unfold chargeBlock.
  rewrite !bool_decide_eq_true_2 by assumption. reflexivity.
Qed.

Lemma chargeBlock_open cav inf dc di :
  type cav = CAVALRY -> type inf = INFANTRY -> formation inf <> Some SQUARE ->
  chargeBlock cav inf dc di = (dc * calculateCavalryChargeBonus cav inf * 5, di).
Proof.
  intros Hc Hi Hs. unfold chargeBlock.
  rewrite !bool_decide_eq_true_2 by assumption.
  now rewrite bool_decide_eq_false_2.
Qed.

(** A spent charge: below the charge speed the bonus is 1. *)
Lemma chargeBonus_spent cav target :
  speed (motion cav) < num (chargeSpeed (charge cav)) ->
  calculateCavalryChargeBonus cav target = 1.
Proof.
  intros H. unfold calculateCavalryChargeBonus.
  destruct (negb _); [reflexivity |]. now rewrite ltb_true.
Qed.

(** A full charge against infantry out of square: the configured
    multiplier. *)
Lemma chargeBonus_full cav inf :
  type cav = CAVALRY -> type inf = INFANTRY -> formation inf <> Some SQUARE ->
  num (chargeSpeed (charge cav)) <= speed (motion cav) ->
  calculateCavalryChargeBonus cav inf = num (chargeDamageMultiplier (charge cav)).
Proof.
  intros Hc Hi Hs H. unfold calculateCavalryChargeBonus.
  rewrite !bool_decide_eq_true_2 by assumption. simpl.
  rewrite ltb_false by exact H. now rewrite bool_decide_eq_false_2.
Qed.

Lemma takeDamage_stats amount u :
  stats (takeDamage amount u)
  = set_entityCount
      (if ltb (entityCount (stats u) - amount) 0 then 0
       else entityCount (stats u) - amount) (stats u).
Proof. reflexivity. Qed.

Lemma takeDamageAndMaybeFlee_stats amount u rnd k :
  stats (fst (takeDamageAndMaybeFlee amount u rnd k)) = stats (takeDamage amount u).
Proof.
  unfold takeDamageAndMaybeFlee.
  destruct (_ && _ && _); reflexivity.
Qed.

Lemma takeDamageAndMaybeFlee_fatigue amount u rnd k :
  fatigue (fst (takeDamageAndMaybeFlee amount u rnd k)) = fatigue u.
Proof.
  unfold takeDamageAndMaybeFlee.
  destruct (_ && _ && _); reflexivity.
Qed.

Lemma applyPushBack_stats unit1 unit2 :
  stats (fst (applyPushBack unit1 unit2)) = stats unit1
  /\ stats (snd (applyPushBack unit1 unit2)) = stats unit2.
Proof.
  unfold applyPushBack. destruct (eqb _ 0); [now split |].
  destruct (gtb _ 0); now split.
Qed.

Lemma applyPushBack_fatigue unit1 unit2 :
  fatigue (fst (applyPushBack unit1 unit2)) = fatigue unit1
  /\ fatigue (snd (applyPushBack unit1 unit2)) = fatigue unit2.
Proof.
  unfold applyPushBack. destruct (eqb _ 0); [now split |].
  destruct (gtb _ 0); now split.
Qed.

Lemma meleeTimers_stats dt audio unit1 unit2 :
  stats (fst (meleeTimers dt audio unit1 unit2)) = stats unit1
  /\ stats (snd (meleeTimers dt audio unit1 unit2)) = stats unit2.
Proof.
  unfold meleeTimers. destruct audio; [| now split].
  destruct (gtb _ _); now split.
Qed.

Lemma meleeTimers_fatigue dt audio unit1 unit2 :
  fatigue (fst (meleeTimers dt audio unit1 unit2)) = fatigue unit1
  /\ fatigue (snd (meleeTimers dt audio unit1 unit2)) = fatigue unit2.
Proof.
  unfold meleeTimers. destruct audio; [| now split].
  destruct (gtb _ _); now split.
Qed.

(** What [resolveMeleeCombat] leaves in the stats and in the fatigue of
    the two units: each takes the other's damage, computed from the first
    two draws, and the inline exhaustion increment; the performance
    multipliers are not touched. *)
Lemma resolveMeleeCombat_result unit1 unit2 dt visualEffects audio rnd k :
  let out := fst (resolveMeleeCombat unit1 unit2 dt visualEffects audio rnd k) in
  let d := meleeDamages unit1 unit2 (rnd k) (rnd (S k)) in
  stats (fst out) = stats (takeDamage (snd d) unit1)
  /\ stats (snd out) = stats (takeDamage (fst d) unit2)
  /\ fatigue (fst out) = fatigue (meleeExhaustion unit1)
  /\ fatigue (snd out) = fatigue (meleeExhaustion unit2).
Proof.
  unfold resolveMeleeCombat, mbind, rng_bind, Rng.bind, Rng.random, mret, rng_ret, Rng.ret.
  cbn zeta.
  destruct (chargeEffects unit1 unit2 visualEffects audio rnd (S (S k))) as [[] k1].
  destruct (chargeEffects unit2 unit1 visualEffects audio rnd k1) as [[] k2].
  destruct (meleeDamages unit1 unit2 (rnd k) (rnd (S k))) as [damage1 damage2] eqn:Hd.
  pose proof (takeDamageAndMaybeFlee_stats damage2 unit1 rnd k2) as Hs1.
  pose proof (takeDamageAndMaybeFlee_fatigue damage2 unit1 rnd k2) as Hf1.
  destruct (takeDamageAndMaybeFlee damage2 unit1 rnd k2) as [u1 k3].
  pose proof (takeDamageAndMaybeFlee_stats damage1 unit2 rnd k3) as Hs2.
  pose proof (takeDamageAndMaybeFlee_fatigue damage1 unit2 rnd k3) as Hf2.
  destruct (takeDamageAndMaybeFlee damage1 unit2 rnd k3) as [u2 k4].
  simpl in Hs1, Hs2, Hf1, Hf2.
  pose proof (applyPushBack_stats (meleeExhaustion u1) (meleeExhaustion u2)) as [Hp1 Hp2].
  pose proof (applyPushBack_fatigue (meleeExhaustion u1) (meleeExhaustion u2)) as [Hq1 Hq2].
  destruct (applyPushBack (meleeExhaustion u1) (meleeExhaustion u2)) as [p1 p2].
  simpl in Hp1, Hp2, Hq1, Hq2.
  pose proof (meleeTimers_stats dt audio p1 p2) as [Ht1 Ht2].
  pose proof (meleeTimers_fatigue dt audio p1 p2) as [Hu1 Hu2].
  simpl.
  rewrite Ht1, Ht2, Hu1, Hu2, Hp1, Hp2, Hq1, Hq2.
  unfold meleeExhaustion, on_fatigue; simpl.
  rewrite Hs1, Hs2, Hf1, Hf2. auto.
Qed.

Lemma takeDamage_count amount u :
  entityCount (stats (takeDamage amount u))
  = Rmax 0 (entityCount (stats u) - amount).
Proof.
  rewrite takeDamage_stats. cbn [entityCount set_entityCount]. unfold ltb.
  destruct (Rlt_dec (entityCount (stats u) - amount) 0).
  - now rewrite Rmax_left by lra.
  - now rewrite Rmax_right by lra.
Qed.

Lemma takeDamage_zero u : 0 <= entityCount (stats u) -> takeDamage 0 u = u.
Proof.
  intros He. unfold takeDamage, on_stats.
  replace (entityCount (stats u) - 0) with (entityCount (stats u)) by ring.
  rewrite ltb_false by exact He.
  destruct u as [? ? ? ? []]; reflexivity.
Qed.

(** C4.  Cavalry against infantry in SQUARE, in either order of the two
    units and at any speed of the cavalry, so in particular at or above
    its charge speed.
    The damage pair: the cavalry's damage is exactly 0 and the infantry's
    provisional damage is multiplied by 4, then scaled by direction,
    momentum and exhaustion as every melee damage is.
    The resolution applies that pair: the infantry comes out as after a
    hit of 0, that is with its stats as they were (for a count that is
    not negative), and the cavalry comes out with its entity count
    lowered by the infantry's damage, 4 x provisional damage x scaling,
    and not below 0.
    At or above the charge speed the charge bonus that the code computes
    against the square is 1 / cavalryDefense; the damage it scales is then
    replaced by 0. *)
Theorem cavalry_against_square (cav inf : Unit) (r1 r2 : R) :
  type cav = CAVALRY -> type inf = INFANTRY -> formation inf = Some SQUARE ->
  meleeDamages cav inf r1 r2 = (0, meleeBase inf r2 * 4 * sharedScaling2 cav inf)
  /\ meleeDamages inf cav r1 r2 = (meleeBase inf r1 * 4 * sharedScaling1 inf cav, 0)
  /\ (forall dt visualEffects audio rnd k,
        stats (snd (fst (resolveMeleeCombat cav inf dt visualEffects audio rnd k)))
        = stats (takeDamage 0 inf)
        /\ stats (fst (fst (resolveMeleeCombat inf cav dt visualEffects audio rnd k)))
           = stats (takeDamage 0 inf))
  /\ (0 <= entityCount (stats inf) -> takeDamage 0 inf = inf)
  /\ (forall dt visualEffects audio rnd k,
        let counter1 := meleeBase inf (rnd (S k)) * 4 * sharedScaling2 cav inf in
        let counter2 := meleeBase inf (rnd k) * 4 * sharedScaling1 inf cav in
        let cav1 := fst (fst (resolveMeleeCombat cav inf dt visualEffects audio rnd k)) in
        let cav2 := snd (fst (resolveMeleeCombat inf cav dt visualEffects audio rnd k)) in
        stats cav1 = stats (takeDamage counter1 cav)
        /\ entityCount (stats cav1) = Rmax 0 (entityCount (stats cav) - counter1)
        /\ stats cav2 = stats (takeDamage counter2 cav)
        /\ entityCount (stats cav2) = Rmax 0 (entityCount (stats cav) - counter2))
  /\ (num (chargeSpeed (charge cav)) <= speed (motion cav) ->
      calculateCavalryChargeBonus cav inf = 1 / cavalryDefense (modifiers inf)).
Proof.
  intros Hc Hi Hs.
  assert (Hn : type inf <> CAVALRY) by (rewrite Hi; discriminate).
  assert (H1 : forall r1 r2, meleeDamages cav inf r1 r2
               = (0, meleeBase inf r2 * 4 * sharedScaling2 cav inf)).
  { intros q1 q2. rewrite meleeDamages_stages.
    rewrite (chargeBlock_square cav inf) by assumption.
    rewrite (chargeBlock_not_cavalry inf cav) by assumption.
    f_equal; ring. }
  assert (H2 : forall r1 r2, meleeDamages inf cav r1 r2
               = (meleeBase inf r1 * 4 * sharedScaling1 inf cav, 0)).
  { intros q1 q2. rewrite meleeDamages_stages.
    rewrite (chargeBlock_not_cavalry inf cav) by assumption.
    rewrite (chargeBlock_square cav inf) by assumption.
    f_equal; ring. }
  split; [apply H1 |]. split; [apply H2 |]. split; [| split; [| split]].
  - intros dt v a rnd k.
    destruct (resolveMeleeCombat_result cav inf dt v a rnd k) as (_ & E1 & _).
    destruct (resolveMeleeCombat_result inf cav dt v a rnd k) as (E2 & _).
    cbv zeta in E1, E2. rewrite E1, E2, H1, H2. now split.
  - apply takeDamage_zero.
  - intros dt v a rnd k. cbv zeta.
    destruct (resolveMeleeCombat_result cav inf dt v a rnd k) as (E1 & _).
    destruct (resolveMeleeCombat_result inf cav dt v a rnd k) as (_ & E2 & _).
    cbv zeta in E1, E2. rewrite E1, E2, H1, H2. cbn [fst snd].
    rewrite !takeDamage_count. now repeat split.
  - intros Hv. unfold calculateCavalryChargeBonus.
    rewrite !bool_decide_eq_true_2 by assumption. cbn [negb].
    now rewrite ltb_false by exact Hv.
Qed.

(** Cavalry at (100, 100), facing the infantry and at speed 130 (threshold
    120), against a fresh infantry unit in square at (120, 100), both
    draws of the random factor being 1/2. *)
Definition chargingCavalry : Unit :=
  on_motion (set_speed 130) (newUnit 1 CAVALRY RED 100 100).
Definition squareInfantry : Unit :=
  setFormation (Some SQUARE) (newUnit 2 INFANTRY BLUE 120 100).

(** The infantry's provisional damage is 0.15 and its scaling 1: the
    square meets the cavalry head on, the cavalry has the momentum, and
    the infantry is not exhausted. *)
Lemma squareInfantry_scaling :
  meleeBase squareInfantry (1 / 2) = 15 / 100
  /\ sharedScaling2 chargingCavalry squareInfantry = 1.
Proof.
  pose proof PI_RGT_0 as Hpi.
  split.
  - unfold meleeBase; simpl. rewrite or_num_nonzero by lra.
    unfold CONFIG.INFANTRY.MELEE_DAMAGE. lra.
  - unfold sharedScaling2, momentum2.
    rewrite (ArcFacts.directional_multiplier_of_bearing _ _ PI); [| reflexivity |].
    + rewrite Rabs_right by lra.
      rewrite (ltb_false PI (PI / 3)) by lra.
      rewrite (ltb_false PI (2 * PI / 3)) by lra.
      simpl. unfold gtb. rewrite ltb_true by lra.
      rewrite or_num_nonzero by lra. lra.
    + split; [lra |]. exists 0%Z. unfold ArcFacts.relativeBearing; simpl.
      replace (100 - 100) with 0 by ring.
      unfold atan2. rewrite (ltb_false 0 (100 - 120)) by lra.
      rewrite (ltb_true (100 - 120) 0) by lra. rewrite leb_true by lra.
      replace (0 / (100 - 120)) with 0 by (field; lra).
      rewrite atan_0. ring.
Qed.

(** In that fight the cavalry deals 0 and takes 0.15 x 4 x 1 = 0.6: its
    count falls from 50 to 49.4, the infantry's stats are as before, and
    the charge bonus, 1/3 against the square, has no effect. *)
Lemma cavalry_against_square_witness :
  meleeDamages chargingCavalry squareInfantry (1 / 2) (1 / 2) = (0, 6 / 10)
  /\ entityCount
       (stats (fst (fst (resolveMeleeCombat chargingCavalry squareInfantry (1 / 60)
                           true true (fun _ => 1 / 2) 0%nat))))
     = 50 - 6 / 10
  /\ stats (snd (fst (resolveMeleeCombat chargingCavalry squareInfantry (1 / 60)
                        true true (fun _ => 1 / 2) 0%nat)))
     = stats squareInfantry
  /\ calculateCavalryChargeBonus chargingCavalry squareInfantry = 1 / 3.
Proof.
  destruct squareInfantry_scaling as [Hb Hs].
  destruct (cavalry_against_square chargingCavalry squareInfantry (1 / 2) (1 / 2)
              eq_refl eq_refl eq_refl) as (H1 & _ & H3 & H4 & H5 & H6).
  split; [| split; [| split]].
  - rewrite H1, Hb, Hs. f_equal. lra.
  - destruct (H5 (1 / 60) true true (fun _ => 1 / 2) 0%nat) as (_ & E & _).
    cbv zeta in E. rewrite E, Hb, Hs. simpl.
    unfold CONFIG.CAVALRY.ENTITY_COUNT. rewrite Rmax_right by lra. lra.
  - destruct (H3 (1 / 60) true true (fun _ => 1 / 2) 0%nat) as (E & _).
    rewrite E, H4; [reflexivity |].
    simpl. unfold CONFIG.INFANTRY.ENTITY_COUNT. lra.
  - rewrite H6.
    + simpl. unfold CONFIG.FORMATION.SQUARE.CAVALRY_DEFENSE. reflexivity.
    + simpl. unfold CONFIG.CAVALRY.CHARGE_SPEED. lra.
Defined.

(** C1, as the code has it.  Cavalry below its charge speed against
    infantry that is not in SQUARE: the configured charge bonus is
    replaced by 1, and the decisive factor 5 is applied all the same.  The
    cavalry's damage is its provisional damage times 1 times 5, then the
    shared scaling, in either order of the two units. *)
Theorem spent_charge_keeps_decisive_factor (cav inf : Unit) (r1 r2 : R) :
  type cav = CAVALRY -> type inf = INFANTRY -> formation inf <> Some SQUARE ->
  speed (motion cav) < num (chargeSpeed (charge cav)) ->
  calculateCavalryChargeBonus cav inf = 1
  /\ fst (meleeDamages cav inf r1 r2)
     = meleeBase cav r1 * 1 * 5 * sharedScaling1 cav inf
  /\ snd (meleeDamages inf cav r1 r2)
     = meleeBase cav r2 * 1 * 5 * sharedScaling2 inf cav.
Proof.
  intros Hc Hi Hs Hv.
  assert (Hn : type inf <> CAVALRY) by (rewrite Hi; discriminate).
  pose proof (chargeBonus_spent cav inf Hv) as Hb.
  split; [exact Hb |]. split.
  - rewrite meleeDamages_stages.
    rewrite (chargeBlock_open cav inf) by assumption.
    rewrite (chargeBlock_not_cavalry inf cav) by assumption.
    rewrite Hb. reflexivity.
  - rewrite meleeDamages_stages.
    rewrite (chargeBlock_not_cavalry inf cav) by assumption.
    rewrite (chargeBlock_open cav inf) by assumption.
    rewrite Hb. reflexivity.
Qed.

(** A halted cavalry unit behind a line of infantry. *)
Definition haltedCavalry : Unit := newUnit 1 CAVALRY RED 100 100.
Definition lineInfantry : Unit :=
  setFormation (Some LINE) (newUnit 2 INFANTRY BLUE 120 100).

Lemma spent_charge_keeps_decisive_factor_witness :
  fst (meleeDamages haltedCavalry lineInfantry (1 / 2) (1 / 2))
  = meleeBase haltedCavalry (1 / 2) * 1 * 5 * sharedScaling1 haltedCavalry lineInfantry.
Proof.
  refine (proj1 (proj2
    (spent_charge_keeps_decisive_factor haltedCavalry lineInfantry (1 / 2) (1 / 2)
       eq_refl eq_refl _ _))).
  - discriminate.
  - simpl. unfold CONFIG.CAVALRY.CHARGE_SPEED. lra.
Defined.

Lemma haltedCavalry_scaling :
  meleeBase haltedCavalry (1 / 2) = 1 / 4
  /\ sharedScaling1 haltedCavalry lineInfantry = 3.
Proof.
  pose proof PI_RGT_0 as Hpi.
  split.
  - unfold meleeBase; simpl. rewrite or_num_nonzero by lra.
    unfold CONFIG.CAVALRY.MELEE_DAMAGE. lra.
  - unfold sharedScaling1, momentum1.
    rewrite (ArcFacts.directional_multiplier_of_bearing _ _ 0); [| reflexivity |].
    + rewrite Rabs_R0, ltb_true by lra. simpl.
      unfold gtb. rewrite ltb_false by lra. rewrite or_num_nonzero by lra. lra.
    + split; [lra |]. exists 0%Z. unfold ArcFacts.relativeBearing; simpl.
      replace (100 - 100) with 0 by ring.
      rewrite AngleFacts.atan2_0_pos by lra. ring.
Qed.

(** C1 as stated fails: a cavalry unit at speed 0, below its charge speed
    120, in melee with infantry in LINE deals 15/4 = 1/4 x 5 x 3, the
    decisive factor 5 included; with both factors replaced by 1 it would
    deal 3/4. *)
Lemma spent_charge_still_decisive :
  type haltedCavalry = CAVALRY /\ type lineInfantry = INFANTRY
  /\ formation lineInfantry <> Some SQUARE
  /\ speed (motion haltedCavalry) < num (chargeSpeed (charge haltedCavalry))
  /\ fst (meleeDamages haltedCavalry lineInfantry (1 / 2) (1 / 2)) = 15 / 4
  /\ meleeBase haltedCavalry (1 / 2) * 1 * 1 * sharedScaling1 haltedCavalry lineInfantry
     = 3 / 4.
Proof.
  destruct haltedCavalry_scaling as [Hb Hs].
  split; [reflexivity |]. split; [reflexivity |]. split; [discriminate |].
  split; [simpl; unfold CONFIG.CAVALRY.CHARGE_SPEED; lra |].
  split.
  - rewrite meleeDamages_stages.
    rewrite (chargeBlock_open haltedCavalry lineInfantry);
      [| reflexivity | reflexivity | discriminate].
    rewrite (chargeBlock_not_cavalry lineInfantry haltedCavalry) by discriminate.
    rewrite chargeBonus_spent
      by (simpl; unfold CONFIG.CAVALRY.CHARGE_SPEED; lra).
    simpl fst. rewrite Hb, Hs. lra.
  - rewrite Hb, Hs. lra.
Qed.

End MeleeFacts.

(** ** Exhaustion *)

Module ExhaustionFacts.
Import JS JSFacts.

(** The exhaustion scalar is within [0, MAX]. *)
Definition inRange (u : Unit) : Prop :=
  0 <= exhaustion (fatigue u) <= CONFIG.EXHAUSTION.MAX.

(** The multipliers are the linear functions of the exhaustion ratio. *)
Definition penaltiesApplied (u : Unit) : Prop :=
  let ratio := exhaustion (fatigue u) / 100 in
  speedMultiplier (fatigue u) = 1 - ratio * (5 / 10)
  /\ accuracyMultiplier (fatigue u) = 1 - ratio * (3 / 10)
  /\ reloadMultiplier (fatigue u) = 1 + ratio * (5 / 10).

(** What can happen to the exhaustion of a unit: the per-tick update
    (moving or idle, by the unit's speed), a volley fired or received, a
    melee tick, and any step of the rest of the engine, which leaves the
    exhaustion fields alone. *)
Inductive exhaustionStep : Unit -> Unit -> Prop :=
| step_tick u dt : 0 <= dt -> exhaustionStep u (ExhaustionSystem.update dt u)
| step_volley u : exhaustionStep u (ExhaustionSystem.addCombatExhaustion None u)
| step_melee u : exhaustionStep u (CombatSystem.meleeExhaustion u)
| step_elsewhere u u' : fatigue u' = fatigue u -> exhaustionStep u u'.

Lemma applyExhaustionPenalties_exhaustion u :
  exhaustion (fatigue (ExhaustionSystem.applyExhaustionPenalties u))
  = exhaustion (fatigue u).
Proof. reflexivity. Qed.

Lemma applyExhaustionPenalties_applied u :
  penaltiesApplied (ExhaustionSystem.applyExhaustionPenalties u).
Proof.
  unfold penaltiesApplied, ExhaustionSystem.applyExhaustionPenalties; simpl.
  unfold CONFIG.EXHAUSTION.MAX, CONFIG.EXHAUSTION.SPEED_PENALTY,
    CONFIG.EXHAUSTION.ACCURACY_PENALTY, CONFIG.EXHAUSTION.RELOAD_PENALTY.
  auto.
Qed.

Lemma update_inRange u dt : 0 <= dt -> inRange u -> inRange (ExhaustionSystem.update dt u).
Proof.
  unfold inRange, ExhaustionSystem.update. intros Hdt [H0 H1].
  rewrite applyExhaustionPenalties_exhaustion.
  unfold CONFIG.EXHAUSTION.MAX in *.
  destruct (gtb (speed (motion u)) 10); simpl.
  - assert (Hr : 0 <= (if bool_decide (formation u = Some COLUMN)
                       then CONFIG.EXHAUSTION.COLUMN_MOVEMENT_RATE
                       else CONFIG.EXHAUSTION.MOVEMENT_RATE) * dt).
    { apply Rmult_le_pos; [| exact Hdt].
      destruct (bool_decide _);
        unfold CONFIG.EXHAUSTION.COLUMN_MOVEMENT_RATE, CONFIG.EXHAUSTION.MOVEMENT_RATE; lra. }
    split; [apply Rmin_glb; lra | apply Rmin_l].
  - unfold CONFIG.EXHAUSTION.RECOVERY_RATE.
    split; [apply Rmax_l |]. apply Rmax_lub; nra.
Qed.

Lemma addCombatExhaustion_inRange u :
  inRange u -> inRange (ExhaustionSystem.addCombatExhaustion None u).
Proof.
  unfold inRange, ExhaustionSystem.addCombatExhaustion. intros [H0 H1].
  rewrite applyExhaustionPenalties_exhaustion. simpl.
  unfold CONFIG.EXHAUSTION.MAX, CONFIG.EXHAUSTION.COMBAT_RATE in *.
  split; [apply Rmin_glb; lra | apply Rmin_l].
Qed.

Lemma meleeExhaustion_inRange u :
  inRange u -> inRange (CombatSystem.meleeExhaustion u).
Proof.
  unfold inRange, CombatSystem.meleeExhaustion. intros [H0 H1]. simpl.
  unfold CONFIG.EXHAUSTION.MAX, CONFIG.EXHAUSTION.COMBAT_RATE in *.
  split; [apply Rmin_glb; lra | apply Rmin_l].
Qed.

(** Under every sequence of ticks of non-negative duration, volleys, melee
    ticks and steps elsewhere, the exhaustion stays within [0, 100]. *)
Lemma exhaustion_stays_in_range u u' :
  inRange u -> rtc exhaustionStep u u' -> inRange u'.
Proof.
  intros H Hsteps. induction Hsteps as [| a b c Hab _ IH]; [exact H |].
  apply IH. destruct Hab as [a dt Hdt | a | a | a b Hf].
  - now apply update_inRange.
  - now apply addCombatExhaustion_inRange.
  - now apply meleeExhaustion_inRange.
  - unfold inRange in *. now rewrite Hf.
Qed.

(** The per-tick update and a volley leave the multipliers as the linear
    functions of the ratio, and these are monotonic. *)
Lemma update_applied u dt : penaltiesApplied (ExhaustionSystem.update dt u).
Proof. apply applyExhaustionPenalties_applied. Qed.

Lemma addCombatExhaustion_applied u amount :
  penaltiesApplied (ExhaustionSystem.addCombatExhaustion amount u).
Proof. apply applyExhaustionPenalties_applied. Qed.

Lemma newUnit_consistent i ty tm px py :
  inRange (newUnit i ty tm px py) /\ penaltiesApplied (newUnit i ty tm px py).
Proof.
  unfold inRange, penaltiesApplied, CONFIG.EXHAUSTION.MAX; simpl.
  repeat split; lra.
Qed.

Lemma penalties_monotonic u v :
  penaltiesApplied u -> penaltiesApplied v ->
  exhaustion (fatigue u) <= exhaustion (fatigue v) ->
  speedMultiplier (fatigue v) <= speedMultiplier (fatigue u)
  /\ accuracyMultiplier (fatigue v) <= accuracyMultiplier (fatigue u)
  /\ reloadMultiplier (fatigue u) <= reloadMultiplier (fatigue v).
Proof.
  unfold penaltiesApplied. intros (-> & -> & ->) (-> & -> & ->) H. lra.
Qed.

(** C7 fails on a melee tick.  Two fresh units in melee: each comes out
    with exhaustion 5 and with the multipliers 1 that it had, where the
    linear functions of the ratio 5/100 give 0.975, 0.985 and 1.025.
    [resolveMeleeCombat] adds the combat exhaustion inline and does not
    recompute the penalties, as [ExhaustionSystem.addCombatExhaustion]
    does. *)
Theorem melee_tick_leaves_multipliers_stale (dt : R) (audio : bool) (rnd : nat -> R) (k : nat) :
  let cav := newUnit 1 CAVALRY RED 100 100 in
  let inf := newUnit 2 INFANTRY BLUE 120 100 in
  let out := fst (CombatSystem.resolveMeleeCombat cav inf dt true audio rnd k) in
  penaltiesApplied cav /\ penaltiesApplied inf
  /\ fatigue (fst out) = mkFatigue 5 1 1 1
  /\ fatigue (snd out) = mkFatigue 5 1 1 1
  /\ ~ penaltiesApplied (fst out) /\ ~ penaltiesApplied (snd out)
  /\ fatigue (ExhaustionSystem.addCombatExhaustion None cav)
     = mkFatigue 5 (1 - 5 / 100 * (5 / 10)) (1 - 5 / 100 * (3 / 10)) (1 + 5 / 100 * (5 / 10)).
Proof.
  intros cav inf out.
  destruct (MeleeFacts.resolveMeleeCombat_result cav inf dt true audio rnd k)
    as (_ & _ & H1 & H2).
  fold out in H1, H2. cbv zeta in H1, H2.
  assert (Hmin : Rmin CONFIG.EXHAUSTION.MAX (0 + CONFIG.EXHAUSTION.COMBAT_RATE) = 5).
  { unfold CONFIG.EXHAUSTION.MAX, CONFIG.EXHAUSTION.COMBAT_RATE.
    rewrite Rmin_right; lra. }
  assert (E1 : fatigue (fst out) = mkFatigue 5 1 1 1).
  { rewrite H1. unfold CombatSystem.meleeExhaustion; simpl. now rewrite Hmin. }
  assert (E2 : fatigue (snd out) = mkFatigue 5 1 1 1).
  { rewrite H2. unfold CombatSystem.meleeExhaustion; simpl. now rewrite Hmin. }
  split; [apply newUnit_consistent |]. split; [apply newUnit_consistent |].
  split; [exact E1 |]. split; [exact E2 |].
  split; [| split].
  - unfold penaltiesApplied. rewrite E1; simpl. lra.
  - unfold penaltiesApplied. rewrite E2; simpl. lra.
  - unfold ExhaustionSystem.addCombatExhaustion, ExhaustionSystem.applyExhaustionPenalties.
    simpl. rewrite Hmin.
    unfold CONFIG.EXHAUSTION.MAX, CONFIG.EXHAUSTION.SPEED_PENALTY,
      CONFIG.EXHAUSTION.ACCURACY_PENALTY, CONFIG.EXHAUSTION.RELOAD_PENALTY.
    reflexivity.
Qed.

End ExhaustionFacts.

(** ** Ranged fire *)

Module FireFacts.
Import JS JSFacts CombatSystem.

Lemma calculateCannonAccuracy_draws distance maxRange rnd k :
  snd (calculateCannonAccuracy distance maxRange rnd k) = S k.
Proof.
  unfold calculateCannonAccuracy.
  destruct (leb distance _); [reflexivity |].
  destruct (leb distance _); reflexivity.
Qed.

(** With an audio manager, a cannon's fire deals no instant damage: the
    result is hit = false, damage = 0 and a projectile along the bearing
    of the target plus a jitter (r - 0.5) x 2 x 0.15 x (1 - final
    accuracy); shooter and target are left as they were. *)
Lemma cannon_fire_spawns_projectile shooter target visualEffects rnd k :
  type shooter = CANNON ->
  let dx := x (motion target) - x (motion shooter) in
  let dy := y (motion target) - y (motion shooter) in
  let distance := sqrt (dx * dx + dy * dy) in
  let range := num (fireRange (musket shooter)) in
  let acc :=
    finalAccuracy shooter distance
      (fst (calculateCannonAccuracy distance range rnd k)) in
  let jitter := (rnd (S (S k)) - 5 / 10) * 2 * (15 / 100) * (1 - acc) in
  resolveMusketFire shooter target visualEffects true rnd k
  = (mkFireResult false 0 1 None
       (Some (newProjectile (x (motion shooter)) (y (motion shooter))
                (atan2 dy dx + jitter) 300 (baseDamage (stats shooter))
                (team shooter) (range * (15 / 10)))),
     shooter, target, S (S (S k))).
Proof.
  intros Hc. cbv zeta. unfold resolveMusketFire.
  rewrite Hc.
  rewrite (bool_decide_eq_false_2 (CANNON = INFANTRY)) by discriminate.
  rewrite !(bool_decide_eq_true_2 (CANNON = CANNON)) by reflexivity.
  cbn [negb andb].
  unfold mbind, rng_bind, Rng.bind, Rng.random, mret, rng_ret, Rng.ret.
  match goal with
  | |- context [calculateCannonAccuracy ?d ?m rnd k] =>
      pose proof (calculateCannonAccuracy_draws d m rnd k) as Hk;
      destruct (calculateCannonAccuracy d m rnd k) as [base k1]
  end.
  cbn [fst snd] in *. subst k1. reflexivity.
Qed.

(** A cannon at (100, 100) and infantry in square 50 pixels ahead. *)
Definition gun : Unit := newUnit 1 CANNON RED 100 100.
Definition squareAhead : Unit :=
  setFormation (Some SQUARE) (newUnit 2 INFANTRY BLUE 150 100).

(** C2 fails without an audio manager (the default [audioManager = null]
    of [resolveMusketFire]).  The cannon [gun] fires at [squareAhead],
    point blank (50 of a range of 700, accuracy 0.95), every draw being
    1/2: the shot is an instant hit of damage 60, no projectile is
    spawned, and the target's entity count falls from 100 to 40 at once.
    The projectile is built inside [if (audioManager)]. *)
Theorem cannon_without_audio_hits_instantly :
  let out := fst (resolveMusketFire gun squareAhead true false (fun _ => 1 / 2) 0%nat) in
  type gun = CANNON
  /\ hit (fst (fst out)) = true
  /\ damage (fst (fst out)) = 60
  /\ projectile (fst (fst out)) = None
  /\ entityCount (stats squareAhead) = 100
  /\ entityCount (stats (snd out)) = 40.
Proof.
  assert (Hd : sqrt ((150 - 100) * (150 - 100) + (100 - 100) * (100 - 100)) = 50).
  { apply sqrt_lem_1; lra. }
  assert (Hout : fst (resolveMusketFire gun squareAhead true false (fun _ => 1 / 2) 0%nat)
                 = (mkFireResult true (60 * 1 * 1) 1 (Some (95 / 100)) None,
                    ExhaustionSystem.addCombatExhaustion None gun,
                    ExhaustionSystem.addCombatExhaustion None
                      (takeDamage (60 * 1 * 1) squareAhead))).
  { unfold resolveMusketFire, gun, squareAhead.
    unfold mbind, rng_bind, Rng.bind, Rng.random, mret, rng_ret, Rng.ret.
    simpl. rewrite Hd.
    unfold calculateCannonAccuracy.
    unfold mbind, rng_bind, Rng.bind, Rng.random, mret, rng_ret, Rng.ret.
    unfold CONFIG.CANNON_ACCURACY.CLOSE_RANGE.
    rewrite (leb_true 50 100) by lra.
    unfold finalAccuracy; simpl.
    unfold CONFIG.CANNON.FIRE_RANGE.
    rewrite (ltb_true (50 / 700)) by lra.
    rewrite (ltb_true (1 / 2)) by lra. simpl.
    unfold calculateDirectionalMultiplier; simpl.
    rewrite or_num_nonzero by lra.
    unfold CONFIG.CANNON.BASE_DAMAGE, CONFIG.DAMAGE.FRONT_MULTIPLIER.
    reflexivity. }
  cbv zeta. rewrite Hout. simpl.
  unfold CONFIG.INFANTRY.ENTITY_COUNT.
  rewrite ltb_false by lra.
  repeat split; lra.
Qed.

End FireFacts.

(** ** Line of sight *)

Module LOSFacts.
Import JS JSFacts LOSSystem.

(** The circle of centre (cx, cy) and radius r meets the segment from
    (x1, y1) to (x2, y2): some point of the segment is within r of the
    centre. *)
Definition segmentMeetsCircle (cx cy r x1 y1 x2 y2 : R) : Prop :=
  exists t : R,
    0 <= t <= 1
    /\ (x1 + t * (x2 - x1) - cx) * (x1 + t * (x2 - x1) - cx)
       + (y1 + t * (y2 - y1) - cy) * (y1 + t * (y2 - y1) - cy) <= r * r.

Lemma sqrt_le_iff a r : 0 <= a -> 0 <= r -> (sqrt a <= r <-> a <= r * r).
Proof.
  intros Ha Hr. split; intros H.
  - pose proof (sqrt_pos a) as Hs. pose proof (sqrt_sqrt a Ha) as Hq. nra.
  - rewrite <- (sqrt_square r Hr). now apply sqrt_le_1_alt.
Qed.

Lemma length_pos lx ly : lx <> 0 \/ ly <> 0 -> 0 < sqrt (lx * lx + ly * ly).
Proof.
  intros H. apply sqrt_lt_R0. destruct H as [H | H]; nra.
Qed.

Lemma circleLineIntersection_degenerate cx cy r x1 y1 :
  circleLineIntersection cx cy r x1 y1 x1 y1 = false.
Proof.
  unfold circleLineIntersection.
  replace ((x1 - x1) * (x1 - x1) + (y1 - y1) * (y1 - y1)) with 0 by ring.
  rewrite sqrt_0. now rewrite eqb_true.
Qed.

(** Clamping to [0, l] gives the point of [0, l] closest to [q]. *)
Lemma clamp_closest l q tau :
  0 < l -> 0 <= tau <= l ->
  (Rmax 0 (Rmin l q) - q) * (Rmax 0 (Rmin l q) - q) <= (tau - q) * (tau - q).
Proof.
  intros Hl Htau.
  destruct (Rle_dec q 0) as [Hq0 | Hq0].
  - rewrite (Rmin_right l q) by lra. rewrite Rmax_left by lra. nra.
  - destruct (Rle_dec q l) as [Hql | Hql].
    + rewrite (Rmin_right l q) by lra. rewrite Rmax_right by lra.
      replace ((q - q) * (q - q)) with 0 by ring.
      apply Rle_0_sqr.
    + rewrite (Rmin_left l q) by lra. rewrite Rmax_right by lra. nra.
Qed.

Lemma sum_sq_bound a b r :
  0 <= r -> a * a + b * b <= r * r -> (- r <= a <= r) /\ (- r <= b <= r).
Proof.
  intros Hr H.
  pose proof (Rle_0_sqr a) as Ha. pose proof (Rle_0_sqr b) as Hb.
  unfold Rsqr in Ha, Hb.
  repeat split; nra.
Qed.

Lemma between_endpoints x1 x2 s :
  0 <= s <= 1 -> Rmin x1 x2 <= x1 + s * (x2 - x1) <= Rmax x1 x2.
Proof.
  intros Hs. unfold Rmin, Rmax. destruct (Rle_dec x1 x2); split; nra.
Qed.

Section Projection.

Variables (cx cy x1 y1 x2 y2 : R).
Hypothesis distinct : x2 - x1 <> 0 \/ y2 - y1 <> 0.

Let lx := x2 - x1.
Let ly := y2 - y1.
Let len := sqrt (lx * lx + ly * ly).
Let nx := lx / len.
Let ny := ly / len.
Let q := (cx - x1) * nx + (cy - y1) * ny.
Let t := Rmax 0 (Rmin len q).

(** The squared distance from the centre to the point at [tau] along the
    ray. *)
Let dist2 (tau : R) : R :=
  (cx - (x1 + nx * tau)) * (cx - (x1 + nx * tau))
  + (cy - (y1 + ny * tau)) * (cy - (y1 + ny * tau)).

Lemma len_pos : 0 < len.
Proof. apply length_pos, distinct. Qed.

Lemma len_sqr : len * len = lx * lx + ly * ly.
Proof. apply sqrt_sqrt. nra. Qed.

Lemma unit_direction : nx * nx + ny * ny = 1.
Proof.
  pose proof len_pos as Hl. pose proof len_sqr as Hq.
  unfold nx, ny. field_simplify_eq; [| lra]. lra.
Qed.

Lemma direction_x : nx * len = lx.
Proof. pose proof len_pos. unfold nx. field. lra. Qed.

Lemma direction_y : ny * len = ly.
Proof. pose proof len_pos. unfold ny. field. lra. Qed.

Lemma clamp_range : 0 <= t <= len.
Proof.
  pose proof len_pos as Hl. unfold t. split; [apply Rmax_l |].
  apply Rmax_lub; [lra | apply Rmin_l].
Qed.

Lemma dist2_expand tau :
  dist2 tau
  = (cx - x1) * (cx - x1) + (cy - y1) * (cy - y1) - q * q + (tau - q) * (tau - q).
Proof.
  pose proof unit_direction as Hn. unfold dist2, q.
  assert (E : forall a b,
             (a - nx * tau) * (a - nx * tau) + (b - ny * tau) * (b - ny * tau)
             = a * a + b * b - 2 * tau * (a * nx + b * ny)
               + tau * tau * (nx * nx + ny * ny)) by (intros; ring).
  replace (cx - (x1 + nx * tau)) with (cx - x1 - nx * tau) by ring.
  replace (cy - (y1 + ny * tau)) with (cy - y1 - ny * tau) by ring.
  rewrite E, Hn. ring.
Qed.

(** The clamped projection is the point of the segment nearest to the
    centre. *)
Lemma clamp_nearest tau : 0 <= tau <= len -> dist2 t <= dist2 tau.
Proof.
  intros Htau. rewrite !dist2_expand.
  pose proof len_pos as Hl.
  pose proof (clamp_closest len q tau Hl Htau) as Hc. fold t in Hc.
  lra.
Qed.

Lemma circleLineIntersection_dist2 r :
  circleLineIntersection cx cy r x1 y1 x2 y2 = leb (sqrt (dist2 t)) r.
Proof.
  pose proof len_pos as Hl.
  unfold circleLineIntersection.
  fold lx ly. fold len.
  rewrite eqb_false by lra.
  reflexivity.
Qed.

(** [circleLineIntersection] decides whether the circle meets the
    segment. *)
Lemma circleLineIntersection_spec r :
  0 <= r ->
  circleLineIntersection cx cy r x1 y1 x2 y2 = true
  <-> segmentMeetsCircle cx cy r x1 y1 x2 y2.
Proof.
  intros Hr.
  pose proof len_pos as Hl. pose proof clamp_range as Ht.
  pose proof direction_x as Hx. pose proof direction_y as Hy.
  rewrite circleLineIntersection_dist2, leb_spec.
  assert (Hpos : forall tau, 0 <= dist2 tau)
    by (intros; unfold dist2; apply Rplus_le_le_0_compat; apply Rle_0_sqr).
  rewrite (sqrt_le_iff _ _ (Hpos t) Hr).
  assert (Hpoint : forall s,
             (x1 + s * (x2 - x1) - cx) * (x1 + s * (x2 - x1) - cx)
             + (y1 + s * (y2 - y1) - cy) * (y1 + s * (y2 - y1) - cy)
             = dist2 (s * len)).
  { intros s. unfold dist2. fold lx ly.
    replace (nx * (s * len)) with (s * lx) by (rewrite <- Hx; ring).
    replace (ny * (s * len)) with (s * ly) by (rewrite <- Hy; ring).
    ring. }
  split.
  - intros H. exists (t / len). split.
    + split.
      * apply Rmult_le_pos; [lra |]. apply Rlt_le, Rinv_0_lt_compat, Hl.
      * apply (Rmult_le_reg_r len); [exact Hl |].
        replace (t / len * len) with t by (field; lra). lra.
    + rewrite Hpoint. replace (t / len * len) with t by (field; lra). exact H.
  - intros (s & Hs & H). rewrite Hpoint in H.
    apply Rle_trans with (dist2 (s * len)); [| exact H].
    apply clamp_nearest. split; nra.
Qed.

(** A circle that the code finds on the ray has its centre within its
    radius of the ray's bounding box. *)
Lemma intersection_in_box r :
  0 <= r ->
  circleLineIntersection cx cy r x1 y1 x2 y2 = true ->
  Rmin x1 x2 - r <= cx <= Rmax x1 x2 + r
  /\ Rmin y1 y2 - r <= cy <= Rmax y1 y2 + r.
Proof.
  intros Hr.
  pose proof len_pos as Hl. pose proof clamp_range as Ht.
  pose proof direction_x as Hx. pose proof direction_y as Hy.
  rewrite circleLineIntersection_dist2, leb_spec.
  assert (Hpos : 0 <= dist2 t)
    by (unfold dist2; apply Rplus_le_le_0_compat; apply Rle_0_sqr).
  rewrite (sqrt_le_iff _ _ Hpos Hr). unfold dist2. intros H.
  set (s := t / len).
  assert (Hs : 0 <= s <= 1).
  { unfold s. split.
    - apply Rmult_le_pos; [lra |]. apply Rlt_le, Rinv_0_lt_compat, Hl.
    - apply (Rmult_le_reg_r len); [exact Hl |].
      replace (t / len * len) with t by (field; lra). lra. }
  assert (Ex : nx * t = s * (x2 - x1)).
  { unfold s. fold lx. rewrite <- Hx. field. lra. }
  assert (Ey : ny * t = s * (y2 - y1)).
  { unfold s. fold ly. rewrite <- Hy. field. lra. }
  rewrite Ex, Ey in H.
  destruct (sum_sq_bound _ _ _ Hr H) as [Hax Hay].
  pose proof (between_endpoints x1 x2 s Hs) as Hbx.
  pose proof (between_endpoints y1 y2 s Hs) as Hby.
  lra.
Qed.

End Projection.

(** [u] stands in the line of fire from [shooter] to [target]: a living
    unit of the shooter's team, other than the shooter and the target,
    whose collision circle meets the segment between them. *)
Definition obstacle (shooter target u : Unit) : Prop :=
  team u = team shooter
  /\ id u <> id shooter /\ id u <> id target
  /\ isDead u = false
  /\ segmentMeetsCircle (x (motion u)) (y (motion u)) (collisionRadius (stats u))
       (x (motion shooter)) (y (motion shooter))
       (x (motion target)) (y (motion target)).

Lemma friendlyCandidate_spec x1 y1 x2 y2 fromUnit toUnit u :
  friendlyCandidate x1 y1 x2 y2 fromUnit toUnit u = true
  <-> (team u = team fromUnit
       /\ id u <> id fromUnit /\ id u <> id toUnit
       /\ isDead u = false)
      /\ (Rmin x1 x2 - 12 <= x (motion u) <= Rmax x1 x2 + 12
          /\ Rmin y1 y2 - 12 <= y (motion u) <= Rmax y1 y2 + 12).
Proof.
  unfold friendlyCandidate, geb, CONFIG.INFANTRY.COLLISION_RADIUS.
  rewrite !andb_true_iff, !negb_true_iff, !leb_spec,
    bool_decide_eq_true, !bool_decide_eq_false.
  tauto.
Qed.

Lemma checkLOS_no_terrain fromUnit toUnit allUnits :
  checkLOS fromUnit toUnit allUnits None
  = match checkFriendlyBlock (x (motion fromUnit)) (y (motion fromUnit))
            (x (motion toUnit)) (y (motion toUnit)) fromUnit toUnit allUnits with
    | Some b => mkLOSResult false (Some friendly) (Some b)
    | None => mkLOSResult true None None
    end.
Proof. reflexivity. Qed.

Lemma checkFriendlyBlock_Some x1 y1 x2 y2 fromUnit toUnit allUnits b :
  checkFriendlyBlock x1 y1 x2 y2 fromUnit toUnit allUnits = Some b ->
  In b allUnits
  /\ friendlyCandidate x1 y1 x2 y2 fromUnit toUnit b = true
  /\ circleLineIntersection (x (motion b)) (y (motion b))
       (collisionRadius (stats b)) x1 y1 x2 y2 = true.
Proof.
  unfold checkFriendlyBlock. intros H.
  apply find_some in H as [Hin Hhit].
  apply filter_In in Hin as [Hin Hc]. auto.
Qed.

Lemma checkFriendlyBlock_None x1 y1 x2 y2 fromUnit toUnit allUnits u :
  checkFriendlyBlock x1 y1 x2 y2 fromUnit toUnit allUnits = None ->
  In u allUnits ->
  friendlyCandidate x1 y1 x2 y2 fromUnit toUnit u = true ->
  circleLineIntersection (x (motion u)) (y (motion u))
    (collisionRadius (stats u)) x1 y1 x2 y2 = false.
Proof.
  unfold checkFriendlyBlock. intros H Hin Hc.
  apply (find_none _ _ H). apply filter_In. auto.
Qed.

(** The centre of [u] is inside the box that the pre-filter of
    [checkFriendlyBlock] keeps: the bounding box of the ray widened by the
    infantry radius, 12, whatever the radius of [u]. *)
Definition inPrefilterBox (shooter target u : Unit) : Prop :=
  Rmin (x (motion shooter)) (x (motion target)) - 12 <= x (motion u)
    <= Rmax (x (motion shooter)) (x (motion target)) + 12
  /\ Rmin (y (motion shooter)) (y (motion target)) - 12 <= y (motion u)
       <= Rmax (y (motion shooter)) (y (motion target)) + 12.

(** What [checkLOS] reports with no terrain, for units of the shooter's
    side whose radius is not negative:
    - when shooter and target are at different positions, line of sight
      is false exactly when some living unit of the shooter's team, other
      than the shooter and the target, has its collision circle meeting
      the shooter-to-target segment and its centre in the pre-filter
      box;
    - a unit of radius at most 12 whose circle meets the segment is in
      that box, so it always blocks;
    - when shooter and target are at the same position line of sight is
      true;
    - a false report has blockedBy = 'friendly' and returns a blocking
      unit of the list, a true report has neither. *)
Lemma checkLOS_blocked_iff (shooter target : Unit) (allUnits : list Unit) :
  (forall u, In u allUnits -> team u = team shooter ->
             0 <= collisionRadius (stats u)) ->
  let res := checkLOS shooter target allUnits None in
  (x (motion target) - x (motion shooter) <> 0
   \/ y (motion target) - y (motion shooter) <> 0 ->
   (hasLOS res = false
    <-> exists u, In u allUnits /\ obstacle shooter target u
                  /\ inPrefilterBox shooter target u)
   /\ (forall u, In u allUnits -> obstacle shooter target u ->
                 collisionRadius (stats u) <= 12 -> hasLOS res = false))
  /\ (x (motion target) = x (motion shooter) ->
      y (motion target) = y (motion shooter) -> hasLOS res = true)
  /\ (hasLOS res = false ->
      blockedBy res = Some friendly
      /\ exists b, blockingUnit res = Some b /\ In b allUnits
                   /\ obstacle shooter target b)
  /\ (hasLOS res = true -> blockedBy res = None /\ blockingUnit res = None).
Proof.
  intros Hrad res. unfold res. rewrite checkLOS_no_terrain.
  unfold inPrefilterBox.
  set (x1 := x (motion shooter)). set (y1 := y (motion shooter)).
  set (x2 := x (motion target)). set (y2 := y (motion target)).
  assert (Hsome : forall b,
             checkFriendlyBlock x1 y1 x2 y2 shooter target allUnits = Some b ->
             In b allUnits /\ obstacle shooter target b
             /\ (Rmin x1 x2 - 12 <= x (motion b) <= Rmax x1 x2 + 12
                 /\ Rmin y1 y2 - 12 <= y (motion b) <= Rmax y1 y2 + 12)).
  { intros b Hb.
    apply checkFriendlyBlock_Some in Hb as (Hin & Hc & Hhit).
    apply friendlyCandidate_spec in Hc as [(Ht & Hi1 & Hi2 & Hd) Hbox].
    split; [exact Hin |]. split; [| exact Hbox].
    assert (Hdist : x2 - x1 <> 0 \/ y2 - y1 <> 0).
    { destruct (Req_dec_T (x2 - x1) 0) as [Ex | Ex]; [| now left].
      destruct (Req_dec_T (y2 - y1) 0) as [Ey | Ey]; [| now right].
      assert (x2 = x1) by lra. assert (y2 = y1) by lra. subst x2 y2.
      replace (x (motion target)) with x1 in Hhit by lra.
      replace (y (motion target)) with y1 in Hhit by lra.
      rewrite circleLineIntersection_degenerate in Hhit. discriminate. }
    unfold obstacle. repeat (split; [assumption |]).
    apply (circleLineIntersection_spec _ _ _ _ _ _ Hdist); [| exact Hhit].
    apply (Hrad b Hin Ht). }
  assert (Hblock : x2 - x1 <> 0 \/ y2 - y1 <> 0 ->
            forall u, In u allUnits -> obstacle shooter target u ->
              (Rmin x1 x2 - 12 <= x (motion u) <= Rmax x1 x2 + 12
               /\ Rmin y1 y2 - 12 <= y (motion u) <= Rmax y1 y2 + 12) ->
              checkFriendlyBlock x1 y1 x2 y2 shooter target allUnits <> None).
  { intros Hdist u Hin (Ht & Hi1 & Hi2 & Hd & Hmeet) Hbox Hb.
    pose proof (Hrad u Hin Ht) as Hr0.
    apply (circleLineIntersection_spec _ _ _ _ _ _ Hdist _ Hr0) in Hmeet.
    assert (Hc : friendlyCandidate x1 y1 x2 y2 shooter target u = true).
    { apply friendlyCandidate_spec. split; [auto | exact Hbox]. }
    rewrite (checkFriendlyBlock_None _ _ _ _ _ _ _ _ Hb Hin Hc) in Hmeet.
    discriminate. }
  split; [| split; [| split]].
  - intros Hdist. split; [split |].
    + destruct (checkFriendlyBlock _ _ _ _ _ _ _) as [b |] eqn:Hb; [| discriminate].
      intros _. exists b. now apply Hsome.
    + intros (u & Hin & Hob & Hbox).
      pose proof (Hblock Hdist u Hin Hob Hbox) as Hne.
      destruct (checkFriendlyBlock _ _ _ _ _ _ _) as [b |]; [reflexivity | now destruct Hne].
    + intros u Hin Hob Hr12.
      assert (Hbox : Rmin x1 x2 - 12 <= x (motion u) <= Rmax x1 x2 + 12
                     /\ Rmin y1 y2 - 12 <= y (motion u) <= Rmax y1 y2 + 12).
      { destruct Hob as (Ht & _ & _ & _ & Hmeet).
        pose proof (Hrad u Hin Ht) as Hr0.
        apply (circleLineIntersection_spec _ _ _ _ _ _ Hdist _ Hr0) in Hmeet.
        pose proof (intersection_in_box _ _ _ _ _ _ Hdist _ Hr0 Hmeet) as [Hbx Hby].
        lra. }
      pose proof (Hblock Hdist u Hin Hob Hbox) as Hne.
      destruct (checkFriendlyBlock _ _ _ _ _ _ _) as [b |]; [reflexivity | now destruct Hne].
  - intros Ex Ey.
    destruct (checkFriendlyBlock _ _ _ _ _ _ _) as [b |] eqn:Hb; [| reflexivity].
    apply checkFriendlyBlock_Some in Hb as (_ & _ & Hhit).
    fold x2 in Ex. fold y2 in Ey. rewrite Ex, Ey in Hhit.
    unfold x1, y1 in Hhit.
    rewrite circleLineIntersection_degenerate in Hhit. discriminate.
  - destruct (checkFriendlyBlock _ _ _ _ _ _ _) as [b |] eqn:Hb; [| discriminate].
    intros _. split; [reflexivity |]. exists b. split; [reflexivity |].
    destruct (Hsome b eq_refl) as (H1 & H2 & _). now split.
  - destruct (checkFriendlyBlock _ _ _ _ _ _ _) as [b |] eqn:Hb; [discriminate |].
    auto.
Qed.

Lemma hasLOS_true_iff (shooter target : Unit) (allUnits : list Unit) :
  hasLOS (checkLOS shooter target allUnits None) = true
  <-> forall u, In u allUnits ->
        friendlyCandidate (x (motion shooter)) (y (motion shooter))
          (x (motion target)) (y (motion target)) shooter target u = true ->
        circleLineIntersection (x (motion u)) (y (motion u))
          (collisionRadius (stats u))
          (x (motion shooter)) (y (motion shooter))
          (x (motion target)) (y (motion target)) = false.
Proof.
  rewrite checkLOS_no_terrain.
  destruct (checkFriendlyBlock _ _ _ _ _ _ _) as [b |] eqn:Hb; simpl.
  - split; [discriminate |]. intros H.
    apply checkFriendlyBlock_Some in Hb as (Hin & Hc & Hhit).
    rewrite (H b Hin Hc) in Hhit. discriminate.
  - split; [| reflexivity]. intros _ u Hin Hc.
    exact (checkFriendlyBlock_None _ _ _ _ _ _ _ _ Hb Hin Hc).
Qed.

(** A musketeer, his target 200 pixels ahead, and units of his own side
    near the line of fire. *)
Definition musketeer : Unit := newUnit 1 INFANTRY RED 100 100.
Definition enemyAhead : Unit := newUnit 2 INFANTRY BLUE 300 100.
Definition comradeOnLine : Unit := newUnit 3 INFANTRY RED 200 105.
Definition horseBesideLine : Unit := newUnit 3 CAVALRY RED 200 114.
Definition enemyOnTop : Unit := newUnit 2 INFANTRY BLUE 100 100.
Definition comradeClose : Unit := newUnit 3 INFANTRY RED 105 100.

Lemma newUnit_alive i ty tm px py : isDead (newUnit i ty tm px py) = false.
Proof.
  unfold isDead. apply leb_false.
  destruct ty; simpl;
    unfold CONFIG.INFANTRY.ENTITY_COUNT, CONFIG.CAVALRY.ENTITY_COUNT,
      CONFIG.CANNON.ENTITY_COUNT; lra.
Qed.

(** The same horse 2 pixels nearer to the line of fire. *)
Definition horseNearLine : Unit := newUnit 3 CAVALRY RED 200 112.

Lemma musketeer_radii (v : Unit) (u : Unit) :
  In u [musketeer; v; enemyAhead] -> v = horseBesideLine \/ v = horseNearLine
  \/ v = comradeOnLine ->
  0 <= collisionRadius (stats u).
Proof.
  intros [<- | [<- | [<- | []]]] Hv; simpl;
    try (unfold CONFIG.INFANTRY.COLLISION_RADIUS; lra).
  destruct Hv as [-> | [-> | ->]]; simpl;
    unfold CONFIG.INFANTRY.COLLISION_RADIUS, CONFIG.CAVALRY.COLLISION_RADIUS; lra.
Qed.

(** C3 fails on a friendly unit that is wider than infantry.  A
    musketeer at (100, 100) aims at an enemy at (300, 100); a cavalry unit
    of his own side, alive, radius 15, stands at (200, 114), 14 pixels
    beside the middle of the line of fire.  Its circle crosses the segment
    (the point (200, 100) is 14 away), and the code's own
    [circleLineIntersection] says so.  But the pre-filter of
    [checkFriendlyBlock] keeps only units whose centre is within 12, the
    infantry radius, of the ray's bounding box: the horse is dropped
    before the intersection test and [checkLOS] reports a clear line of
    sight with no blocker.  The same horse at (200, 112), inside the box,
    blocks. *)
Theorem prefilter_drops_friendly_cavalry :
  obstacle musketeer enemyAhead horseBesideLine
  /\ circleLineIntersection (x (motion horseBesideLine)) (y (motion horseBesideLine))
       (collisionRadius (stats horseBesideLine))
       (x (motion musketeer)) (y (motion musketeer))
       (x (motion enemyAhead)) (y (motion enemyAhead)) = true
  /\ friendlyCandidate (x (motion musketeer)) (y (motion musketeer))
       (x (motion enemyAhead)) (y (motion enemyAhead))
       musketeer enemyAhead horseBesideLine = false
  /\ checkLOS musketeer enemyAhead [musketeer; horseBesideLine; enemyAhead] None
     = mkLOSResult true None None
  /\ hasLOS (checkLOS musketeer enemyAhead [musketeer; horseNearLine; enemyAhead] None)
     = false.
Proof.
  assert (Hdist : x (motion enemyAhead) - x (motion musketeer) <> 0
                  \/ y (motion enemyAhead) - y (motion musketeer) <> 0)
    by (left; simpl; lra).
  assert (Hob : obstacle musketeer enemyAhead horseBesideLine).
  { unfold obstacle. split; [reflexivity |].
    split; [discriminate |]. split; [discriminate |].
    split; [apply newUnit_alive |].
    exists (1 / 2). simpl. unfold CONFIG.CAVALRY.COLLISION_RADIUS. lra. }
  assert (Hout : friendlyCandidate (x (motion musketeer)) (y (motion musketeer))
                   (x (motion enemyAhead)) (y (motion enemyAhead))
                   musketeer enemyAhead horseBesideLine = false).
  { destruct (friendlyCandidate _ _ _ _ _ _ horseBesideLine) eqn:Hc; [| reflexivity].
    apply friendlyCandidate_spec in Hc as [_ [_ Hy]].
    simpl in Hy. rewrite Rmax_left in Hy by lra. lra. }
  split; [exact Hob |]. split; [| split; [exact Hout | split]].
  - destruct Hob as (_ & _ & _ & _ & Hmeet).
    apply (circleLineIntersection_spec _ _ _ _ _ _ Hdist); [| exact Hmeet].
    simpl. unfold CONFIG.CAVALRY.COLLISION_RADIUS. lra.
  - assert (H : hasLOS (checkLOS musketeer enemyAhead
                          [musketeer; horseBesideLine; enemyAhead] None) = true).
    { apply hasLOS_true_iff. intros u Hin Hc. exfalso.
      destruct Hin as [<- | [<- | [<- | []]]].
      - apply friendlyCandidate_spec in Hc as [(_ & Hi1 & _) _]. now apply Hi1.
      - rewrite Hout in Hc. discriminate Hc.
      - apply friendlyCandidate_spec in Hc as [(_ & _ & Hi2 & _) _]. now apply Hi2. }
    rewrite checkLOS_no_terrain in H |- *.
    destruct (checkFriendlyBlock _ _ _ _ _ _ _); [discriminate H | reflexivity].
  - assert (Hrad : forall u, In u [musketeer; horseNearLine; enemyAhead] ->
                     team u = team musketeer -> 0 <= collisionRadius (stats u)).
    { intros u Hin _. apply (musketeer_radii horseNearLine u Hin). auto. }
    destruct (checkLOS_blocked_iff musketeer enemyAhead _ Hrad) as (H & _).
    destruct (H Hdist) as [Hiff _]. apply Hiff.
    exists horseNearLine. split; [simpl; auto |]. split.
    + unfold obstacle. split; [reflexivity |].
      split; [discriminate |]. split; [discriminate |].
      split; [apply newUnit_alive |].
      exists (1 / 2). simpl. unfold CONFIG.CAVALRY.COLLISION_RADIUS. lra.
    + unfold inPrefilterBox. simpl.
      rewrite !Rmin_left, !Rmax_right by lra. lra.
Qed.

(** An infantry unit of the shooter's side 5 pixels off the middle of the
    line of fire blocks it: its radius is 12. *)
Lemma comrade_on_line_blocks :
  hasLOS (checkLOS musketeer enemyAhead [musketeer; comradeOnLine; enemyAhead] None)
  = false.
Proof.
  assert (Hrad : forall u, In u [musketeer; comradeOnLine; enemyAhead] ->
                   team u = team musketeer -> 0 <= collisionRadius (stats u)).
  { intros u Hin _. apply (musketeer_radii comradeOnLine u Hin). auto. }
  destruct (checkLOS_blocked_iff musketeer enemyAhead _ Hrad) as (H & _).
  destruct H as [_ H]; [left; simpl; lra |].
  apply (H comradeOnLine); [simpl; auto | |].
  - unfold obstacle. split; [reflexivity |].
    split; [discriminate |]. split; [discriminate |].
    split; [apply newUnit_alive |].
    exists (1 / 2). simpl. unfold CONFIG.INFANTRY.COLLISION_RADIUS. lra.
  - simpl. unfold CONFIG.INFANTRY.COLLISION_RADIUS. lra.
Qed.

(** With the target at the shooter's own position the segment is a point;
    a comrade 5 pixels away covers it with his circle of radius 12, and
    line of sight is reported true: [circleLineIntersection] answers false
    on a segment of length 0. *)
Lemma coincident_positions_never_blocked :
  obstacle musketeer enemyOnTop comradeClose
  /\ hasLOS (checkLOS musketeer enemyOnTop [musketeer; comradeClose; enemyOnTop] None)
     = true.
Proof.
  split.
  - unfold obstacle. split; [reflexivity |].
    split; [discriminate |]. split; [discriminate |].
    split; [apply newUnit_alive |].
    exists 0. simpl. unfold CONFIG.INFANTRY.COLLISION_RADIUS. lra.
  - apply hasLOS_true_iff. intros u _ _. simpl.
    apply circleLineIntersection_degenerate.
Qed.

End LOSFacts.

(** ** The engine's update *)

Module EngineFacts.
Import GameEngine.

(** C10.  Once the game-over flag is set, [update] changes nothing, for
    every delta-time (and clock): the store of units, the registry, the
    selection, the projectiles, the game time, the flag and the winner
    are returned as they were, and no random number is drawn. *)
Theorem update_after_game_over (deltaTime now : R) (g : Game) (rnd : nat -> R) (k : nat) :
  gameOver g = true -> update deltaTime now g rnd k = (g, k).
Proof. intros H. unfold update. now rewrite H. Qed.

(** A finished battle: one blue infantry unit left, BLUE the winner. *)
Definition finishedBattle : Game :=
  set_outcome true (Some BLUE) (snd (createUnit INFANTRY BLUE 900 400 (newGame true))).

Lemma update_after_game_over_witness :
  update (1 / 60) 0 finishedBattle (fun _ => 1 / 2) 0%nat = (finishedBattle, 0%nat).
Proof. apply update_after_game_over. reflexivity. Defined.

Lemma checkWinCondition_gameTime g : gameTime (checkWinCondition g) = gameTime g.
Proof.
  unfold checkWinCondition.
  destruct (_ && _); [reflexivity |]. destruct (_ && _); reflexivity.
Qed.

(** While the game is on, the same call advances the game time. *)
Lemma update_advances_time deltaTime now g rnd k :
  gameOver g = false ->
  gameTime (fst (update deltaTime now g rnd k)) = gameTime g + deltaTime.
Proof.
  intros H. unfold update. rewrite H.
  unfold mbind, rng_bind, Rng.bind, mret, rng_ret, Rng.ret. cbn zeta.
  destruct (updateProjectiles _ _ _ _ rnd k) as [[ps st] k1].
  destruct (forEachM _ _ _ rnd k1) as [[st' ps'] k2].
  destruct (checkCollisions _ _ _ _ rnd k2) as [st'' k3].
  simpl. now rewrite checkWinCondition_gameTime.
Qed.

End EngineFacts.

(** ** State synchronisation *)

Module SyncFacts.
Import GameEngine GameStateSync.

(** The id of the unit object at an address, if there is one. *)
Definition idAt (g : Game) (r : ref) : option Z := id <$> store g !! r.

(** The registry has a unit of id [i]. *)
Definition hasUnit (g : Game) (i : Z) : Prop :=
  exists r, In r (units g) /\ idAt g r = Some i.

Lemma idAt_Some_lt g r i : idAt g r = Some i -> (r < length (store g))%nat.
Proof.
  unfold idAt. destruct (store g !! r) eqn:E; [| discriminate].
  intros _. eapply lookup_lt_Some, E.
Qed.

Lemma on_musket_id f u : id (on_musket f u) = id u.
Proof. reflexivity. Qed.

Lemma set_id_id i u : id (set_id i u) = i.
Proof. reflexivity. Qed.

Lemma copyFields_id w u : id (copyFields w u) = id u.
Proof. unfold copyFields. destruct (bool_decide _); reflexivity. Qed.

Lemma updateUnit_units r w g : units (updateUnit r w g) = units g.
Proof. unfold updateUnit. destruct (store g !! r); reflexivity. Qed.

Lemma updateUnit_length r w g : length (store (updateUnit r w g)) = length (store g).
Proof.
  unfold updateUnit. destruct (store g !! r); [| reflexivity].
  simpl. now rewrite !length_insert.
Qed.

Lemma updateUnit_idAt r w g r' : idAt (updateUnit r w g) r' = idAt g r'.
Proof.
  unfold updateUnit, idAt.
  destruct (store g !! r) as [localUnit |] eqn:E; [| reflexivity].
  simpl. destruct (decide (r = r')) as [<- | Hne].
  - rewrite list_lookup_insert_eq
      by (rewrite length_insert; eapply lookup_lt_Some, E).
    rewrite E. cbn [fmap option_fmap option_map]. f_equal.
    rewrite on_musket_id. apply copyFields_id.
  - now rewrite !list_lookup_insert_ne by exact Hne.
Qed.

(** One turn of the loop of [mergeUnits]: a remote unit known to the
    lookup map updates a local unit in place; an unknown one appends a
    new unit object, registered and given the remote id. *)
Lemma mergeUnit_step localMap seen g w :
  let out := mergeUnit localMap (seen, g) w in
  fst out = {[ w_id w ]} ∪ seen
  /\ match localMap !! w_id w with
     | Some _ =>
         units (snd out) = units g
         /\ length (store (snd out)) = length (store g)
         /\ forall r', idAt (snd out) r' = idAt g r'
     | None =>
         units (snd out) = units g ++ [length (store g)]
         /\ length (store (snd out)) = S (length (store g))
         /\ idAt (snd out) (length (store g)) = Some (w_id w)
         /\ forall r', r' <> length (store g) -> idAt (snd out) r' = idAt g r'
     end.
Proof.
  unfold mergeUnit. destruct (localMap !! w_id w) as [r |]; simpl.
  - split; [reflexivity |].
    rewrite updateUnit_units, updateUnit_length.
    repeat split. intros r'. apply updateUnit_idAt.
  - split; [reflexivity |].
    rewrite updateUnit_units, updateUnit_length. simpl.
    rewrite length_alter, length_app. simpl.
    split; [reflexivity |]. split; [lia |].
    split.
    + rewrite updateUnit_idAt. unfold idAt; simpl.
      rewrite list_lookup_alter_eq, list_lookup_middle by reflexivity.
      reflexivity.
    + intros r' Hne. rewrite updateUnit_idAt. unfold idAt; simpl.
      rewrite list_lookup_alter_ne by auto.
      destruct (decide (r' < length (store g))%nat) as [Hlt | Hge].
      * now rewrite lookup_app_l by exact Hlt.
      * rewrite !lookup_ge_None_2; [reflexivity | lia |].
        rewrite length_app; simpl. lia.
Qed.

(** What the lookup map knows: an id it maps leads to a registered unit
    of that id. *)
Lemma localUnitsMap_Some g i r :
  localUnitsMap g !! i = Some r -> In r (units g) /\ idAt g r = Some i.
Proof.
  unfold localUnitsMap.
  assert (H : forall (l : list ref) (m : gmap Z ref),
             (forall r, In r l -> In r (units g)) ->
             (forall i r, m !! i = Some r -> In r (units g) /\ idAt g r = Some i) ->
             forall i r,
               foldl (fun (m : gmap Z ref) r =>
                        match store g !! r with
                        | Some u => <[id u := r]> m
                        | None => m
                        end) m l !! i = Some r ->
               In r (units g) /\ idAt g r = Some i).
  { induction l as [| a l IH]; intros m Hl Hm j s; simpl; [apply Hm |].
    apply IH; [intros; apply Hl; now right |].
    intros j' s'. destruct (store g !! a) as [u |] eqn:E; [| apply Hm].
    rewrite lookup_insert_Some. intros [[<- <-] | [_ H]]; [| now apply Hm].
    split; [apply Hl; now left |]. unfold idAt. now rewrite E. }
  apply H; [auto |]. intros j s. now rewrite lookup_empty.
Qed.

(** The state of the loop of [mergeUnits] after the remote units [done]:
    the store has grown only, old objects keep their ids, the registry has
    been extended with new addresses only, the seen ids are those of
    [done], and each of them is the id of a registered unit. *)
Definition loopInvariant (g0 : Game) (done : list WireUnit) (seen : gset Z) (g : Game)
  : Prop :=
  (length (store g0) <= length (store g))%nat
  /\ (forall r, (r < length (store g0))%nat -> idAt g r = idAt g0 r)
  /\ (exists news, units g = units g0 ++ news
                   /\ forall r, In r news -> (length (store g0) <= r)%nat)
  /\ (forall i, i ∈ seen <-> In i (map w_id done))
  /\ (forall i, i ∈ seen -> exists r, In r (units g) /\ idAt g r = Some i).

Lemma loopInvariant_step g0 done seen g w :
  loopInvariant g0 done seen g ->
  loopInvariant g0 (done ++ [w])
    (fst (mergeUnit (localUnitsMap g0) (seen, g) w))
    (snd (mergeUnit (localUnitsMap g0) (seen, g) w)).
Proof.
  intros (Hlen & Hold & (news & Hunits & Hnews) & Hseen & Hreg).
  destruct (mergeUnit_step (localUnitsMap g0) seen g w) as [Es Hstep].
  cbv zeta in Es, Hstep. rewrite Es.
  assert (Hseen' : forall i, i ∈ ({[ w_id w ]} ∪ seen : gset Z)
                             <-> In i (map w_id (done ++ [w]))).
  { intros i. rewrite elem_of_union, elem_of_singleton, map_app, in_app_iff, Hseen.
    simpl. intuition. }
  destruct (localUnitsMap g0 !! w_id w) as [r |] eqn:Hmap.
  - destruct Hstep as (Eu & El & Ei).
    split; [lia |]. split; [intros r' Hr'; rewrite Ei; now apply Hold |].
    split; [exists news; rewrite Eu; auto |].
    split; [exact Hseen' |].
    intros i. rewrite elem_of_union, elem_of_singleton. intros [-> | Hi].
    + apply localUnitsMap_Some in Hmap as [Hin Hid].
      exists r. rewrite Eu, Hunits, in_app_iff, Ei.
      split; [now left |].
      rewrite Hold; [exact Hid | eapply idAt_Some_lt, Hid].
    + destruct (Hreg i Hi) as (r' & Hin & Hid).
      exists r'. now rewrite Eu, Ei.
  - destruct Hstep as (Eu & El & Enew & Ei).
    split; [lia |].
    split; [intros r' Hr'; rewrite Ei by lia; now apply Hold |].
    split.
    { exists (news ++ [length (store g)]). rewrite Eu, Hunits, app_assoc.
      split; [reflexivity |]. intros r'. rewrite in_app_iff.
      intros [Hr' | [<- | []]]; [now apply Hnews | exact Hlen]. }
    split; [exact Hseen' |].
    intros i. rewrite elem_of_union, elem_of_singleton. intros [-> | Hi].
    + exists (length (store g)). rewrite Eu, in_app_iff.
      split; [right; now left | exact Enew].
    + destruct (Hreg i Hi) as (r' & Hin & Hid).
      exists r'. rewrite Eu, in_app_iff. split; [now left |].
      rewrite Ei; [exact Hid |].
      apply idAt_Some_lt in Hid. lia.
Qed.

Lemma loopInvariant_loop g0 ws :
  forall done seen g,
    loopInvariant g0 done seen g ->
    loopInvariant g0 (done ++ ws)
      (fst (foldl (mergeUnit (localUnitsMap g0)) (seen, g) ws))
      (snd (foldl (mergeUnit (localUnitsMap g0)) (seen, g) ws)).
Proof.
  induction ws as [| w ws IH]; intros done seen g H; cbn [foldl].
  - now rewrite app_nil_r.
  - replace (done ++ w :: ws) with ((done ++ [w]) ++ ws)
      by (now rewrite <- app_assoc).
    pose proof (loopInvariant_step _ _ _ _ w H) as H'.
    destruct (mergeUnit (localUnitsMap g0) (seen, g) w) as [seen' g'].
    exact (IH _ _ _ H').
Qed.

Lemma loopInvariant_start g : loopInvariant g [] ∅ g.
Proof.
  split; [lia |]. split; [auto |].
  split; [exists []; rewrite app_nil_r; split; [reflexivity | intros r []] |].
  split; [intros i; rewrite elem_of_empty; simpl; tauto |].
  intros i Hi. now apply elem_of_empty in Hi.
Qed.

(** [mergeUnits] in terms of the state its loop ends in. *)
Lemma mergeUnits_filter remoteUnits g :
  let out := foldl (mergeUnit (localUnitsMap g)) (∅, g) remoteUnits in
  store (mergeUnits remoteUnits g) = store (snd out)
  /\ forall r, In r (units (mergeUnits remoteUnits g))
               <-> In r (units (snd out))
                   /\ exists i, idAt (snd out) r = Some i /\ i ∈ fst out.
Proof.
  unfold mergeUnits. cbv zeta.
  destruct (foldl _ _ remoteUnits) as [seen gk]. simpl.
  split; [reflexivity |]. intros r. rewrite filter_In. unfold idAt.
  destruct (store gk !! r) as [u |]; simpl.
  - rewrite bool_decide_eq_true. split.
    + intros [H1 H2]. eauto.
    + intros [H1 (i & [= <-] & H2)]. auto.
  - split; [intros [_ H]; discriminate | intros [_ (i & H & _)]; discriminate].
Qed.

(** C8.  After [mergeUnits], the ids of the registry are exactly the ids
    listed in the snapshot; every local unit whose id is absent from the
    snapshot is gone from the registry; and for every remote unit whose
    id the registry did not have, a unit object created by the merge is
    registered under the remote id. *)
Theorem mergeUnits_registry (remoteUnits : list WireUnit) (g : Game) :
  let g' := mergeUnits remoteUnits g in
  (forall i, hasUnit g' i <-> In i (map w_id remoteUnits))
  /\ (forall r u, In r (units g) -> store g !! r = Some u ->
                  ~ In (id u) (map w_id remoteUnits) -> ~ In r (units g'))
  /\ (forall w, In w remoteUnits -> ~ hasUnit g (w_id w) ->
        exists r, (length (store g) <= r)%nat
                  /\ In r (units g') /\ idAt g' r = Some (w_id w)).
Proof.
  intros g'. unfold g'.
  destruct (mergeUnits_filter remoteUnits g) as [Est Hin]. cbv zeta in Est, Hin.
  pose proof (loopInvariant_loop g remoteUnits [] ∅ g (loopInvariant_start g)) as Hinv.
  simpl in Hinv.
  destruct (foldl (mergeUnit (localUnitsMap g)) (∅, g) remoteUnits) as [seen gk].
  simpl in *.
  destruct Hinv as (Hlen & Hold & (news & Hunits & Hnews) & Hseen & Hreg).
  assert (Hid : forall r, idAt (mergeUnits remoteUnits g) r = idAt gk r).
  { intros r. unfold idAt. now rewrite Est. }
  assert (Hfresh : forall i, In i (map w_id remoteUnits) ->
             exists r, In r (units (mergeUnits remoteUnits g))
                       /\ idAt (mergeUnits remoteUnits g) r = Some i
                       /\ In r (units gk)).
  { intros i Hi. apply Hseen in Hi. destruct (Hreg i Hi) as (r & Hr & Hri).
    exists r. rewrite Hid, Hin. eauto 6. }
  split; [| split].
  - intros i. split.
    + intros (r & Hr & Hri). apply Hin in Hr as [_ (j & Hj & Hs)].
      rewrite Hid, Hj in Hri. injection Hri as <-. now apply Hseen.
    + intros Hi. destruct (Hfresh i Hi) as (r & Hr & Hri & _). now exists r.
  - intros r u Hr Hu Hnot Hr'. apply Hin in Hr' as [_ (j & Hj & Hs)].
    rewrite Hold in Hj by (eapply lookup_lt_Some, Hu).
    unfold idAt in Hj. rewrite Hu in Hj. injection Hj as <-.
    now apply Hnot, Hseen.
  - intros w Hw Hnew.
    destruct (Hfresh (w_id w)) as (r & Hr & Hri & Hrk); [now apply in_map |].
    exists r. split; [| now split].
    destruct (le_lt_dec (length (store g)) r) as [Hge | Hlt]; [exact Hge |].
    exfalso. rewrite Hunits, in_app_iff in Hrk. destruct Hrk as [Hrk | Hrk].
    + apply Hnew. exists r. split; [exact Hrk |].
      rewrite <- Hold by exact Hlt. now rewrite <- Hid.
    + apply Hnews in Hrk. lia.
Qed.

(** Unit 7 is absent from a snapshot that lists units 3 and 9: after the
    merge it is gone, and a unit 9 has been created. *)
Definition twoLocalUnits : Game :=
  mkGame [set_id 7 (newUnit 0 INFANTRY RED 100 100);
          set_id 3 (newUnit 1 CAVALRY BLUE 900 400)]
    [0%nat; 1%nat] [] [] 0 false None true 2.

Definition snapshotUnits : list WireUnit :=
  [serializeUnit [] (set_id 3 (newUnit 1 CAVALRY BLUE 880 400));
   serializeUnit [] (set_id 9 (newUnit 4 CANNON BLUE 1000 300))].

Lemma mergeUnits_registry_witness :
  ~ In 0%nat (units (mergeUnits snapshotUnits twoLocalUnits))
  /\ hasUnit (mergeUnits snapshotUnits twoLocalUnits) 9.
Proof.
  destruct (mergeUnits_registry snapshotUnits twoLocalUnits) as (H1 & H2 & _).
  split.
  - apply (H2 0%nat (set_id 7 (newUnit 0 INFANTRY RED 100 100))).
    + simpl. auto.
    + reflexivity.
    + simpl. intros [H | [H | []]]; discriminate.
  - apply H1. simpl. auto.
Defined.

(** *** Round trip of one unit through a fresh registry *)

(** The serialized unit without its current-target id. *)
Definition withoutTarget (w : WireUnit) : WireUnit :=
  mkWireUnit (w_id w) (w_type w) (w_team w) (w_x w) (w_y w) (w_vx w) (w_vy w)
    (w_angle w) (w_targetX w) (w_targetY w) (w_entityCount w) (w_formation w)
    (w_isSelected w) (w_isReloading w) (w_reloadProgress w) (w_exhaustion w)
    (w_isMeleeLocked w) None.

(** The unit that merging [w] into a registry without units creates, at
    address [r], the engine's next id being [n]: the target is found only
    if it is the unit itself. *)
Definition mergedUnit (w : WireUnit) (n : Z) (r : ref) : Unit :=
  on_musket
    (set_currentTarget
       (match w_currentTargetId w with
        | Some i => if bool_decide (w_id w = i) then Some r else None
        | None => None
        end))
    (copyFields w
       (set_id (w_id w) (newUnit n (w_type w) (w_team w) (w_x w) (w_y w)))).

(** [updateUnit] on the last object of the store, the only registered
    unit. *)
Lemma updateUnit_last (g : Game) (st : list Unit) (v : Unit) (w : WireUnit) :
  store g = st ++ [v] -> units g = [length st] ->
  units (updateUnit (length st) w g) = [length st]
  /\ store (updateUnit (length st) w g)
     = st ++ [on_musket
                (set_currentTarget
                   (match w_currentTargetId w with
                    | Some i => if bool_decide (id v = i) then Some (length st) else None
                    | None => None
                    end))
                (copyFields w v)].
Proof.
  intros Es Eu.
  assert (Hins : forall a b, <[length st := b]> (st ++ [a]) = st ++ [b]).
  { intros a b. replace (length st) with (length st + 0)%nat at 1 by lia.
    now rewrite insert_app_r. }
  assert (Hlook : forall a, (st ++ [a]) !! length st = Some a).
  { intros a. now apply list_lookup_middle. }
  rewrite updateUnit_units. split; [exact Eu |].
  unfold updateUnit. rewrite Es, Hlook.
  cbn [store set_store]. rewrite !Hins.
  f_equal. f_equal. f_equal. f_equal.
  destruct (w_currentTargetId w) as [i |]; [| reflexivity].
  unfold findById. cbn [units store set_store]. rewrite Eu.
  cbn [List.find]. rewrite Hlook, copyFields_id. reflexivity.
Qed.

Lemma mergeUnits_fresh (w : WireUnit) (g0 : Game) :
  units g0 = [] ->
  let r := length (store g0) in
  units (mergeUnits [w] g0) = [r]
  /\ store (mergeUnits [w] g0) = store g0 ++ [mergedUnit w (nextUnitId g0) r].
Proof.
  intros Hu r. unfold mergedUnit.
  set (nu := newUnit (nextUnitId g0) (w_type w) (w_team w) (w_x w) (w_y w)).
  set (v := set_id (w_id w) nu).
  set (g1 := set_store (store g0 ++ [v])
               (snd (createUnit (w_type w) (w_team w) (w_x w) (w_y w) g0))).
  assert (Es1 : store g1 = store g0 ++ [v]) by reflexivity.
  assert (Eu1 : units g1 = [r]) by (unfold g1; cbn [units set_store createUnit snd]; now rewrite Hu).
  destruct (updateUnit_last g1 (store g0) v w Es1 Eu1) as [Eu2 Es2].
  fold r in Eu2, Es2.
  assert (Hv : id v = w_id w) by reflexivity.
  assert (Hmerge : foldl (mergeUnit (localUnitsMap g0)) (∅, g0) [w]
                   = ({[ w_id w ]} ∪ ∅, updateUnit r w g1)).
  { cbn [foldl]. unfold mergeUnit, localUnitsMap. rewrite Hu. cbn [foldl].
    rewrite lookup_empty. unfold createUnit. fold r. fold nu.
    cbn [store set_store].
    replace (alter (set_id (w_id w)) r (store g0 ++ [nu])) with (store g0 ++ [v]);
      [reflexivity |].
    unfold r. replace (length (store g0)) with (length (store g0) + 0)%nat by lia.
    now rewrite alter_app_r. }
  unfold mergeUnits. rewrite Hmerge.
  cbn [units store set_units]. rewrite Eu2, Es2.
  split.
  - cbn [List.filter]. unfold r at 1. rewrite list_lookup_middle by reflexivity.
    rewrite on_musket_id, copyFields_id, Hv.
    now rewrite bool_decide_eq_true_2 by set_solver.
  - rewrite Hv. reflexivity.
Qed.

(** The modifiers of a unit are those of its formation: true of every
    new unit and after every [setFormation], the only code that assigns
    them. *)
Definition modifiersDerived (u : Unit) : Prop :=
  modifiers u = formationModifiers (formation u).

Lemma newUnit_modifiersDerived i ty tm px py : modifiersDerived (newUnit i ty tm px py).
Proof. reflexivity. Qed.

Lemma setFormation_modifiersDerived f u : modifiersDerived (setFormation f u).
Proof. reflexivity. Qed.

(** What [copyFields] leaves in the local unit. *)
Lemma copyFields_fields (w : WireUnit) (v : Unit) :
  let c := copyFields w v in
  id c = id v /\ type c = type v /\ team c = team v
  /\ motion c
     = mkMotion (w_x w) (w_y w) (w_vx w) (w_vy w) (w_angle w)
         (w_targetX w) (w_targetY w) (speed (motion v))
  /\ entityCount (stats c) = w_entityCount w
  /\ isReloading (musket c) = w_isReloading w
  /\ reloadProgress (musket c) = w_reloadProgress w
  /\ currentTarget (musket c) = currentTarget (musket v)
  /\ exhaustion (fatigue c) = w_exhaustion w
  /\ isMeleeLocked (melee c) = w_isMeleeLocked w
  /\ isSelected c = w_isSelected w
  /\ formation c = w_formation w
  /\ modifiers c
     = if bool_decide (formation v = w_formation w) then modifiers v
       else formationModifiers (w_formation w).
Proof.
  unfold copyFields.
  change (formation
            (on_melee (set_isMeleeLocked (w_isMeleeLocked w))
               (on_fatigue (set_exhaustion (w_exhaustion w))
                  (on_musket
                     (fun g => set_reloadProgress (w_reloadProgress w)
                                 (set_isReloading (w_isReloading w) g))
                     (on_stats (set_entityCount (w_entityCount w))
                        (on_motion
                           (fun m => mkMotion (w_x w) (w_y w) (w_vx w) (w_vy w)
                                       (w_angle w) (w_targetX w) (w_targetY w)
                                       (speed m)) v))))))
    with (formation v).
  destruct (bool_decide (formation v = w_formation w)) eqn:E.
  - apply bool_decide_eq_true in E. repeat split; assumption || reflexivity.
  - repeat split; reflexivity.
Qed.

Lemma serializeUnit_currentTargetId (st : list Unit) (u : Unit) :
  w_currentTargetId (serializeUnit st u)
  = (t ← currentTarget (musket u); id <$> st !! t).
Proof. reflexivity. Qed.

Lemma withoutTarget_serializeUnit (st : list Unit) (t : option ref) (c : Unit) :
  withoutTarget (serializeUnit st (on_musket (set_currentTarget t) c))
  = mkWireUnit (id c) (type c) (team c)
      (x (motion c)) (y (motion c)) (vx (motion c)) (vy (motion c))
      (angle (motion c)) (targetX (motion c)) (targetY (motion c))
      (entityCount (stats c)) (formation c) (isSelected c)
      (isReloading (musket c)) (reloadProgress (musket c))
      (exhaustion (fatigue c)) (isMeleeLocked (melee c)) None.
Proof. reflexivity. Qed.

Lemma on_musket_modifiers f u : modifiers (on_musket f u) = modifiers u.
Proof. reflexivity. Qed.

Lemma on_musket_set_currentTarget t u :
  currentTarget (musket (on_musket (set_currentTarget t) u)) = t.
Proof. reflexivity. Qed.

Lemma mergedUnit_wire (st st' : list Unit) (u : Unit) (n : Z) (r : ref) :
  let m := mergedUnit (serializeUnit st u) n r in
  withoutTarget (serializeUnit st' m) = withoutTarget (serializeUnit st u)
  /\ modifiers m = formationModifiers (formation u)
  /\ currentTarget (musket m)
     = match w_currentTargetId (serializeUnit st u) with
       | Some i => if bool_decide (id u = i) then Some r else None
       | None => None
       end
  /\ id m = id u.
Proof.
  cbv zeta. unfold mergedUnit.
  assert (Ew : withoutTarget (serializeUnit st u)
               = mkWireUnit (id u) (type u) (team u)
                   (x (motion u)) (y (motion u)) (vx (motion u)) (vy (motion u))
                   (angle (motion u)) (targetX (motion u)) (targetY (motion u))
                   (entityCount (stats u)) (formation u) (isSelected u)
                   (isReloading (musket u)) (reloadProgress (musket u))
                   (exhaustion (fatigue u)) (isMeleeLocked (melee u)) None)
    by reflexivity.
  assert (Ei : w_id (serializeUnit st u) = id u) by reflexivity.
  assert (Ef : w_formation (serializeUnit st u) = formation u) by reflexivity.
  rewrite Ew, Ei.
  remember (serializeUnit st u) as w eqn:Hw.
  assert (Efields : w_type w = type u /\ w_team w = team u
                    /\ w_x w = x (motion u) /\ w_y w = y (motion u)
                    /\ w_vx w = vx (motion u) /\ w_vy w = vy (motion u)
                    /\ w_angle w = angle (motion u)
                    /\ w_targetX w = targetX (motion u)
                    /\ w_targetY w = targetY (motion u)
                    /\ w_entityCount w = entityCount (stats u)
                    /\ w_isSelected w = isSelected u
                    /\ w_isReloading w = isReloading (musket u)
                    /\ w_reloadProgress w = reloadProgress (musket u)
                    /\ w_exhaustion w = exhaustion (fatigue u)
                    /\ w_isMeleeLocked w = isMeleeLocked (melee u)).
  { rewrite Hw. repeat split; reflexivity. }
  clear Hw.
  destruct Efields as (E1 & E2 & E3 & E4 & E5 & E6 & E7 & E8 & E9 & E10 & E11
                       & E12 & E13 & E14 & E15).
  remember (set_id (id u) (newUnit n (w_type w) (w_team w) (w_x w) (w_y w))) as v eqn:Hv.
  assert (Hvid : id v = id u) by (rewrite Hv; apply set_id_id).
  assert (Hvf : formation v = None) by (rewrite Hv; reflexivity).
  assert (Hvm : modifiers v = formationModifiers None) by (rewrite Hv; reflexivity).
  assert (Hvty : type v = w_type w) by (rewrite Hv; reflexivity).
  assert (Hvtm : team v = w_team w) by (rewrite Hv; reflexivity).
  clear Hv.
  destruct (copyFields_fields w v)
    as (Hid & Hty & Htm & Hmo & Hec & Hir & Hrp & Hct & Hex & Hml & Hse & Hfo & Hmd).
  cbv zeta in Hid, Hty, Htm, Hmo, Hec, Hir, Hrp, Hct, Hex, Hml, Hse, Hfo, Hmd.
  remember (copyFields w v) as c eqn:Hc. clear Hc.
  split; [| split; [| split]].
  - rewrite withoutTarget_serializeUnit.
    rewrite Hid, Hty, Htm, Hmo, Hec, Hir, Hrp, Hex, Hml, Hse, Hfo.
    cbn [x y vx vy angle targetX targetY].
    rewrite Hvid, Hvty, Hvtm, E1, E2, E3, E4, E5, E6, E7, E8, E9, E10, E11,
      E12, E13, E14, E15, Ef.
    reflexivity.
  - rewrite on_musket_modifiers, Hmd, Hvf, Hvm, Ef.
    destruct (formation u) as [f |]; [| reflexivity].
    now rewrite bool_decide_eq_false_2 by discriminate.
  - apply on_musket_set_currentTarget.
  - now rewrite on_musket_id, Hid.
Qed.

Lemma on_musket_set_currentTarget_fields (t : option nat) (c : Unit) :
  let m := on_musket (set_currentTarget t) c in
  id m = id c /\ type m = type c /\ team m = team c
  /\ motion m = motion c /\ stats m = stats c
  /\ formation m = formation c /\ modifiers m = modifiers c
  /\ fatigue m = fatigue c /\ isSelected m = isSelected c /\ melee m = melee c
  /\ isReloading (musket m) = isReloading (musket c)
  /\ reloadProgress (musket m) = reloadProgress (musket c).
Proof. cbv zeta. repeat split; reflexivity. Qed.

(** The fields of the unit that a merge into a registry without units
    creates from the serialized [u], against those of [u] itself. *)
Lemma mergedUnit_fields (st : list Unit) (u : Unit) (n : Z) (r : nat) :
  let m := mergedUnit (serializeUnit st u) n r in
  id m = id u /\ type m = type u /\ team m = team u
  /\ x (motion m) = x (motion u) /\ y (motion m) = y (motion u)
  /\ vx (motion m) = vx (motion u) /\ vy (motion m) = vy (motion u)
  /\ angle (motion m) = angle (motion u)
  /\ targetX (motion m) = targetX (motion u)
  /\ targetY (motion m) = targetY (motion u)
  /\ entityCount (stats m) = entityCount (stats u)
  /\ formation m = formation u
  /\ isSelected m = isSelected u
  /\ isReloading (musket m) = isReloading (musket u)
  /\ reloadProgress (musket m) = reloadProgress (musket u)
  /\ exhaustion (fatigue m) = exhaustion (fatigue u)
  /\ isMeleeLocked (melee m) = isMeleeLocked (melee u).
Proof.
  cbv zeta. unfold mergedUnit.
  assert (Ei : w_id (serializeUnit st u) = id u) by reflexivity.
  rewrite Ei.
  remember (serializeUnit st u) as w eqn:Hw.
  assert (Efields : w_type w = type u /\ w_team w = team u
                    /\ w_x w = x (motion u) /\ w_y w = y (motion u)
                    /\ w_vx w = vx (motion u) /\ w_vy w = vy (motion u)
                    /\ w_angle w = angle (motion u)
                    /\ w_targetX w = targetX (motion u)
                    /\ w_targetY w = targetY (motion u)
                    /\ w_entityCount w = entityCount (stats u)
                    /\ w_isSelected w = isSelected u
                    /\ w_isReloading w = isReloading (musket u)
                    /\ w_reloadProgress w = reloadProgress (musket u)
                    /\ w_exhaustion w = exhaustion (fatigue u)
                    /\ w_isMeleeLocked w = isMeleeLocked (melee u)
                    /\ w_formation w = formation u).
  { rewrite Hw. repeat split; reflexivity. }
  clear Hw.
  destruct Efields as (E1 & E2 & E3 & E4 & E5 & E6 & E7 & E8 & E9 & E10 & E11
                       & E12 & E13 & E14 & E15 & E16).
  remember (set_id (id u) (newUnit n (w_type w) (w_team w) (w_x w) (w_y w))) as v eqn:Hv.
  assert (Hvid : id v = id u) by (rewrite Hv; apply set_id_id).
  assert (Hvty : type v = w_type w) by (rewrite Hv; reflexivity).
  assert (Hvtm : team v = w_team w) by (rewrite Hv; reflexivity).
  clear Hv.
  destruct (copyFields_fields w v)
    as (Hid & Hty & Htm & Hmo & Hec & Hir & Hrp & _ & Hex & Hml & Hse & Hfo & _).
  cbv zeta in Hid, Hty, Htm, Hmo, Hec, Hir, Hrp, Hex, Hml, Hse, Hfo.
  remember (copyFields w v) as c eqn:Hc. clear Hc.
  match goal with
  | |- context [on_musket (set_currentTarget ?t) c] =>
      destruct (on_musket_set_currentTarget_fields t c)
        as (Fid & Fty & Ftm & Fmo & Fst & Ffo & _ & Ffa & Fse & Fme & Fir & Frp);
      cbv zeta in Fid, Fty, Ftm, Fmo, Fst, Ffo, Ffa, Fse, Fme, Fir, Frp;
      remember (on_musket (set_currentTarget t) c) as m eqn:Hm; clear Hm
  end.
  rewrite Fid, Fty, Ftm, Fmo, Fst, Ffo, Ffa, Fse, Fme, Fir, Frp.
  rewrite Hid, Hty, Htm, Hmo, Hec, Hir, Hrp, Hex, Hml, Hse, Hfo.
  cbn [x y vx vy angle targetX targetY].
  rewrite Hvid, Hvty, Hvtm.
  repeat split; assumption || reflexivity.
Qed.

(** C9, as the code has it.  A unit whose modifiers are those of its
    formation is serialized and merged into a registry without units: the
    registry then holds one unit.  Each field of that unit that the wire
    format carries, the current target apart, equals the same field of
    the original: id, type, team, position, velocity, facing, movement
    target, entity count, formation, selection, reload state, exhaustion
    and melee lock; its formation modifiers equal the original's; and
    serializing it again gives the wire unit that was sent, the
    current-target id apart.  The current target is looked up by id among
    the registered units: it is kept only if it is the unit itself and is
    null otherwise. *)
Theorem round_trip_fresh_registry (st : list Unit) (u : Unit) (g0 : Game) :
  units g0 = [] ->
  modifiersDerived u ->
  let w := serializeUnit st u in
  let g' := mergeUnits [w] g0 in
  exists (r : ref) (m : Unit),
    units g' = [r] /\ store g' !! r = Some m
    /\ (id m = id u /\ type m = type u /\ team m = team u
        /\ x (motion m) = x (motion u) /\ y (motion m) = y (motion u)
        /\ vx (motion m) = vx (motion u) /\ vy (motion m) = vy (motion u)
        /\ angle (motion m) = angle (motion u)
        /\ targetX (motion m) = targetX (motion u)
        /\ targetY (motion m) = targetY (motion u)
        /\ entityCount (stats m) = entityCount (stats u)
        /\ formation m = formation u
        /\ isSelected m = isSelected u
        /\ isReloading (musket m) = isReloading (musket u)
        /\ reloadProgress (musket m) = reloadProgress (musket u)
        /\ exhaustion (fatigue m) = exhaustion (fatigue u)
        /\ isMeleeLocked (melee m) = isMeleeLocked (melee u))
    /\ withoutTarget (serializeUnit (store g') m) = withoutTarget w
    /\ modifiers m = modifiers u
    /\ currentTarget (musket m)
       = match w_currentTargetId w with
         | Some i => if bool_decide (id u = i) then Some r else None
         | None => None
         end
    /\ w_currentTargetId (serializeUnit (store g') m)
       = match w_currentTargetId w with
         | Some i => if bool_decide (id u = i) then Some i else None
         | None => None
         end.
Proof.
  intros Hu Hmod. cbv zeta.
  destruct (mergeUnits_fresh (serializeUnit st u) g0 Hu) as [Eu Es].
  cbv zeta in Eu, Es.
  remember (mergeUnits [serializeUnit st u] g0) as g' eqn:Hg'. clear Hg'.
  destruct (mergedUnit_wire st (store g') u (nextUnitId g0) (length (store g0)))
    as (Hw & Hmods & Ht & Hid).
  pose proof (mergedUnit_fields st u (nextUnitId g0) (length (store g0))) as Hfields.
  cbv zeta in Hw, Hmods, Ht, Hid, Hfields.
  remember (mergedUnit (serializeUnit st u) (nextUnitId g0) (length (store g0)))
    as m eqn:Hm'. clear Hm'.
  assert (Hm : store g' !! length (store g0) = Some m).
  { rewrite Es. now apply list_lookup_middle. }
  exists (length (store g0)), m.
  split; [exact Eu |]. split; [exact Hm |].
  split; [exact Hfields |].
  split; [exact Hw |].
  split; [unfold modifiersDerived in Hmod; now rewrite Hmod |].
  split; [exact Ht |].
  rewrite serializeUnit_currentTargetId, Ht.
  remember (w_currentTargetId (serializeUnit st u)) as ti eqn:Hti. clear Hti.
  destruct ti as [i |]; [| reflexivity].
  destruct (bool_decide (id u = i)) eqn:Ei; [| reflexivity].
  apply bool_decide_eq_true in Ei. cbn [mbind option_bind].
  rewrite Hm. cbn [fmap option_fmap option_map]. now rewrite Hid, Ei.
Qed.

(** An infantry unit aiming at an enemy, in its engine's store: it has
    marched to (250, 140), stands in LINE and is selected. *)
Definition quarry : Unit := newUnit 2 INFANTRY BLUE 300 100.
Definition archer : Unit :=
  on_musket (set_currentTarget (Some 1%nat)) (newUnit 1 INFANTRY RED 100 100).
Definition archerStore : list Unit := [archer; quarry].
Definition veteran : Unit :=
  set_isSelected true
    (setFormation (Some LINE)
       (on_motion (fun m => set_y 140 (set_x 250 m)) archer)).

(** The veteran comes out of the round trip at (250, 140), in LINE, with
    the modifiers of the line and selected. *)
Lemma round_trip_fresh_registry_witness :
  exists (r : ref) (m : Unit),
    units (mergeUnits [serializeUnit archerStore veteran] (newGame true)) = [r]
    /\ store (mergeUnits [serializeUnit archerStore veteran] (newGame true)) !! r = Some m
    /\ id m = 1%Z /\ x (motion m) = 250 /\ y (motion m) = 140
    /\ entityCount (stats m) = CONFIG.INFANTRY.ENTITY_COUNT
    /\ formation m = Some LINE /\ isSelected m = true
    /\ modifiers m = formationModifiers (Some LINE).
Proof.
  destruct (round_trip_fresh_registry archerStore veteran (newGame true) eq_refl eq_refl)
    as (r & m & H1 & H2 & Hf & _ & H4 & _).
  destruct Hf as (Fid & _ & _ & Fx & Fy & _ & _ & _ & _ & _ & Fec & Ffo & Fse & _).
  exists r, m.
  split; [exact H1 |]. split; [exact H2 |].
  split; [exact Fid |]. split; [exact Fx |]. split; [exact Fy |].
  split; [exact Fec |]. split; [exact Ffo |]. split; [exact Fse |]. exact H4.
Defined.

(** C9 as stated fails on the current-target id: [archer], unit 1, aims
    at unit 2; serialized, its current-target id is 2; merged into a
    fresh registry, where no unit 2 exists, it has no current target, and
    serializing it again gives a null current-target id. *)
Lemma round_trip_loses_current_target :
  let w := serializeUnit archerStore archer in
  let g' := mergeUnits [w] (newGame true) in
  w_currentTargetId w = Some 2%Z
  /\ units g' = [0%nat]
  /\ exists m, store g' !! 0%nat = Some m
               /\ currentTarget (musket m) = None
               /\ w_currentTargetId (serializeUnit (store g') m) = None
               /\ serializeUnit (store g') m <> w.
Proof.
  intros w g'.
  destruct (mergeUnits_fresh w (newGame true) eq_refl) as [Eu Es].
  cbv zeta in Eu, Es. fold g' in Eu, Es. cbn in Eu, Es.
  split; [reflexivity |]. split; [exact Eu |].
  eexists. split; [rewrite Es; reflexivity |].
  split; [reflexivity |]. split; [reflexivity |].
  intros H. apply (f_equal w_currentTargetId) in H. discriminate H.
Qed.

End SyncFacts.

(** * Further properties of the code *)

(** ** Units: damage, movement, formations *)

Module UnitFacts.
Import JS JSFacts.

Lemma takeDamage_entityCount amount u :
  entityCount (stats (takeDamage amount u))
  = Rmax 0 (entityCount (stats u) - amount).
Proof.
  unfold takeDamage; simpl. unfold ltb.
  destruct (Rlt_dec (entityCount (stats u) - amount) 0).
  - now rewrite Rmax_left by lra.
  - now rewrite Rmax_right by lra.
Qed.

Lemma takeDamage_nonneg amount u : 0 <= entityCount (stats (takeDamage amount u)).
Proof. rewrite takeDamage_entityCount. apply Rmax_l. Qed.

Lemma addCombatExhaustion_stats amount u :
  stats (ExhaustionSystem.addCombatExhaustion amount u) = stats u.
Proof. reflexivity. Qed.

(** The entity count is never negative after damage: [takeDamage] leaves
    max(0, count - amount); the units that come out of a melee
    resolution and the target of a projectile hit have a count of at
    least 0; ranged fire leaves the shooter's count alone and a target of
    non-negative count non-negative. *)
Theorem entity_count_never_negative :
  (forall amount u,
      entityCount (stats (takeDamage amount u))
      = Rmax 0 (entityCount (stats u) - amount))
  /\ (forall unit1 unit2 dt visualEffects audio rnd k,
        let out := fst (CombatSystem.resolveMeleeCombat unit1 unit2 dt visualEffects audio rnd k) in
        0 <= entityCount (stats (fst out)) /\ 0 <= entityCount (stats (snd out)))
  /\ (forall p target rnd k,
        0 <= entityCount (stats (fst (CombatSystem.resolveProjectileHit p target rnd k))))
  /\ (forall shooter target visualEffects audio rnd k,
        let out := fst (CombatSystem.resolveMusketFire shooter target visualEffects audio rnd k) in
        stats (snd (fst out)) = stats shooter
        /\ (0 <= entityCount (stats target) -> 0 <= entityCount (stats (snd out)))).
Proof.
  split; [exact takeDamage_entityCount |]. split; [| split].
  - intros unit1 unit2 dt v a rnd k out.
    destruct (MeleeFacts.resolveMeleeCombat_result unit1 unit2 dt v a rnd k)
      as (H1 & H2 & _).
    fold out in H1, H2. cbv zeta in H1, H2. rewrite H1, H2.
    split; apply takeDamage_nonneg.
  - intros p target rnd k. unfold CombatSystem.resolveProjectileHit.
    unfold mbind, rng_bind, Rng.bind, Rng.random, mret, rng_ret, Rng.ret.
    destruct (gtb _ _); cbn [fst]; apply takeDamage_nonneg.
  - intros shooter target v a rnd k. cbv zeta.
    unfold CombatSystem.resolveMusketFire.
    destruct (negb _ && negb _); [now split |].
    unfold mbind, rng_bind, Rng.bind, Rng.random, mret, rng_ret, Rng.ret.
    match goal with
    | |- context [(if ?c then CombatSystem.calculateCannonAccuracy ?d ?m
                   else CombatSystem.calculateAccuracy ?d ?m) rnd k] =>
        destruct ((if c then CombatSystem.calculateCannonAccuracy d m
                   else CombatSystem.calculateAccuracy d m) rnd k) as [base k1]
    end.
    destruct (a && _); [now split |].
    destruct (negb _); [now split |].
    cbn [fst snd]. rewrite !addCombatExhaustion_stats.
    split; [reflexivity |]. intros _. apply takeDamage_nonneg.
Qed.

(** A unit locked in melee or in SQUARE formation does not move:
    [update] leaves its position, facing and movement target as they are
    and sets its speed and velocity to 0. *)
Theorem pinned_unit_does_not_move (deltaTime : R) (u : Unit) :
  isMeleeLocked (melee u) = true \/ formation u = Some SQUARE ->
  let u' := Unit_update deltaTime u in
  x (motion u') = x (motion u) /\ y (motion u') = y (motion u)
  /\ angle (motion u') = angle (motion u)
  /\ targetX (motion u') = targetX (motion u)
  /\ targetY (motion u') = targetY (motion u)
  /\ speed (motion u') = 0 /\ vx (motion u') = 0 /\ vy (motion u') = 0.
Proof.
  intros H. unfold Unit_update.
  assert (E : isMeleeLocked (melee u) || bool_decide (formation u = Some SQUARE) = true).
  { destruct H as [-> | H]; [reflexivity |].
    rewrite (bool_decide_eq_true_2 _ H). apply orb_true_r. }
  rewrite E. cbv zeta. repeat split; reflexivity.
Qed.

Lemma pinned_unit_does_not_move_witness :
  let u := setFormation (Some SQUARE) (setTarget 500 500 (newUnit 1 INFANTRY RED 100 100)) in
  x (motion (Unit_update (1 / 60) u)) = 100 /\ speed (motion (Unit_update (1 / 60) u)) = 0.
Proof.
  intros u.
  destruct (pinned_unit_does_not_move (1 / 60) u (or_intror eq_refl))
    as (Hx & _ & _ & _ & _ & Hs & _).
  split; [exact Hx | exact Hs].
Defined.

(** What [update] does to a unit that is free to move: some new motion,
    then the clamp to the canvas; the stats are not touched. *)
Lemma Unit_update_free deltaTime u :
  isMeleeLocked (melee u) = false -> formation u <> Some SQUARE ->
  exists m, Unit_update deltaTime u = clampToCanvas (set_motion m u).
Proof.
  intros Hl Hf. unfold Unit_update.
  rewrite Hl, (bool_decide_eq_false_2 _ Hf). cbn [orb].
  destruct (targetX (motion u)) as [tx |]; [| eauto].
  destruct (targetY (motion u)) as [ty |]; [| eauto].
  destruct (gtb _ 5); eauto.
Qed.

(** A unit that is free to move is inside the playfield after [update],
    at least its collision radius away from each edge (for a radius that
    fits: at most half the canvas height). *)
Theorem update_keeps_unit_on_canvas (deltaTime : R) (u : Unit) :
  isMeleeLocked (melee u) = false -> formation u <> Some SQUARE ->
  collisionRadius (stats u) <= CONFIG.CANVAS_HEIGHT / 2 ->
  let u' := Unit_update deltaTime u in
  let r := collisionRadius (stats u) in
  r <= x (motion u') <= CONFIG.CANVAS_WIDTH - r
  /\ r <= y (motion u') <= CONFIG.CANVAS_HEIGHT - r.
Proof.
  intros Hl Hf Hr. cbv zeta.
  destruct (Unit_update_free deltaTime u Hl Hf) as [m ->].
  unfold clampToCanvas; simpl.
  unfold CONFIG.CANVAS_HEIGHT, CONFIG.CANVAS_WIDTH in *.
  repeat split; try apply Rmax_l; apply Rmax_lub; try lra; apply Rmin_l.
Qed.

Lemma update_keeps_unit_on_canvas_witness :
  let u := setTarget 5000 (-300) (newUnit 1 CAVALRY RED 1190 10) in
  15 <= x (motion (Unit_update (1 / 10) u)) <= 1185
  /\ 15 <= y (motion (Unit_update (1 / 10) u)) <= 785.
Proof.
  intros u.
  assert (Hr : collisionRadius (stats u) <= CONFIG.CANVAS_HEIGHT / 2).
  { simpl. unfold CONFIG.CAVALRY.COLLISION_RADIUS, CONFIG.CANVAS_HEIGHT. lra. }
  pose proof (update_keeps_unit_on_canvas (1 / 10) u eq_refl ltac:(discriminate) Hr) as H.
  cbv zeta in H. simpl collisionRadius in H.
  unfold CONFIG.CAVALRY.COLLISION_RADIUS, CONFIG.CANVAS_WIDTH, CONFIG.CANVAS_HEIGHT in H.
  replace (1200 - 15) with 1185 in H by lra.
  replace (800 - 15) with 785 in H by lra.
  exact H.
Defined.

Lemma sign_step_bound d t : 0 <= t -> Rabs (sign d * Rmin (Rabs d) t) <= Rmin (Rabs d) t.
Proof.
  intros Ht.
  assert (Hm : 0 <= Rmin (Rabs d) t) by (apply Rmin_glb; [apply Rabs_pos | exact Ht]).
  unfold sign. destruct (Rlt_dec 0 d) as [H | H].
  - rewrite ltb_true by exact H. rewrite Rmult_1_l, Rabs_right; lra.
  - rewrite ltb_false by lra. destruct (Rlt_dec d 0) as [H' | H'].
    + rewrite ltb_true by exact H'.
      replace (-1 * Rmin (Rabs d) t) with (- Rmin (Rabs d) t) by ring.
      rewrite Rabs_Ropp, Rabs_right; lra.
    + rewrite ltb_false by lra. rewrite Rmult_0_l, Rabs_R0. exact Hm.
Qed.

(** The turn of one [update] is bounded: the facing changes by at most
    the turn rate (for a non-negative turn rate), whatever the movement
    target. *)
Theorem update_turn_is_bounded (deltaTime : R) (u : Unit) :
  0 <= turnRate (stats u) ->
  Rabs (angle (motion (Unit_update deltaTime u)) - angle (motion u))
  <= turnRate (stats u).
Proof.
  intros Ht.
  assert (H0 : Rabs (angle (motion u) - angle (motion u)) <= turnRate (stats u)).
  { replace (angle (motion u) - angle (motion u)) with 0 by ring.
    now rewrite Rabs_R0. }
  unfold Unit_update.
  destruct (isMeleeLocked (melee u) || bool_decide (formation u = Some SQUARE));
    [exact H0 |].
  destruct (targetX (motion u)) as [tx |]; [| exact H0].
  destruct (targetY (motion u)) as [ty |]; [| exact H0].
  destruct (gtb _ 5); [| exact H0].
  cbn [clampToCanvas set_motion motion angle set_x set_y stats].
  match goal with
  | |- Rabs (angle (motion u) + sign ?d * Rmin (Rabs ?d) ?t - angle (motion u)) <= _ =>
      replace (angle (motion u) + sign d * Rmin (Rabs d) t - angle (motion u))
        with (sign d * Rmin (Rabs d) t) by ring;
      apply Rle_trans with (Rmin (Rabs d) t);
      [apply sign_step_bound; exact Ht | apply Rmin_r]
  end.
Qed.

Lemma update_turn_is_bounded_witness :
  let u := setTarget 100 900 (newUnit 1 CANNON RED 100 100) in
  Rabs (angle (motion (Unit_update (1 / 60) u)) - angle (motion u)) <= 3 / 10.
Proof.
  intros u. apply (update_turn_is_bounded (1 / 60) u).
  simpl. unfold CONFIG.CANNON.TURN_RATE. lra.
Defined.

(** Formation modifiers never accumulate: a formation change overwrites
    whatever an earlier one set, so that two changes in a row leave the
    unit as the second alone does. *)
Theorem setFormation_overwrites (f f' : option Formation) (u : Unit) :
  setFormation f (setFormation f' u) = setFormation f u.
Proof. destruct f as [[] |]; reflexivity. Qed.

(** Toggling a formation twice: the unit ends in that formation if it
    was in it before, and with no formation otherwise (a different
    earlier formation is not restored). *)
Theorem toggleFormation_twice (f : Formation) (u : Unit) :
  formation (FormationSystem.toggleFormation f (FormationSystem.toggleFormation f u))
  = if bool_decide (formation u = Some f) then Some f else None.
Proof.
  unfold FormationSystem.toggleFormation at 2.
  destruct (bool_decide (formation u = Some f)).
  - unfold FormationSystem.toggleFormation.
    rewrite bool_decide_eq_false_2 by (simpl; discriminate). reflexivity.
  - unfold FormationSystem.toggleFormation.
    rewrite bool_decide_eq_true_2 by reflexivity. reflexivity.
Qed.

End UnitFacts.

(** ** Exhaustion: range of the scalar and of the multipliers *)

Module FatigueFacts.
Import JS JSFacts ExhaustionFacts.

(** Two fresh units: a melee tick, then a tick of 0.1 s. *)
Lemma exhaustion_stays_in_range_witness :
  let u := newUnit 1 INFANTRY RED 100 100 in
  inRange (ExhaustionSystem.update (1 / 10) (CombatSystem.meleeExhaustion u)).
Proof.
  intros u. apply (exhaustion_stays_in_range u).
  - unfold inRange, CONFIG.EXHAUSTION.MAX. simpl. lra.
  - eapply rtc_l; [apply step_melee |].
    eapply rtc_l; [apply (step_tick _ (1 / 10)); lra |]. apply rtc_refl.
Defined.

(** After the per-tick update or a volley, with the exhaustion within
    [0, 100], the speed multiplier is within [0.5, 1], the accuracy
    multiplier within [0.7, 1] and the reload multiplier within
    [1, 1.5]; a unit with more exhaustion has the lower speed and
    accuracy multipliers and the higher reload multiplier. *)
Theorem multipliers_within_bounds (u v : Unit) (dt : R) :
  0 <= dt -> 0 <= exhaustion (fatigue u) <= 100 ->
  0 <= exhaustion (fatigue v) <= 100 ->
  let u' := ExhaustionSystem.update dt u in
  let v' := ExhaustionSystem.addCombatExhaustion None v in
  (5 / 10 <= speedMultiplier (fatigue u') <= 1
   /\ 7 / 10 <= accuracyMultiplier (fatigue u') <= 1
   /\ 1 <= reloadMultiplier (fatigue u') <= 15 / 10)
  /\ (5 / 10 <= speedMultiplier (fatigue v') <= 1
      /\ 7 / 10 <= accuracyMultiplier (fatigue v') <= 1
      /\ 1 <= reloadMultiplier (fatigue v') <= 15 / 10)
  /\ (exhaustion (fatigue u') <= exhaustion (fatigue v') ->
      speedMultiplier (fatigue v') <= speedMultiplier (fatigue u')
      /\ accuracyMultiplier (fatigue v') <= accuracyMultiplier (fatigue u')
      /\ reloadMultiplier (fatigue u') <= reloadMultiplier (fatigue v')).
Proof.
  intros Hdt Hu Hv u' v'.
  pose proof (update_inRange u dt Hdt Hu) as Ru.
  pose proof (addCombatExhaustion_inRange v Hv) as Rv.
  pose proof (update_applied u dt) as (S1 & A1 & L1).
  pose proof (addCombatExhaustion_applied v None) as (S2 & A2 & L2).
  fold u' in Ru, S1, A1, L1. fold v' in Rv, S2, A2, L2.
  unfold inRange, CONFIG.EXHAUSTION.MAX in Ru, Rv.
  rewrite S1, A1, L1, S2, A2, L2.
  repeat split; lra.
Qed.

Lemma multipliers_within_bounds_witness :
  let u := on_motion (set_speed 50) (newUnit 1 INFANTRY RED 100 100) in
  5 / 10 <= speedMultiplier (fatigue (ExhaustionSystem.update (1 / 10) u)) <= 1.
Proof.
  intros u.
  assert (H : 0 <= exhaustion (fatigue u) <= 100) by (simpl; lra).
  destruct (multipliers_within_bounds u u (1 / 10) ltac:(lra) H H) as ((H1 & _) & _).
  exact H1.
Defined.

End FatigueFacts.

(** ** Ranged fire: accuracy and outcome *)

Module VolleyFacts.
Import JS JSFacts CombatSystem.

(** The base accuracy of a musket is a draw within the band of the
    distance: [0.8, 0.9) below 33% of the range, [0.5, 0.7) below 67%,
    [0.2, 0.4) beyond; that of a cannon is within [0.6, 0.75) up to 100
    pixels, [0.3, 0.45) up to 300 and [0.1, 0.25) beyond.  Each takes one
    random draw, here a number of [0, 1); the range is positive. *)
Theorem base_accuracy_bands (distance maxRange : R) (rnd : nat -> R) (k : nat) :
  0 < maxRange -> 0 <= rnd k < 1 ->
  let musket := calculateAccuracy distance maxRange rnd k in
  let cannon := calculateCannonAccuracy distance maxRange rnd k in
  snd musket = S k /\ snd cannon = S k
  /\ (distance / maxRange < 33 / 100 -> 80 / 100 <= fst musket < 90 / 100)
  /\ (33 / 100 <= distance / maxRange < 67 / 100 -> 50 / 100 <= fst musket < 70 / 100)
  /\ (67 / 100 <= distance / maxRange -> 20 / 100 <= fst musket < 40 / 100)
  /\ (distance <= 100 -> 60 / 100 <= fst cannon < 75 / 100)
  /\ (100 < distance <= 300 -> 30 / 100 <= fst cannon < 45 / 100)
  /\ (300 < distance -> 10 / 100 <= fst cannon < 25 / 100).
Proof.
  intros _ Hr. cbv zeta.
  unfold calculateAccuracy, calculateCannonAccuracy.
  unfold mbind, rng_bind, Rng.bind, Rng.random, mret, rng_ret, Rng.ret.
  unfold CONFIG.ACCURACY.SHORT_MIN, CONFIG.ACCURACY.SHORT_MAX,
    CONFIG.ACCURACY.MEDIUM_MIN, CONFIG.ACCURACY.MEDIUM_MAX,
    CONFIG.ACCURACY.LONG_MIN, CONFIG.ACCURACY.LONG_MAX,
    CONFIG.CANNON_ACCURACY.CLOSE_RANGE, CONFIG.CANNON_ACCURACY.MEDIUM_RANGE,
    CONFIG.CANNON_ACCURACY.CLOSE_MIN, CONFIG.CANNON_ACCURACY.CLOSE_MAX,
    CONFIG.CANNON_ACCURACY.MEDIUM_MIN, CONFIG.CANNON_ACCURACY.MEDIUM_MAX,
    CONFIG.CANNON_ACCURACY.LONG_MIN, CONFIG.CANNON_ACCURACY.LONG_MAX.
  split.
  { destruct (ltb _ (33 / 100)); [reflexivity |].
    destruct (ltb _ (67 / 100)); reflexivity. }
  split.
  { destruct (leb distance 100); [reflexivity |].
    destruct (leb distance 300); reflexivity. }
  repeat match goal with |- _ /\ _ => split end; intros Hb.
  all: try (rewrite ltb_true by lra; cbn [fst]; lra).
  all: try (rewrite (ltb_false _ (33 / 100)) by lra).
  all: try (rewrite (ltb_true _ (67 / 100)) by lra; cbn [fst]; lra).
  all: try (rewrite (ltb_false _ (67 / 100)) by lra; cbn [fst]; lra).
  all: try (rewrite leb_true by lra; cbn [fst]; lra).
  all: try (rewrite (leb_false distance 100) by lra).
  all: try (rewrite (leb_true distance 300) by lra; cbn [fst]; lra).
  all: try (rewrite (leb_false distance 300) by lra; cbn [fst]; lra).
Qed.

Lemma base_accuracy_bands_witness :
  80 / 100 <= fst (calculateAccuracy 40 250 (fun _ => 1 / 2) 0%nat) < 90 / 100.
Proof.
  destruct (base_accuracy_bands 40 250 (fun _ => 1 / 2) 0%nat ltac:(lra) ltac:(lra))
    as (_ & _ & H & _).
  apply H. lra.
Defined.

(** Point blank, below 20% of the fire range, the final accuracy is 0.95
    whatever the base accuracy, the formation and the exhaustion; beyond
    80% of the range it is a tenth of the modified base accuracy. *)
Theorem final_accuracy_extremes (shooter : Unit) (distance baseAccuracy : R) :
  let ratio := distance / num (fireRange (musket shooter)) in
  let modified :=
    baseAccuracy * or_num (accuracyBonus (modifiers shooter)) 1
    * or_num (accuracyMultiplier (fatigue shooter)) 1 in
  (ratio < 2 / 10 -> finalAccuracy shooter distance baseAccuracy = 95 / 100)
  /\ (2 / 10 <= ratio <= 8 / 10 ->
      finalAccuracy shooter distance baseAccuracy = modified)
  /\ (8 / 10 < ratio ->
      finalAccuracy shooter distance baseAccuracy = modified * (1 / 10)).
Proof.
  cbv zeta. unfold finalAccuracy, gtb.
  repeat match goal with |- _ /\ _ => split end; intros H.
  - now rewrite ltb_true by exact H.
  - rewrite ltb_false by lra. now rewrite ltb_false by lra.
  - rewrite ltb_false by lra. now rewrite ltb_true by lra.
Qed.

Lemma final_accuracy_extremes_witness :
  finalAccuracy (newUnit 1 INFANTRY RED 100 100) 40 (85 / 100) = 95 / 100.
Proof.
  apply (final_accuracy_extremes (newUnit 1 INFANTRY RED 100 100) 40 (85 / 100)).
  simpl. unfold CONFIG.INFANTRY.FIRE_RANGE. lra.
Defined.

(** The outcome of ranged fire, by the hit flag of its result.  Without a
    hit nothing changes: shooter and target come out as they went in, with
    no damage and no exhaustion (a miss, a shooter that is neither
    infantry nor cannon, a cannon that spawned a projectile).  With a hit,
    the damage is base damage x damage bonus x directional multiplier, the
    target takes it, and both units get the combat exhaustion. *)
Theorem ranged_fire_outcome (shooter target : Unit) (visualEffects audio : bool)
    (rnd : nat -> R) (k : nat) :
  let out := fst (resolveMusketFire shooter target visualEffects audio rnd k) in
  let res := fst (fst out) in
  (hit res = false ->
   damage res = 0 /\ snd (fst out) = shooter /\ snd out = target)
  /\ (hit res = true ->
      projectile res = None
      /\ damage res
         = baseDamage (stats shooter) * or_num (damageBonus (modifiers shooter)) 1
           * calculateDirectionalMultiplier shooter target
      /\ snd (fst out) = ExhaustionSystem.addCombatExhaustion None shooter
      /\ snd out
         = ExhaustionSystem.addCombatExhaustion None
             (takeDamage (damage res) target))
  /\ (type shooter = CAVALRY ->
      resolveMusketFire shooter target visualEffects audio rnd k
      = (miss, shooter, target, k)).
Proof.
  cbv zeta. unfold resolveMusketFire.
  destruct (negb (bool_decide (type shooter = INFANTRY))
            && negb (bool_decide (type shooter = CANNON))) eqn:Hty.
  { cbn. split; [intros _; repeat split |]. split; [intros Hh; discriminate Hh | reflexivity]. }
  assert (Hcav : type shooter <> CAVALRY).
  { intros Hc. rewrite Hc in Hty. discriminate Hty. }
  unfold mbind, rng_bind, Rng.bind, Rng.random, mret, rng_ret, Rng.ret.
  match goal with
  | |- context [(if ?c then calculateCannonAccuracy ?d ?m
                 else calculateAccuracy ?d ?m) rnd k] =>
      destruct ((if c then calculateCannonAccuracy d m
                 else calculateAccuracy d m) rnd k) as [base k1]
  end.
  destruct (audio && _).
  { cbn. split; [intros _; repeat split |]. split; [intros Hh; discriminate Hh | contradiction]. }
  clear Hty. destruct (negb (ltb _ _)).
  { cbn. split; [intros _; repeat split |]. split; [intros Hh; discriminate Hh | contradiction]. }
  cbn. split; [intros Hh; discriminate Hh |].
  split; [intros _; repeat split | contradiction].
Qed.

(** A cannon with an audio manager firing at infantry 50 pixels ahead. *)
Lemma cannon_fire_spawns_projectile_witness :
  hit (fst (fst (fst (resolveMusketFire FireFacts.gun FireFacts.squareAhead true true
                        (fun _ => 1 / 2) 0%nat)))) = false.
Proof.
  now rewrite (FireFacts.cannon_fire_spawns_projectile FireFacts.gun
                 FireFacts.squareAhead true (fun _ => 1 / 2) 0%nat eq_refl).
Defined.

End VolleyFacts.

(** ** Collisions *)

Module CollisionFacts.
Import JS JSFacts CombatSystem.

(** The push-back separates two overlapping units exactly: units at
    different positions, closer than the sum of their collision radii,
    come out at a distance equal to that sum, each moved by half the
    overlap along the line between them (their midpoint stays).  Units
    that do not overlap, or that are at the same position, are left as
    they are. *)
Theorem pushback_puts_units_in_contact (unit1 unit2 : Unit) :
  let d := GameEngine.distanceBetween unit1 unit2 in
  let minDistance := collisionRadius (stats unit1) + collisionRadius (stats unit2) in
  let out := applyPushBack unit1 unit2 in
  (0 < d < minDistance ->
   GameEngine.distanceBetween (fst out) (snd out) = minDistance
   /\ x (motion (fst out)) + x (motion (snd out))
      = x (motion unit1) + x (motion unit2)
   /\ y (motion (fst out)) + y (motion (snd out))
      = y (motion unit1) + y (motion unit2))
  /\ (d = 0 \/ minDistance <= d -> out = (unit1, unit2)).
Proof.
  cbv zeta. unfold GameEngine.distanceBetween, applyPushBack.
  set (dx := x (motion unit2) - x (motion unit1)).
  set (dy := y (motion unit2) - y (motion unit1)).
  set (d := sqrt (dx * dx + dy * dy)).
  set (m := collisionRadius (stats unit1) + collisionRadius (stats unit2)).
  assert (Hsq : d * d = dx * dx + dy * dy).
  { apply sqrt_sqrt. apply Rplus_le_le_0_compat; apply Rle_0_sqr. }
  split.
  - intros [Hd Hm].
    rewrite eqb_false by lra. unfold gtb. rewrite ltb_true by lra.
    cbn [fst snd on_motion set_motion motion set_x set_y x y].
    fold dx dy.
    assert (Ex : x (motion unit2) + dx / d * ((m - d) * (5 / 10))
                 - (x (motion unit1) - dx / d * ((m - d) * (5 / 10)))
                 = dx * (m / d)) by (unfold dx; field; lra).
    assert (Ey : y (motion unit2) + dy / d * ((m - d) * (5 / 10))
                 - (y (motion unit1) - dy / d * ((m - d) * (5 / 10)))
                 = dy * (m / d)) by (unfold dy; field; lra).
    split; [| split; ring].
    rewrite Ex, Ey. apply sqrt_lem_1.
    + apply Rplus_le_le_0_compat; apply Rle_0_sqr.
    + lra.
    + replace (dx * (m / d) * (dx * (m / d)) + dy * (m / d) * (dy * (m / d)))
        with ((dx * dx + dy * dy) * (m / d) * (m / d)) by ring.
      rewrite <- Hsq. field. lra.
  - intros [H0 | Hm].
    + now rewrite eqb_true by exact H0.
    + destruct (eqb d 0); [reflexivity |].
      unfold gtb. now rewrite ltb_false by lra.
Qed.

(** Infantry and cavalry 20 pixels apart, radii 12 and 15. *)
Lemma pushback_puts_units_in_contact_witness :
  let a := newUnit 1 INFANTRY RED 100 100 in
  let b := newUnit 2 CAVALRY RED 120 100 in
  GameEngine.distanceBetween (fst (applyPushBack a b)) (snd (applyPushBack a b)) = 27.
Proof.
  intros a b.
  destruct (pushback_puts_units_in_contact a b) as [H _]. cbv zeta in H.
  assert (Hd : GameEngine.distanceBetween a b = 20).
  { unfold GameEngine.distanceBetween; simpl. apply sqrt_lem_1; lra. }
  rewrite Hd in H.
  destruct H as (H & _).
  - simpl. unfold CONFIG.INFANTRY.COLLISION_RADIUS, CONFIG.CAVALRY.COLLISION_RADIUS. lra.
  - rewrite H. simpl.
    unfold CONFIG.INFANTRY.COLLISION_RADIUS, CONFIG.CAVALRY.COLLISION_RADIUS. lra.
Defined.

(** A cavalry unit flees once.  The morale check sets the fleeing flag
    and a retreat target at the unit's own table edge (x = 0 for RED,
    1200 for BLUE) the first time its health (count over a positive
    maximum) is below 30% after damage;
    a unit already fleeing, or one that is not cavalry, keeps its
    movement target and no random number is drawn. *)
Theorem cavalry_flees_once (amount : R) (u : Unit) (rnd : nat -> R) (k : nat) :
  let out := takeDamageAndMaybeFlee amount u rnd k in
  (type u <> CAVALRY \/ isFleeing (melee u) = true ->
   out = (takeDamage amount u, k))
  /\ (type u = CAVALRY -> isFleeing (melee u) = false ->
      0 < maxEntityCount (stats u) ->
      getHealthPercentage (takeDamage amount u) < 3 / 10 ->
      isFleeing (melee (fst out)) = true
      /\ targetX (motion (fst out))
         = Some (match team u with RED => 0 | BLUE => 1200 end)
      /\ targetY (motion (fst out))
         = Some (y (motion u) + (rnd k - 5 / 10) * 200)
      /\ snd out = S k).
Proof.
  cbv zeta. unfold takeDamageAndMaybeFlee.
  split.
  - intros [Hty | Hfl].
    + now rewrite (bool_decide_eq_false_2 _ Hty).
    + change (isFleeing (melee (takeDamage amount u))) with (isFleeing (melee u)).
      rewrite Hfl. now rewrite !andb_false_r.
  - intros Hty Hfl _ Hh.
    change (isFleeing (melee (takeDamage amount u))) with (isFleeing (melee u)).
    change (type (takeDamage amount u)) with (type u).
    rewrite (bool_decide_eq_true_2 _ Hty), Hfl, (ltb_true _ _ Hh).
    cbn. auto.
Qed.

(** A blue cavalry unit of 50 loses 40. *)
Lemma cavalry_flees_once_witness :
  let u := newUnit 1 CAVALRY BLUE 600 400 in
  targetX (motion (fst (takeDamageAndMaybeFlee 40 u (fun _ => 1 / 2) 0%nat))) = Some 1200.
Proof.
  intros u.
  destruct (cavalry_flees_once 40 u (fun _ => 1 / 2) 0%nat) as [_ H].
  cbv zeta in H. apply H; [reflexivity | reflexivity | |].
  { simpl. unfold CONFIG.CAVALRY.ENTITY_COUNT. lra. }
  unfold getHealthPercentage. rewrite UnitFacts.takeDamage_entityCount. simpl.
  unfold CONFIG.CAVALRY.ENTITY_COUNT. rewrite Rmax_right by lra. lra.
Defined.

End CollisionFacts.

(** ** The engine: registry, win check, targets *)

Module RegistryFacts.
Import JS JSFacts GameEngine.

Lemma checkWinCondition_fields g :
  store (checkWinCondition g) = store g
  /\ units (checkWinCondition g) = units g
  /\ selectedUnits (checkWinCondition g) = selectedUnits g
  /\ projectiles (checkWinCondition g) = projectiles g.
Proof.
  unfold checkWinCondition.
  destruct (_ && _); [now repeat split |]. destruct (_ && _); now repeat split.
Qed.

Lemma checkWinCondition_idem g :
  checkWinCondition (checkWinCondition g) = checkWinCondition g.
Proof.
  unfold checkWinCondition at 1.
  destruct (checkWinCondition_fields g) as (Es & Eu & _). rewrite Es, Eu.
  unfold checkWinCondition.
  destruct (Nat.eqb (length (List.filter (onTeam (store g) RED) (units g))) 0
            && _); [reflexivity |].
  destruct (Nat.eqb (length (List.filter (onTeam (store g) BLUE) (units g))) 0
            && _); reflexivity.
Qed.

Lemma win_check_cases_aux (g : Game) :
  let red := length (getUnitsByTeam RED g) in
  let blue := length (getUnitsByTeam BLUE g) in
  (red = 0%nat -> (0 < blue)%nat ->
   checkWinCondition g = set_outcome true (Some BLUE) g)
  /\ (blue = 0%nat -> (0 < red)%nat ->
      checkWinCondition g = set_outcome true (Some RED) g)
  /\ ((0 < red)%nat /\ (0 < blue)%nat \/ red = 0%nat /\ blue = 0%nat ->
      checkWinCondition g = g).
Proof.
  cbv zeta. unfold checkWinCondition, getUnitsByTeam.
  set (red := length (List.filter (onTeam (store g) RED) (units g))).
  set (blue := length (List.filter (onTeam (store g) BLUE) (units g))).
  repeat match goal with |- _ /\ _ => split end.
  - intros -> Hb. apply Nat.ltb_lt in Hb. now rewrite Hb.
  - intros -> Hr. destruct red; [lia |]. reflexivity.
  - intros [[Hr Hb] | [-> ->]]; [| reflexivity].
    destruct red; [lia |]. destruct blue; [lia |]. reflexivity.
Qed.

(** The win check: with no RED unit registered and at least one BLUE the
    game is over and BLUE wins; with no BLUE and at least one RED, RED
    wins; with units on both sides, or on neither (mutual destruction),
    nothing changes: no winner is declared and a game that was not over
    stays so. *)
Theorem win_check_cases (g : Game) :
  let red := length (getUnitsByTeam RED g) in
  let blue := length (getUnitsByTeam BLUE g) in
  (red = 0%nat -> (0 < blue)%nat ->
   checkWinCondition g = set_outcome true (Some BLUE) g)
  /\ (blue = 0%nat -> (0 < red)%nat ->
      checkWinCondition g = set_outcome true (Some RED) g)
  /\ ((0 < red)%nat /\ (0 < blue)%nat \/ red = 0%nat /\ blue = 0%nat ->
      checkWinCondition g = g).
Proof. apply win_check_cases_aux. Qed.

Lemma win_check_cases_witness :
  winner (checkWinCondition
            (snd (createUnit INFANTRY BLUE 900 400 (newGame true)))) = Some BLUE.
Proof.
  destruct (win_check_cases (snd (createUnit INFANTRY BLUE 900 400 (newGame true))))
    as [H _].
  cbv zeta in H. rewrite H; [reflexivity | reflexivity |].
  unfold getUnitsByTeam, onTeam. simpl. lia.
Defined.

(** The registry at the end of a tick.  When the game is on, the units
    that [update] leaves registered (and selected) were registered
    (selected) before and are alive in the new store: a unit at entity
    count 0 is gone by the end of the tick.  The win check has run on that
    registry: if it holds no RED unit and some BLUE unit the game is over
    with BLUE the winner, and the reverse. *)
Theorem tick_removes_the_dead (deltaTime now : R) (g : Game) (rnd : nat -> R) (k : nat) :
  gameOver g = false ->
  let g' := fst (update deltaTime now g rnd k) in
  (forall r, In r (units g') -> In r (units g) /\ alive (store g') r = true)
  /\ (forall r, In r (selectedUnits g') ->
        In r (selectedUnits g) /\ alive (store g') r = true)
  /\ (length (getUnitsByTeam RED g') = 0%nat ->
      (0 < length (getUnitsByTeam BLUE g'))%nat ->
      gameOver g' = true /\ winner g' = Some BLUE)
  /\ (length (getUnitsByTeam BLUE g') = 0%nat ->
      (0 < length (getUnitsByTeam RED g'))%nat ->
      gameOver g' = true /\ winner g' = Some RED).
Proof.
  intros Hover. cbv zeta. unfold update. rewrite Hover.
  unfold mbind, rng_bind, Rng.bind, mret, rng_ret, Rng.ret. cbn zeta.
  destruct (updateProjectiles _ _ _ _ rnd k) as [[ps st] k1].
  destruct (forEachM _ _ _ rnd k1) as [[st' ps'] k2].
  destruct (checkCollisions _ _ _ _ rnd k2) as [st'' k3].
  cbn [fst].
  match goal with |- context [checkWinCondition ?h] => set (g2 := h) end.
  destruct (checkWinCondition_fields g2) as (Es & Eu & Esel & _).
  rewrite Es, Eu, Esel.
  pose proof (checkWinCondition_idem g2) as Hg2.
  repeat match goal with |- _ /\ _ => split end.
  - intros r Hr. unfold g2 in Hr. cbn [units set_units set_selectedUnits] in Hr.
    apply filter_In in Hr as [Hr Ha]. split; [exact Hr | exact Ha].
  - intros r Hr. unfold g2 in Hr.
    cbn [selectedUnits set_units set_selectedUnits set_projectiles set_store set_gameTime] in Hr.
    apply filter_In in Hr as [Hr Ha]. split; [exact Hr | exact Ha].
  - intros Hr Hb.
    destruct (win_check_cases_aux (checkWinCondition g2)) as [H _].
    specialize (H Hr Hb). rewrite Hg2 in H. rewrite H. now split.
  - intros Hb Hr.
    destruct (win_check_cases_aux (checkWinCondition g2)) as (_ & H & _).
    specialize (H Hb Hr). rewrite Hg2 in H. rewrite H. now split.
Qed.

Definition openingGame : Game :=
  snd (createUnit INFANTRY BLUE 900 400 (newGame true)).

Lemma tick_removes_the_dead_witness :
  gameOver openingGame = false
  /\ (forall r,
        In r (units (fst (update (1 / 60) 0 openingGame (fun _ => 1 / 2) 0%nat))) ->
        In r (units openingGame)
        /\ alive (store (fst (update (1 / 60) 0 openingGame (fun _ => 1 / 2) 0%nat))) r
           = true).
Proof.
  split; [reflexivity |].
  apply (tick_removes_the_dead (1 / 60) 0 openingGame (fun _ => 1 / 2) 0%nat).
  reflexivity.
Defined.

(** Every registered reference points into the store. *)
Definition refsValid (g : Game) : Prop :=
  forall r, In r (units g) -> (r < length (store g))%nat.

(** Every registered unit has an id below the counter. *)
Definition idsBelowNext (g : Game) : Prop :=
  forall r u, In r (units g) -> store g !! r = Some u -> (id u < nextUnitId g)%Z.

(** [createUnit] appends one unit built by the constructor with the
    counter's value as id, registers it last, and leaves every unit
    registered before as it was; the new id differs from the id of every such
    unit, and the two registry invariants (references in the store, ids
    below the counter) are kept. *)
Theorem createUnit_fresh_id ty tm px py (g : Game) :
  refsValid g -> idsBelowNext g ->
  let r := fst (createUnit ty tm px py g) in
  let g' := snd (createUnit ty tm px py g) in
  store g' !! r = Some (newUnit (nextUnitId g) ty tm px py)
  /\ units g' = units g ++ [r]
  /\ ~ In r (units g)
  /\ (forall r0 u0, In r0 (units g) -> store g !! r0 = Some u0 ->
        store g' !! r0 = Some u0 /\ id u0 <> nextUnitId g)
  /\ refsValid g' /\ idsBelowNext g'.
Proof.
  intros Hv Hi. cbv zeta. unfold createUnit. cbn [fst snd store units nextUnitId].
  assert (Hnew : (store g ++ [newUnit (nextUnitId g) ty tm px py]) !! length (store g)
                 = Some (newUnit (nextUnitId g) ty tm px py)).
  { rewrite lookup_app_r by lia. now rewrite Nat.sub_diag. }
  repeat match goal with |- _ /\ _ => split end.
  - exact Hnew.
  - reflexivity.
  - intros Hin. apply Hv in Hin. lia.
  - intros r0 u0 Hin Hu. split.
    + rewrite lookup_app_l by (now apply Hv). exact Hu.
    + specialize (Hi r0 u0 Hin Hu). lia.
  - unfold refsValid. cbn [store units]. intros r0 Hin.
    rewrite length_app. cbn [length].
    apply in_app_or in Hin as [Hin | [<- | []]]; [apply Hv in Hin |]; lia.
  - unfold idsBelowNext. cbn [store units nextUnitId]. intros r0 u0 Hin Hu.
    apply in_app_or in Hin as [Hin | [<- | []]].
    + rewrite lookup_app_l in Hu by (now apply Hv).
      specialize (Hi r0 u0 Hin Hu). lia.
    + rewrite Hnew in Hu. injection Hu as <-. simpl. lia.
Qed.

Lemma createUnit_fresh_id_witness :
  units (snd (createUnit CAVALRY RED 100 100 openingGame)) = [0%nat; 1%nat].
Proof.
  assert (Hv : refsValid openingGame).
  { intros r [<- | []]. simpl. lia. }
  assert (Hi : idsBelowNext openingGame).
  { intros r u [<- | []] Hu. simpl in Hu. injection Hu as <-. simpl. lia. }
  destruct (createUnit_fresh_id CAVALRY RED 100 100 openingGame Hv Hi) as (_ & H & _).
  exact H.
Defined.

End RegistryFacts.

Module TargetFacts.
Import JS JSFacts GameEngine.

Section Nearest.
Variable st : list Unit.
Variable ok : Unit -> bool.
Variable dist : Unit -> R.

Definition scanStep (nearest : option (nat * R)) (r : nat) : option (nat * R) :=
  match st !! r with
  | None => nearest
  | Some e =>
      if ok e then
        match nearest with
        | Some (_, nearestDistance) =>
            if ltb (dist e) nearestDistance then Some (r, dist e) else nearest
        | None => Some (r, dist e)
        end
      else nearest
  end.

Definition good (seen : nat -> Prop) (acc : option (nat * R)) : Prop :=
  match acc with
  | None => forall r e, seen r -> st !! r = Some e -> ok e = false
  | Some (r, d) =>
      exists e, seen r /\ st !! r = Some e /\ ok e = true /\ d = dist e
        /\ forall r' e', seen r' -> st !! r' = Some e' -> ok e' = true -> d <= dist e'
  end.

Lemma good_ext seen seen' acc :
  (forall r, seen r <-> seen' r) -> good seen acc -> good seen' acc.
Proof.
  intros E. destruct acc as [[r d] |]; simpl.
  - intros (e & Hs & Hl & Ho & Hd & Hmin). exists e.
    repeat split; try assumption; [now apply E |].
    intros r' e' Hs'. apply Hmin. now apply E.
  - intros H r e Hs. apply H. now apply E.
Qed.

Lemma scanStep_good seen acc a :
  good seen acc -> good (fun r => seen r \/ r = a) (scanStep acc a).
Proof.
  intros Hg. unfold scanStep.
  destruct (st !! a) as [e |] eqn:Ea.
  - destruct (ok e) eqn:Eo.
    + destruct acc as [[r0 d0] |]; simpl in Hg.
      * destruct Hg as (e0 & Hs & Hl & Ho & Hd & Hmin).
        destruct (ltb (dist e) d0) eqn:El.
        -- apply ltb_spec in El. exists e.
           repeat split; try assumption; [now right |].
           intros r' e' [Hs' | ->] Hl' Ho'.
           ++ specialize (Hmin r' e' Hs' Hl' Ho'). lra.
           ++ rewrite Ea in Hl'. injection Hl' as <-. lra.
        -- assert (d0 <= dist e).
           { destruct (Rle_dec d0 (dist e)) as [H | H]; [exact H |].
             rewrite ltb_true in El by lra. discriminate El. }
           exists e0. repeat split; try assumption; [now left |].
           intros r' e' [Hs' | ->] Hl' Ho'.
           ++ now apply (Hmin r' e').
           ++ rewrite Ea in Hl'. now injection Hl' as <-.
      * exists e. repeat split; try assumption; [now right |].
        intros r' e' [Hs' | ->] Hl' Ho'.
        -- rewrite (Hg r' e' Hs' Hl') in Ho'. discriminate Ho'.
        -- rewrite Ea in Hl'. injection Hl' as <-. lra.
    + destruct acc as [[r0 d0] |]; simpl in Hg |- *.
      * destruct Hg as (e0 & Hs & Hl & Ho & Hd & Hmin).
        exists e0. repeat split; try assumption; [now left |].
        intros r' e' [Hs' | ->] Hl' Ho'.
        -- now apply (Hmin r' e').
        -- rewrite Ea in Hl'. injection Hl' as <-. rewrite Eo in Ho'. discriminate Ho'.
      * intros r' e' [Hs' | ->] Hl'.
        -- now apply (Hg r').
        -- rewrite Ea in Hl'. now injection Hl' as <-.
  - destruct acc as [[r0 d0] |]; simpl in Hg |- *.
    + destruct Hg as (e0 & Hs & Hl & Ho & Hd & Hmin).
      exists e0. repeat split; try assumption; [now left |].
      intros r' e' [Hs' | ->] Hl' Ho'.
      * now apply (Hmin r' e').
      * rewrite Ea in Hl'. discriminate Hl'.
    + intros r' e' [Hs' | ->] Hl'.
      * now apply (Hg r').
      * rewrite Ea in Hl'. discriminate Hl'.
Qed.

Lemma scan_good l : forall acc seen,
  good seen acc -> good (fun r => seen r \/ In r l) (foldl scanStep acc l).
Proof.
  induction l as [| a l IH]; intros acc seen Hg.
  - apply (good_ext seen); [| exact Hg]. intros r. simpl. tauto.
  - cbn [foldl].
    apply (good_ext (fun r => (seen r \/ r = a) \/ In r l)).
    + intros r. simpl. intuition congruence.
    + apply IH. now apply scanStep_good.
Qed.

End Nearest.

Lemma foldl_pointwise {A B} (f f' : A -> B -> A) (l : list B) :
  (forall a b, f a b = f' a b) -> forall a, foldl f a l = foldl f' a l.
Proof.
  intros E. induction l as [| b l IH]; intros a; [reflexivity |].
  cbn [foldl]. rewrite E. apply IH.
Qed.

(** What makes the unit at [r] a target that [unit] may acquire. *)
Definition validTarget (st : list Unit) (rs : list nat) (unit : Unit)
    (r : nat) (enemy : Unit) : Prop :=
  In r rs /\ st !! r = Some enemy
  /\ team enemy <> team unit /\ isDead enemy = false
  /\ distanceBetween unit enemy <= num (fireRange (musket unit))
  /\ CombatSystem.isInFireArc unit enemy = true
  /\ LOSSystem.hasLOS (LOSSystem.checkLOS unit enemy (objects st rs) None) = true.

(** [acquireTarget]: cavalry acquires nothing.  For infantry and cannon the
    result, when there is one, is a registered living enemy within fire
    range, inside the fire arc and in line of sight, and no other such
    enemy is nearer; when there is none, no registered unit is such an
    enemy. *)
Theorem acquireTarget_nearest (st : list Unit) (rs : list nat) (unit : Unit) :
  (ReloadSystem.ranged unit = false -> acquireTarget st rs unit = None)
  /\ (ReloadSystem.ranged unit = true ->
      match acquireTarget st rs unit with
      | Some r =>
          exists enemy, validTarget st rs unit r enemy
            /\ forall r' e', validTarget st rs unit r' e' ->
                 distanceBetween unit enemy <= distanceBetween unit e'
      | None => forall r' e', ~ validTarget st rs unit r' e'
      end).
Proof.
  split; intros Hr; unfold acquireTarget; rewrite Hr; [reflexivity |].
  cbn [negb]. cbv zeta.
  set (ok := fun enemy : Unit =>
         negb (gtb (distanceBetween unit enemy) (num (fireRange (musket unit))))
         && CombatSystem.isInFireArc unit enemy
         && LOSSystem.hasLOS (LOSSystem.checkLOS unit enemy (objects st rs) None)).
  set (enemies := List.filter _ rs).
  rewrite (foldl_pointwise _ (scanStep st ok (distanceBetween unit))).
  2:{ intros acc r. unfold scanStep, ok. destruct (st !! r) as [e |]; [| reflexivity].
      destruct (gtb _ _); [reflexivity |].
      destruct (CombatSystem.isInFireArc unit e); [| reflexivity].
      destruct (LOSSystem.hasLOS _); reflexivity. }
  assert (Hen : forall r e, st !! r = Some e ->
            (In r enemies <-> In r rs /\ team e <> team unit /\ isDead e = false)).
  { intros r e Hl. unfold enemies. rewrite filter_In, Hl.
    destruct (decide (team e = team unit)) as [Ht | Ht].
    - rewrite bool_decide_eq_true_2 by exact Ht. simpl. intuition discriminate.
    - rewrite bool_decide_eq_false_2 by exact Ht. simpl.
      destruct (isDead e); simpl; intuition discriminate. }
  assert (Hok : forall e, ok e = true <->
            distanceBetween unit e <= num (fireRange (musket unit))
            /\ CombatSystem.isInFireArc unit e = true
            /\ LOSSystem.hasLOS (LOSSystem.checkLOS unit e (objects st rs) None) = true).
  { intros e. unfold ok, gtb. rewrite !andb_true_iff, negb_true_iff.
    assert (ltb (num (fireRange (musket unit))) (distanceBetween unit e) = false
            <-> distanceBetween unit e <= num (fireRange (musket unit))) as ->.
    { split.
      - intros Hf. destruct (Rle_dec (distanceBetween unit e) (num (fireRange (musket unit))))
          as [H | H]; [exact H |]. rewrite ltb_true in Hf by lra. discriminate Hf.
      - apply ltb_false. }
    tauto. }
  pose proof (scan_good st ok (distanceBetween unit) enemies None (fun _ => False)) as Hg.
  assert (H0 : good st ok (distanceBetween unit) (fun _ => False) None).
  { intros r e []. }
  specialize (Hg H0). clear H0.
  destruct (foldl _ None enemies) as [[r d] |]; simpl in Hg |- *.
  - destruct Hg as (e & [[] | Hin] & Hl & Ho & -> & Hmin).
    exists e. split.
    + apply (Hen r e Hl) in Hin. apply Hok in Ho. unfold validTarget. tauto.
    + intros r' e' (Hin' & Hl' & Ht' & Hd' & Hv').
      apply (Hmin r' e'); [right; apply (Hen r' e' Hl'); tauto | exact Hl' |].
      apply Hok. exact Hv'.
  - intros r' e' (Hin' & Hl' & Ht' & Hd' & Hv').
    apply Hok in Hv'. rewrite (Hg r' e') in Hv'; [discriminate Hv' | | exact Hl'].
    right. apply (Hen r' e' Hl'). tauto.
Qed.

End TargetFacts.

(** ** Cannonballs *)

Module BallisticsFacts.
Import JS JSFacts GameEngine.

(** The ball after the updates of a list of ticks, first tick first. *)
Definition flight (dts : list R) (p : Projectile) : Projectile :=
  foldl (fun p dt => Projectile_update dt p) p dts.

Definition elapsed (dts : list R) : R := foldr Rplus 0 dts.

(** The ball is at distance [L] from its start in direction [a] and flies
    in that direction. *)
Definition onLine (a L : R) (p : Projectile) : Prop :=
  p_x p = p_startX p + cos a * L /\ p_y p = p_startY p + sin a * L
  /\ p_vx p = cos a * p_speed p /\ p_vy p = sin a * p_speed p.

Lemma update_onLine a L dt p :
  onLine a L p -> onLine a (L + p_speed p * dt) (Projectile_update dt p).
Proof.
  intros (Hx & Hy & Hvx & Hvy). unfold onLine, Projectile_update. cbn.
  rewrite Hx, Hy, Hvx, Hvy. repeat split; ring.
Qed.

Lemma update_constants dt p :
  p_startX (Projectile_update dt p) = p_startX p
  /\ p_startY (Projectile_update dt p) = p_startY p
  /\ p_speed (Projectile_update dt p) = p_speed p
  /\ p_range (Projectile_update dt p) = p_range p.
Proof. now repeat split. Qed.

Lemma flight_snoc dts dt p :
  flight (dts ++ [dt]) p = Projectile_update dt (flight dts p).
Proof. unfold flight. now rewrite foldl_app. Qed.

Lemma elapsed_snoc dts dt : elapsed (dts ++ [dt]) = elapsed dts + dt.
Proof.
  unfold elapsed. induction dts as [| d dts IH]; simpl; [lra |]. rewrite IH. lra.
Qed.

Lemma flight_onLine a L p dts :
  onLine a L p ->
  onLine a (L + p_speed p * elapsed dts) (flight dts p)
  /\ p_startX (flight dts p) = p_startX p
  /\ p_startY (flight dts p) = p_startY p
  /\ p_speed (flight dts p) = p_speed p
  /\ p_range (flight dts p) = p_range p.
Proof.
  intros H0. induction dts as [| dt dts IH] using rev_ind.
  - unfold flight, elapsed. simpl.
    replace (L + p_speed p * 0) with L by ring.
    split; [exact H0 | now repeat split].
  - destruct IH as (Hl & Hsx & Hsy & Hsp & Hr).
    rewrite flight_snoc, elapsed_snoc.
    destruct (update_constants dt (flight dts p)) as (Ex & Ey & Es & Er).
    rewrite Ex, Ey, Es, Er. split; [| now repeat split].
    replace (L + p_speed p * (elapsed dts + dt))
      with (L + p_speed p * elapsed dts + p_speed (flight dts p) * dt)
      by (rewrite Hsp; ring).
    now apply update_onLine.
Qed.

Lemma update_live dt p :
  p_isDead (Projectile_update dt p) = false ->
  let q := Projectile_update dt p in
  sqrt ((p_x q - p_startX p) ^ 2 + (p_y q - p_startY p) ^ 2) <= p_range p
  /\ 0 <= p_x q <= CONFIG.CANVAS_WIDTH /\ 0 <= p_y q <= CONFIG.CANVAS_HEIGHT
  /\ p_isDead p = false.
Proof.
  unfold Projectile_update. cbn. unfold gtb.
  set (nx := p_x p + p_vx p * dt). set (ny := p_y p + p_vy p * dt).
  set (d := sqrt _).
  destruct (Rlt_dec nx 0) as [H1 | H1];
    [rewrite (ltb_true nx 0) by exact H1; intros H; discriminate H |].
  rewrite (ltb_false nx 0) by lra.
  destruct (Rlt_dec CONFIG.CANVAS_WIDTH nx) as [H2 | H2];
    [rewrite (ltb_true _ nx) by exact H2; intros H; discriminate H |].
  rewrite (ltb_false _ nx) by lra.
  destruct (Rlt_dec ny 0) as [H3 | H3];
    [rewrite (ltb_true ny 0) by exact H3; intros H; discriminate H |].
  rewrite (ltb_false ny 0) by lra.
  destruct (Rlt_dec CONFIG.CANVAS_HEIGHT ny) as [H4 | H4];
    [rewrite (ltb_true _ ny) by exact H4; intros H; discriminate H |].
  rewrite (ltb_false _ ny) by lra. cbn [orb].
  destruct (Rlt_dec (p_range p) d) as [H5 | H5];
    [rewrite (ltb_true _ d) by exact H5; intros H; discriminate H |].
  rewrite (ltb_false _ d) by lra.
  intros H. repeat split; try lra. exact H.
Qed.

Lemma sqrt_on_line a L : sqrt ((cos a * L) ^ 2 + (sin a * L) ^ 2) = Rabs L.
Proof.
  replace ((cos a * L) ^ 2 + (sin a * L) ^ 2)
    with (Rsqr L * (Rsqr (sin a) + Rsqr (cos a))) by (unfold Rsqr; ring).
  rewrite sin2_cos2, Rmult_1_r. apply sqrt_Rsqr_abs.
Qed.

(** A cannonball flies straight: after any ticks it is at 20 + speed x
    elapsed time from the muzzle position (px, py), in the direction it was
    fired.  If it is still live after at least one tick, that distance is
    within its range and the ball is on the canvas. *)
Theorem cannonball_flies_straight (px py ang spd dmg : R) (tm : Team) (rng : R)
    (dts : list R) :
  let p := flight dts (newProjectile px py ang spd dmg tm rng) in
  let L := 20 + spd * elapsed dts in
  p_x p = px + cos ang * L /\ p_y p = py + sin ang * L
  /\ (dts <> [] -> p_isDead p = false ->
      Rabs L <= rng
      /\ 0 <= p_x p <= CONFIG.CANVAS_WIDTH /\ 0 <= p_y p <= CONFIG.CANVAS_HEIGHT).
Proof.
  cbv zeta.
  assert (H0 : onLine ang 20 (newProjectile px py ang spd dmg tm rng)).
  { unfold onLine, newProjectile. cbn. now repeat split. }
  destruct (flight_onLine ang 20 _ dts H0) as ((Hx & Hy & _) & Hsx & Hsy & _).
  rewrite Hsx in Hx. rewrite Hsy in Hy. cbn in Hx, Hy.
  split; [exact Hx |]. split; [exact Hy |].
  intros Hne Hlive. clear Hx Hy Hsx Hsy.
  destruct dts as [| d0 dts0] using rev_ind; [contradiction |]. clear IHdts0 Hne.
  rewrite flight_snoc in Hlive |- *.
  destruct (flight_onLine ang 20 _ dts0 H0) as (Hl & Hsx & Hsy & Hsp & Hr).
  apply (update_onLine _ _ d0) in Hl. rewrite Hsp in Hl.
  destruct Hl as (Hx & Hy & _).
  apply update_live in Hlive. cbv zeta in Hlive.
  destruct Hlive as (Hd & Hbx & Hby & _).
  rewrite Hx, Hy in Hd. destruct (update_constants d0 (flight dts0 (newProjectile px py ang spd dmg tm rng)))
    as (Ex & Ey & _). rewrite Ex, Ey in Hd.
  replace (p_startX (flight dts0 (newProjectile px py ang spd dmg tm rng))
           + cos ang * (20 + p_speed (newProjectile px py ang spd dmg tm rng) * elapsed dts0
                        + p_speed (newProjectile px py ang spd dmg tm rng) * d0)
           - p_startX (flight dts0 (newProjectile px py ang spd dmg tm rng)))
    with (cos ang * (20 + spd * elapsed (dts0 ++ [d0]))) in Hd
    by (rewrite elapsed_snoc; cbn; ring).
  replace (p_startY (flight dts0 (newProjectile px py ang spd dmg tm rng))
           + sin ang * (20 + p_speed (newProjectile px py ang spd dmg tm rng) * elapsed dts0
                        + p_speed (newProjectile px py ang spd dmg tm rng) * d0)
           - p_startY (flight dts0 (newProjectile px py ang spd dmg tm rng)))
    with (sin ang * (20 + spd * elapsed (dts0 ++ [d0]))) in Hd
    by (rewrite elapsed_snoc; cbn; ring).
  rewrite sqrt_on_line, Hr in Hd. cbn in Hd.
  split; [exact Hd |]. split; assumption.
Qed.

Lemma cannonball_flies_straight_witness :
  p_x (flight [1 / 10] (newProjectile 100 400 0 300 40 RED 450)) = 100 + cos 0 * 50.
Proof.
  destruct (cannonball_flies_straight 100 400 0 300 40 RED 450 [1 / 10]) as (H & _).
  rewrite H. f_equal. unfold elapsed. simpl. lra.
Defined.

(** The projectile pass of a tick keeps only live balls: each ball that
    remains is the update of a ball that was there, it is not dead, and no
    ball is added. *)
Theorem projectile_pass_keeps_live_balls (deltaTime : R) (rs : list nat)
    (ps : list Projectile) (st : list Unit) (rnd : nat -> R) (k : nat) :
  let ps' := fst (fst (updateProjectiles deltaTime rs ps st rnd k)) in
  (length ps' <= length ps)%nat
  /\ forall p', In p' ps' ->
       p_isDead p' = false
       /\ exists p, In p ps /\ p' = Projectile_update deltaTime p.
Proof.
  cbv zeta. revert k. induction ps as [| p rest IH]; intros k.
  - cbn. split; [lia | intros p' []].
  - cbn [updateProjectiles].
    unfold mbind, rng_bind, Rng.bind, mret, rng_ret, Rng.ret.
    specialize (IH k).
    destruct (updateProjectiles deltaTime rs rest st rnd k) as [[rest' st'] k1].
    cbn [fst snd] in IH. destruct IH as [Hlen IH].
    assert (Hrest : forall p', In p' rest' ->
              p_isDead p' = false
              /\ exists p0, In p0 (p :: rest) /\ p' = Projectile_update deltaTime p0).
    { intros p' Hin. destruct (IH p' Hin) as (Hd & p0 & Hin0 & E).
      split; [exact Hd |]. exists p0. split; [now right | exact E]. }
    destruct (p_isDead (Projectile_update deltaTime p)) eqn:Hdead.
    { cbn [fst length]. split; [lia | exact Hrest]. }
    destruct (struckUnit st' rs (Projectile_update deltaTime p)) as [r |].
    + destruct (st' !! r) as [unit |].
      * destruct (CombatSystem.resolveProjectileHit _ unit rnd k1) as [unit' k2].
        cbn [fst length]. split; [lia | exact Hrest].
      * cbn [fst length]. split; [lia | exact Hrest].
    + cbn [fst length]. split; [lia |].
      intros p' [<- | Hin]; [| now apply Hrest].
      split; [exact Hdead |]. exists p. split; [now left | reflexivity].
Qed.

End BallisticsFacts.

(** ** Reloading *)

Module ReloadFacts.
Import JS JSFacts ReloadSystem.

Lemma geb_true a b : b <= a -> geb a b = true.
Proof. intros H. unfold geb. now apply leb_true. Qed.

Lemma geb_false a b : a < b -> geb a b = false.
Proof. intros H. unfold geb. now apply leb_false. Qed.

(** The reload cycle of infantry and cannon.  [startReload] leaves the
    unit reloading at progress 0 and unable to fire.  A tick of
    [updateReload] on a reloading unit (of positive reload duration) adds
    deltaTime / reloadDuration to
    the progress: below 1 the unit keeps reloading and cannot fire; from 1
    on the reload is complete, the progress is back at 0 and the unit can
    fire.  A unit that is not reloading is left alone. *)
Theorem reload_cycle (now deltaTime : R) (d : option R) (u : Unit) :
  ranged u = true ->
  let progress :=
    num (reloadProgress (musket u)) + deltaTime / num (reloadDuration (musket u)) in
  (canFire_ (startReload now d u) = false
   /\ isReloading (musket (startReload now d u)) = Some true
   /\ reloadProgress (musket (startReload now d u)) = Some 0
   /\ getRemainingTime (startReload now d u)
      = num (reloadDuration (musket (startReload now d u))))
  /\ (truthy (isReloading (musket u)) = true ->
      0 < num (reloadDuration (musket u)) -> progress < 1 ->
      canFire_ (updateReload deltaTime u) = false
      /\ reloadProgress (musket (updateReload deltaTime u)) = Some progress
      /\ isReloading (musket (updateReload deltaTime u)) = isReloading (musket u))
  /\ (truthy (isReloading (musket u)) = true ->
      0 < num (reloadDuration (musket u)) -> 1 <= progress ->
      canFire_ (updateReload deltaTime u) = true
      /\ reloadProgress (musket (updateReload deltaTime u)) = Some 0
      /\ getRemainingTime (updateReload deltaTime u) = 0)
  /\ (truthy (isReloading (musket u)) = false -> updateReload deltaTime u = u).
Proof.
  intros Hr. cbv zeta.
  assert (Hr' : forall f, ranged (on_musket f u) = true) by (intros f; exact Hr).
  repeat match goal with |- _ /\ _ => split end.
  - unfold canFire_, startReload. rewrite Hr. cbn [negb]. rewrite Hr'. reflexivity.
  - unfold startReload. rewrite Hr. reflexivity.
  - unfold startReload. rewrite Hr. reflexivity.
  - unfold getRemainingTime, startReload. rewrite Hr. cbn [negb]. rewrite Hr'.
    cbn. ring.
  - intros Hrel _ Hp. unfold updateReload. rewrite Hr, Hrel. cbn [negb].
    rewrite geb_false by exact Hp.
    unfold canFire_. rewrite Hr'. cbn [negb].
    assert (E : forall v, isReloading (musket (on_musket (set_reloadProgress v) u))
                          = isReloading (musket u)) by reflexivity.
    rewrite E, Hrel. rewrite andb_false_r. now repeat split.
  - intros Hrel _ Hp. unfold updateReload. rewrite Hr, Hrel. cbn [negb].
    rewrite geb_true by exact Hp.
    set (u1 := on_musket _ u).
    assert (H1 : ranged u1 = true) by exact Hr.
    unfold completeReload. rewrite H1. cbn [negb].
    assert (H2 : forall f, ranged (on_musket f u1) = true) by (intros f; exact Hr).
    unfold canFire_, getRemainingTime. rewrite !H2. now repeat split.
  - intros Hrel. unfold updateReload. rewrite Hr, Hrel. reflexivity.
Qed.

Lemma reload_cycle_witness :
  canFire_ (startReload 0 None (newUnit 1 INFANTRY RED 100 100)) = false.
Proof.
  apply (reload_cycle 0 0 None (newUnit 1 INFANTRY RED 100 100)). reflexivity.
Defined.

(** Cavalry has no musket: the reload functions leave it as it is, it can
    never fire and its remaining reload time is 0. *)
Theorem cavalry_never_reloads (now deltaTime : R) (d : option R) (u : Unit) :
  type u = CAVALRY ->
  startReload now d u = u /\ updateReload deltaTime u = u /\ completeReload u = u
  /\ canFire_ u = false /\ getRemainingTime u = 0
  /\ GameEngine.reloadUnit deltaTime u = u.
Proof.
  intros Hc.
  assert (Hr : ranged u = false) by (unfold ranged; now rewrite Hc).
  unfold startReload, updateReload, completeReload, canFire_, getRemainingTime,
    GameEngine.reloadUnit.
  rewrite Hr. now repeat split.
Qed.

Lemma cavalry_never_reloads_witness :
  canFire_ (newUnit 7 CAVALRY BLUE 900 400) = false.
Proof.
  apply (cavalry_never_reloads 0 0 None (newUnit 7 CAVALRY BLUE 900 400)). reflexivity.
Defined.

Lemma resolveMusketFire_shooter shooter target ve audio rnd k :
  let s' := snd (fst (fst (CombatSystem.resolveMusketFire shooter target ve audio rnd k))) in
  s' = shooter \/ s' = ExhaustionSystem.addCombatExhaustion None shooter.
Proof.
  cbv zeta. unfold CombatSystem.resolveMusketFire.
  destruct (negb (bool_decide (type shooter = INFANTRY))
            && negb (bool_decide (type shooter = CANNON))); [now left |].
  unfold mbind, rng_bind, Rng.bind, Rng.random, mret, rng_ret, Rng.ret.
  match goal with
  | |- context [(if ?c then CombatSystem.calculateCannonAccuracy ?d ?m
                 else CombatSystem.calculateAccuracy ?d ?m) rnd k] =>
      destruct ((if c then CombatSystem.calculateCannonAccuracy d m
                 else CombatSystem.calculateAccuracy d m) rnd k) as [base k1]
  end.
  destruct (audio && _); [now left |].
  destruct (negb (ltb _ _)); [now left | now right].
Qed.

(** A volley of the engine.  A unit that fires at its target (another
    unit) ends the step reloading, unable to fire, with its last fire time
    the current clock.  Its stored reload duration is the duration it had
    (15 when that is 0) multiplied by its formation's fire rate bonus and
    by its exhaustion reload multiplier: the factors are applied to the
    stored value again at every shot. *)
Theorem volley_starts_reload (now : R) (audio : bool) (r t : nat)
    (st : list Unit) (ps : list Projectile) (unit target : Unit)
    (rnd : nat -> R) (k : nat) :
  st !! r = Some unit -> currentTarget (musket unit) = Some t ->
  st !! t = Some target -> t <> r ->
  canFire_ unit = true ->
  exists u',
    fst (fst (GameEngine.autoFire now audio r (st, ps) rnd k)) !! r = Some u'
    /\ canFire_ u' = false
    /\ isReloading (musket u') = Some true
    /\ reloadProgress (musket u') = Some 0
    /\ lastFireTime (musket u') = Some now
    /\ reloadDuration (musket u')
       = Some (or_num (num (reloadDuration (musket unit))) 15
               * or_num (fireRateBonus (modifiers unit)) 1
               * or_num (reloadMultiplier (fatigue u')) 1).
Proof.
  intros Hu Ht Htg Hne Hcan.
  assert (Hr : ranged unit = true).
  { unfold canFire_ in Hcan. destruct (ranged unit); [reflexivity | discriminate Hcan]. }
  unfold canFire_ in Hcan. rewrite Hr in Hcan. cbn [negb] in Hcan.
  unfold GameEngine.autoFire. rewrite Hu, Ht, Hr. cbn [andb]. rewrite Hcan, Htg.
  unfold mbind, rng_bind, Rng.bind, mret, rng_ret, Rng.ret.
  pose proof (resolveMusketFire_shooter unit target true audio rnd k) as Hs.
  cbv zeta in Hs.
  destruct (CombatSystem.resolveMusketFire unit target true audio rnd k)
    as [[[res s'] t'] k1].
  cbn [fst snd] in Hs |- *.
  assert (Hm : musket s' = musket unit /\ modifiers s' = modifiers unit
               /\ ranged s' = true).
  { destruct Hs as [-> | ->]; now repeat split. }
  destruct Hm as (Hmu & Hmo & Hrs).
  eexists. split.
  { apply list_lookup_insert_eq. rewrite length_insert.
    apply lookup_lt_Some in Hu. exact Hu. }
  set (u1 := on_musket (set_isReloading (Some true)) s').
  assert (H1 : ranged u1 = true) by exact Hrs.
  assert (H2 : forall f, ranged (on_musket f u1) = true) by (intros f; exact Hrs).
  assert (E1 : reloadDuration (musket u1) = reloadDuration (musket unit))
    by (unfold u1; cbn; now rewrite Hmu).
  assert (E2 : modifiers u1 = modifiers unit) by exact Hmo.
  unfold startReload. rewrite H1. cbn [negb].
  unfold canFire_. rewrite H2. cbn [negb].
  unfold CONFIG.INFANTRY.RELOAD_DURATION. rewrite E1, E2.
  repeat match goal with |- _ /\ _ => split end; reflexivity.
Qed.

(** A fresh infantry unit firing on a cavalry unit 100 pixels ahead. *)
Lemma volley_starts_reload_witness :
  exists u',
    fst (fst (GameEngine.autoFire 0 false 0%nat
                ([on_musket (set_currentTarget (Some 1%nat)) (newUnit 1 INFANTRY RED 100 100);
                  newUnit 2 CAVALRY BLUE 200 100], [])
                (fun _ => 1 / 2) 0%nat)) !! 0%nat = Some u'
    /\ canFire_ u' = false.
Proof.
  destruct (volley_starts_reload 0 false 0%nat 1%nat
              [on_musket (set_currentTarget (Some 1%nat)) (newUnit 1 INFANTRY RED 100 100);
               newUnit 2 CAVALRY BLUE 200 100] []
              (on_musket (set_currentTarget (Some 1%nat)) (newUnit 1 INFANTRY RED 100 100))
              (newUnit 2 CAVALRY BLUE 200 100) (fun _ => 1 / 2) 0%nat)
    as (u' & H1 & H2 & _); try reflexivity; [lia |].
  exists u'. now split.
Defined.

End ReloadFacts.

(** ** Formation slots *)

Module FormationFacts.
Import JS JSFacts FormationSystem.

Lemma sqrt_cos_sin a L :
  sqrt (cos a * L * (cos a * L) + sin a * L * (sin a * L)) = Rabs L.
Proof.
  replace (cos a * L * (cos a * L) + sin a * L * (sin a * L))
    with (Rsqr L * (Rsqr (sin a) + Rsqr (cos a))) by (unfold Rsqr; ring).
  rewrite sin2_cos2, Rmult_1_r. apply sqrt_Rsqr_abs.
Qed.

Lemma pos_unit_imap {A} (g : nat -> A -> Position A) (l : list A) :
  (forall i a, pos_unit (g i a) = a) -> map pos_unit (imap g l) = l.
Proof.
  intros Hg. revert g Hg. induction l as [| a l IH]; intros g Hg; [reflexivity |].
  cbn [imap map]. rewrite Hg. f_equal. apply IH. intros i b. apply Hg.
Qed.

Lemma In_imap {A B} (g : nat -> A -> B) (l : list A) (b : B) :
  In b (imap g l) -> exists i a, l !! i = Some a /\ b = g i a.
Proof.
  intros H. apply list_elem_of_In, elem_of_lookup_imap in H.
  destruct H as (i & a & E & Hl). now exists i, a.
Qed.

(** The slots of a group order.  Every selected unit gets one slot, in the
    order of the selection, and all slots carry the same facing.  With no
    formation the group is translated rigidly: every slot is its unit's
    position moved by one common vector.  In LINE and in COLUMN
    neighbouring slots are exactly 30 pixels apart, and the head of a
    COLUMN is the target point itself. *)
Theorem formation_slots {A : Type} (obj : A -> Unit) (sel : list A)
    (targetX targetY : R) (f : option Formation) :
  let ps := calculateFormationPositions obj sel targetX targetY f in
  map pos_unit ps = sel
  /\ (forall p q, In p ps -> In q ps -> pos_angle p = pos_angle q)
  /\ (f = None ->
      exists dx dy, forall p, In p ps ->
        pos_x p = x (motion (obj (pos_unit p))) + dx
        /\ pos_y p = y (motion (obj (pos_unit p))) + dy)
  /\ (f = Some LINE \/ f = Some COLUMN ->
      forall i p q, ps !! i = Some p -> ps !! S i = Some q ->
        sqrt ((pos_x q - pos_x p) * (pos_x q - pos_x p)
              + (pos_y q - pos_y p) * (pos_y q - pos_y p)) = 30)
  /\ (f = Some COLUMN ->
      forall p, ps !! 0%nat = Some p -> pos_x p = targetX /\ pos_y p = targetY).
Proof.
  cbv zeta. destruct sel as [| a0 sel0].
  { cbn. split; [reflexivity |]. split; [intros p q [] |].
    split; [intros _; exists 0, 0; intros p [] |].
    split; [intros _ i p q H; discriminate H | intros _ p H; discriminate H]. }
  unfold calculateFormationPositions.
  set (l := a0 :: sel0). set (n := length l).
  set (centerX := sumOf (fun a => x (motion (obj a))) l / INR n).
  set (centerY := sumOf (fun a => y (motion (obj a))) l / INR n).
  set (angle := atan2 _ _).
  assert (H30 : Rabs 30 = 30) by (apply Rabs_right; lra).
  assert (H30' : Rabs (- 30) = 30) by (unfold Rabs; destruct (Rcase_abs (- 30)); lra).
  destruct f as [[| |] |].
  - (* LINE *)
    split; [now apply pos_unit_imap |].
    split.
    { intros p q Hp Hq. apply In_imap in Hp as (i & a & _ & ->).
      apply In_imap in Hq as (j & b & _ & ->). reflexivity. }
    split; [intros H; discriminate H |].
    split; [| intros H; discriminate H].
    intros _ i p q Hp Hq.
    apply list_lookup_imap_Some in Hp as (a & _ & ->).
    apply list_lookup_imap_Some in Hq as (b & _ & ->). cbn [pos_x pos_y].
    rewrite S_INR. unfold spacing.
    match goal with |- sqrt ?e = _ =>
      replace e with (cos (angle + PI / 2) * 30 * (cos (angle + PI / 2) * 30)
                      + sin (angle + PI / 2) * 30 * (sin (angle + PI / 2) * 30)) by ring
    end.
    now rewrite sqrt_cos_sin.
  - (* COLUMN *)
    split; [now apply pos_unit_imap |].
    split.
    { intros p q Hp Hq. apply In_imap in Hp as (i & a & _ & ->).
      apply In_imap in Hq as (j & b & _ & ->). reflexivity. }
    split; [intros H; discriminate H |].
    split.
    + intros _ i p q Hp Hq.
      apply list_lookup_imap_Some in Hp as (a & _ & ->).
      apply list_lookup_imap_Some in Hq as (b & _ & ->). cbn [pos_x pos_y].
      rewrite S_INR. unfold spacing.
      match goal with |- sqrt ?e = _ =>
        replace e with (cos angle * (- 30) * (cos angle * (- 30))
                        + sin angle * (- 30) * (sin angle * (- 30))) by ring
      end.
      now rewrite sqrt_cos_sin.
    + intros _ p Hp. apply list_lookup_imap_Some in Hp as (a & _ & ->).
      cbn [pos_x pos_y INR]. split; ring.
  - (* SQUARE *)
    split; [now apply pos_unit_imap |].
    split.
    { intros p q Hp Hq. apply In_imap in Hp as (i & a & _ & ->).
      apply In_imap in Hq as (j & b & _ & ->). reflexivity. }
    split; [intros H; discriminate H |].
    split; [intros [H | H]; discriminate H | intros H; discriminate H].
  - (* no formation *)
    split; [rewrite map_map; cbn [pos_unit]; apply map_id |].
    split.
    { intros p q Hp Hq. apply in_map_iff in Hp as (a & <- & _).
      apply in_map_iff in Hq as (b & <- & _). reflexivity. }
    split.
    { intros _. exists (targetX - centerX), (targetY - centerY).
      intros p Hp. apply in_map_iff in Hp as (a & <- & _). cbn [pos_x pos_y pos_unit].
      split; ring. }
    split; [intros [H | H]; discriminate H | intros H; discriminate H].
Qed.

End FormationFacts.

(** ** Selection and move orders *)

Module SelectionFacts.
Import JS JSFacts GameEngine.

#[local] Instance In_nat_dec (r : nat) (rs : list nat) : Decision (In r rs) :=
  in_dec Nat.eq_dec r rs.

Lemma forEachUnit_cons f a rs st :
  forEachUnit f (a :: rs) st = forEachUnit f rs (alter f a st).
Proof. reflexivity. Qed.

Lemma forEachUnit_lookup_notin f rs : forall st r,
  ~ In r rs -> forEachUnit f rs st !! r = st !! r.
Proof.
  induction rs as [| a rs IH]; intros st r Hn; [reflexivity |].
  rewrite forEachUnit_cons, IH by (intros H; apply Hn; now right).
  apply list_lookup_alter_ne. intros ->. apply Hn. now left.
Qed.

Lemma forEachUnit_lookup_in f rs :
  (forall u, f (f u) = f u) ->
  forall st r, In r rs -> forEachUnit f rs st !! r = f <$> st !! r.
Proof.
  intros Hf. induction rs as [| a rs IH]; intros st r Hin; [destruct Hin |].
  rewrite forEachUnit_cons.
  destruct (decide (In r rs)) as [Hr | Hr].
  - rewrite IH by exact Hr.
    destruct (decide (a = r)) as [-> | Hne].
    + rewrite list_lookup_alter_eq. destruct (st !! r); [| reflexivity].
      cbn. now rewrite Hf.
    + now rewrite list_lookup_alter_ne.
  - destruct Hin as [-> | Hin]; [| contradiction].
    rewrite forEachUnit_lookup_notin by exact Hr. apply list_lookup_alter_eq.
Qed.

(** The units inside the box, as the loop of [selectUnitsInBox] tests
    them. *)
Definition inBox (x1 y1 x2 y2 : R) (tm : option Team) (u : Unit) : Prop :=
  (forall t, tm = Some t -> team u = t)
  /\ Rmin x1 x2 <= x (motion u) <= Rmax x1 x2
  /\ Rmin y1 y2 <= y (motion u) <= Rmax y1 y2.

Lemma clearSelection_lookup g r :
  store (clearSelection g) !! r
  = (if decide (In r (selectedUnits g)) then set_isSelected false else fun u0 => u0)
      <$> store g !! r.
Proof.
  unfold clearSelection. cbn [store set_selectedUnits set_store].
  destruct (decide (In r (selectedUnits g))) as [H | H].
  - now apply forEachUnit_lookup_in.
  - rewrite forEachUnit_lookup_notin by exact H. now destruct (store g !! r).
Qed.

(** Box selection.  The corners may be given in either order.  The
    registry is untouched, and the selection becomes exactly the registered
    units of the team (of either team when none is given) whose position is
    inside the box, borders included. *)
Theorem box_selection (x1 y1 x2 y2 : R) (tm : option Team) (g : Game) :
  let g' := selectUnitsInBox x1 y1 x2 y2 tm g in
  selectUnitsInBox x2 y2 x1 y1 tm g = g'
  /\ units g' = units g
  /\ (forall r, In r (selectedUnits g') <->
        In r (units g)
        /\ exists u, store g !! r = Some u /\ inBox x1 y1 x2 y2 tm u).
Proof.
  cbv zeta. split; [| split].
  - unfold selectUnitsInBox.
    now rewrite (Rmin_comm x2 x1), (Rmax_comm x2 x1), (Rmin_comm y2 y1), (Rmax_comm y2 y1).
  - reflexivity.
  - intros r. unfold selectUnitsInBox.
    cbn [selectedUnits set_selectedUnits set_store].
    rewrite filter_In. rewrite clearSelection_lookup.
    assert (Hu : units (clearSelection g) = units g) by reflexivity. rewrite Hu.
    apply and_iff_compat_l.
    destruct (store g !! r) as [u |]; cbn [fmap option_fmap option_map].
    2:{ split; [intros H; discriminate H | intros (u & H & _); discriminate H]. }
    set (u' := (if decide (In r (selectedUnits g)) then set_isSelected false else fun u0 => u0) u).
    assert (Et : team u' = team u) by (unfold u'; now destruct (decide _)).
    assert (Em : motion u' = motion u) by (unfold u'; now destruct (decide _)).
    rewrite Et, Em. unfold geb. rewrite !andb_true_iff, !leb_spec.
    unfold inBox. split.
    + intros ((((Ht & H1) & H2) & H3) & H4). exists u. split; [reflexivity |].
      repeat split; try assumption.
      intros t ->. now apply bool_decide_eq_true in Ht.
    + intros (u0 & E & Ht & [H1 H2] & [H3 H4]). injection E as <-.
      repeat split; try assumption.
      destruct tm as [t |]; [| reflexivity].
      apply bool_decide_eq_true. now apply Ht.
Qed.

(** Selecting by a click.  The unit returned is a registered unit of the
    team whose circle contains the point; it becomes the whole selection.
    When nothing is returned, the point is outside the circle of every
    registered unit of the team and the game, the earlier selection
    included, is unchanged. *)
Theorem click_selection (px py : R) (tm : option Team) (g : Game) :
  match selectUnitAtPosition px py tm g with
  | (Some r, g') =>
      In r (units g) /\ selectedUnits g' = [r] /\ units g' = units g
      /\ exists u, store g !! r = Some u
           /\ (forall t, tm = Some t -> team u = t)
           /\ sqrt ((px - x (motion u)) * (px - x (motion u))
                    + (py - y (motion u)) * (py - y (motion u)))
              <= collisionRadius (stats u)
  | (None, g') =>
      g' = g
      /\ forall r u, In r (units g) -> store g !! r = Some u ->
           (forall t, tm = Some t -> team u = t) ->
           collisionRadius (stats u)
           < sqrt ((px - x (motion u)) * (px - x (motion u))
                   + (py - y (motion u)) * (py - y (motion u)))
  end.
Proof.
  unfold selectUnitAtPosition.
  destruct (List.find _ (units g)) as [r |] eqn:Hf.
  - apply find_some in Hf as [Hin Hhit].
    split; [exact Hin |]. split; [reflexivity |]. split; [reflexivity |].
    destruct (store g !! r) as [u |]; [| discriminate Hhit].
    exists u. split; [reflexivity |].
    apply andb_true_iff in Hhit as [Ht Hd]. apply leb_spec in Hd.
    split; [| exact Hd].
    intros t ->. now apply bool_decide_eq_true in Ht.
  - split; [reflexivity |].
    intros r u Hin Hu Ht.
    pose proof (find_none _ _ Hf r Hin) as Hn. cbv beta in Hn. rewrite Hu in Hn.
    apply andb_false_iff in Hn as [Hn | Hn].
    + destruct tm as [t |]; [| discriminate Hn].
      apply bool_decide_eq_false in Hn. destruct Hn. now apply Ht.
    + cbv zeta in Hn.
      destruct (Rle_dec (sqrt ((px - x (motion u)) * (px - x (motion u))
                               + (py - y (motion u)) * (py - y (motion u))))
                        (collisionRadius (stats u))) as [H | H]; [| lra].
      rewrite leb_true in Hn by exact H. discriminate Hn.
Qed.

(** The selected flag of every unit in the store says whether the unit is
    in the selection. *)
Definition flagsAgree (g : Game) : Prop :=
  forall r u, store g !! r = Some u -> (isSelected u = true <-> In r (selectedUnits g)).

(** The three selection commands keep the flags and the selection list in
    agreement. *)
Theorem selection_flags_agree (g : Game) :
  flagsAgree g ->
  flagsAgree (clearSelection g)
  /\ (forall x1 y1 x2 y2 tm, flagsAgree (selectUnitsInBox x1 y1 x2 y2 tm g))
  /\ (forall px py tm, flagsAgree (snd (selectUnitAtPosition px py tm g))).
Proof.
  intros Hg.
  assert (Hclear : forall r u, store (clearSelection g) !! r = Some u ->
                               isSelected u = false).
  { intros r u. rewrite clearSelection_lookup.
    destruct (store g !! r) as [u0 |] eqn:E0; [| intros H; discriminate H].
    cbn. intros H. injection H as <-.
    destruct (decide (In r (selectedUnits g))) as [Hin | Hin]; [reflexivity |].
    cbn. destruct (isSelected u0) eqn:Es; [| reflexivity].
    destruct Hin. now apply (Hg r u0). }
  split; [| split].
  - intros r u Hu. rewrite (Hclear r u Hu). cbn. split; [intros H; discriminate H | intros []].
  - intros x1 y1 x2 y2 tm r u. unfold selectUnitsInBox.
    cbn [store selectedUnits set_selectedUnits set_store].
    set (picked := List.filter _ (units (clearSelection g))).
    destruct (decide (In r picked)) as [Hin | Hin].
    + rewrite forEachUnit_lookup_in by (reflexivity || exact Hin).
      destruct (store (clearSelection g) !! r); [| intros H; discriminate H].
      cbn. intros H. injection H as <-. cbn. tauto.
    + rewrite forEachUnit_lookup_notin by exact Hin.
      intros Hu. rewrite (Hclear r u Hu). split; [intros H; discriminate H | tauto].
  - intros px py tm r u. unfold selectUnitAtPosition.
    destruct (List.find _ (units g)) as [r0 |]; [| apply Hg].
    cbn [snd store selectedUnits set_selectedUnits set_store].
    fold (store (clearSelection g)).
    destruct (decide (r0 = r)) as [-> | Hne].
    + rewrite list_lookup_alter_eq.
      destruct (_ !! r); [| intros H; discriminate H].
      cbn. intros H. injection H as <-. cbn. tauto.
    + rewrite list_lookup_alter_ne by exact Hne.
      change (forEachUnit (set_isSelected false) (selectedUnits g) (store g))
        with (store (clearSelection g)).
      intros Hu. rewrite (Hclear r u Hu).
      split; [intros H; discriminate H | intros [H | []]; contradiction].
Qed.

Lemma selection_flags_agree_witness :
  flagsAgree (selectUnitsInBox 0 0 1200 800 (Some BLUE) RegistryFacts.openingGame).
Proof.
  apply (selection_flags_agree RegistryFacts.openingGame).
  intros r u Hu. destruct r as [| r]; [| destruct r; discriminate Hu].
  injection Hu as <-. cbn. split; [intros H; discriminate H | intros []].
Defined.

Lemma selection_In st rs r u :
  In (r, u) (selection st rs) -> In r rs /\ st !! r = Some u.
Proof.
  unfold selection. intros H. apply list_elem_of_In, list_elem_of_omap in H.
  destruct H as (r0 & Hin & E). apply list_elem_of_In in Hin.
  destruct (st !! r0) as [u0 |] eqn:E0; [| discriminate E].
  cbn in E. injection E as <- <-. now split.
Qed.

Lemma positions_units {A} (obj : A -> Unit) sel tx ty f :
  map FormationSystem.pos_unit
    (FormationSystem.calculateFormationPositions obj sel tx ty f) = sel.
Proof.
  destruct sel as [| a0 sel0]; [reflexivity |].
  unfold FormationSystem.calculateFormationPositions.
  destruct f as [[| |] |]; try (now apply FormationFacts.pos_unit_imap).
  rewrite map_map. apply map_id.
Qed.

(** A move order touches the units' targets only: the registry, the
    selection and the size of the store stay as they are; a unit that is
    not selected, or that stands in SQUARE formation, is left exactly as
    it was; any other unit is either unchanged or has only received a
    new target point. *)
Theorem move_order_scope (targetX targetY : R) (g : Game) :
  let g' := moveSelectedUnits targetX targetY g in
  units g' = units g /\ selectedUnits g' = selectedUnits g
  /\ forall r u, store g !! r = Some u ->
       exists u', store g' !! r = Some u'
         /\ (u' = u \/ exists a b, u' = setTarget a b u)
         /\ (~ In r (selectedUnits g) \/ formation u = Some SQUARE -> u' = u).
Proof.
  cbv zeta. unfold moveSelectedUnits.
  destruct (selection (store g) (selectedUnits g)) as [| first rest] eqn:Hsel.
  { split; [reflexivity |]. split; [reflexivity |].
    intros r u Hu. exists u. split; [exact Hu |]. split; [now left | reflexivity]. }
  split; [reflexivity |]. split; [reflexivity |].
  cbn [store set_store].
  set (positions := FormationSystem.calculateFormationPositions snd (first :: rest)
                      targetX targetY (formation (snd first))).
  set (order := fun (st : list Unit) (p : FormationSystem.Position (nat * Unit)) => _).
  assert (Hpos : forall p, In p positions ->
            In (fst (FormationSystem.pos_unit p)) (selectedUnits g)).
  { intros p Hp.
    assert (Hin : In (FormationSystem.pos_unit p) (first :: rest)).
    { rewrite <- (positions_units snd (first :: rest) targetX targetY
                    (formation (snd first))).
      now apply in_map. }
    rewrite <- Hsel in Hin. destruct (FormationSystem.pos_unit p) as [r0 u0].
    now apply selection_In in Hin. }
  intros r u Hu.
  assert (Hinv : forall l st,
            (forall p, In p l -> In (fst (FormationSystem.pos_unit p)) (selectedUnits g)) ->
            (exists u', st !! r = Some u'
               /\ (u' = u \/ exists a b, u' = setTarget a b u)
               /\ (~ In r (selectedUnits g) \/ formation u = Some SQUARE -> u' = u)) ->
            exists u', foldl order st l !! r = Some u'
               /\ (u' = u \/ exists a b, u' = setTarget a b u)
               /\ (~ In r (selectedUnits g) \/ formation u = Some SQUARE -> u' = u)).
  { induction l as [| p l IH]; intros st Hl Hst; [exact Hst |].
    cbn [foldl]. apply IH; [intros q Hq; apply Hl; now right |].
    destruct Hst as (u' & Hl' & Hcase & Hsame).
    unfold order.
    destruct (decide (fst (FormationSystem.pos_unit p) = r)) as [E | E].
    - rewrite E, list_lookup_alter_eq, Hl'. cbn.
      assert (Hform : formation u' = formation u).
      { destruct Hcase as [-> | (a & b & ->)]; reflexivity. }
      rewrite Hform.
      destruct (decide (formation u = Some SQUARE)) as [Hsq | Hsq].
      + rewrite bool_decide_eq_true_2 by exact Hsq.
        exists u'. now repeat split.
      + rewrite bool_decide_eq_false_2 by exact Hsq.
        eexists. split; [reflexivity |]. split.
        * right. exists (FormationSystem.pos_x p), (FormationSystem.pos_y p).
          destruct Hcase as [-> | (a & b & ->)]; reflexivity.
        * intros [Hn | Hs]; [| contradiction].
          destruct Hn. rewrite <- E. apply Hl. now left.
    - rewrite list_lookup_alter_ne by exact E.
      exists u'. now repeat split. }
  apply (Hinv positions (store g) Hpos).
  exists u. split; [exact Hu |]. split; [now left | reflexivity].
Qed.

(** A formation change for the selection sets the formation of every
    selected unit, whatever formation it had, and leaves the others
    alone. *)
Theorem formation_order_scope (f : option Formation) (g : Game) (r : nat) (u : Unit) :
  store g !! r = Some u ->
  store (setFormationForSelected f g) !! r
  = Some (if decide (In r (selectedUnits g)) then setFormation f u else u).
Proof.
  intros Hu. unfold setFormationForSelected. cbn [store set_store].
  destruct (decide (In r (selectedUnits g))) as [H | H].
  - rewrite forEachUnit_lookup_in; [now rewrite Hu | | exact H].
    intros u0. destruct f as [[] |]; reflexivity.
  - now rewrite forEachUnit_lookup_notin.
Qed.

Lemma formation_order_scope_witness :
  store (setFormationForSelected (Some SQUARE)
           (selectUnitsInBox 0 0 1200 800 None RegistryFacts.openingGame)) !! 0%nat
  = Some (if decide (In 0%nat (selectedUnits
                                 (selectUnitsInBox 0 0 1200 800 None
                                    RegistryFacts.openingGame)))
          then setFormation (Some SQUARE)
                 (set_isSelected true (newUnit 0 INFANTRY BLUE 900 400))
          else set_isSelected true (newUnit 0 INFANTRY BLUE 900 400)).
Proof.
  apply (formation_order_scope (Some SQUARE)
           (selectUnitsInBox 0 0 1200 800 None RegistryFacts.openingGame) 0%nat).
  unfold selectUnitsInBox. cbn [store set_selectedUnits set_store].
  assert (E : List.filter
                (fun r : nat =>
                   match store (clearSelection RegistryFacts.openingGame) !! r with
                   | Some unit =>
                       true && geb (x (motion unit)) (Rmin 0 1200)
                       && leb (x (motion unit)) (Rmax 0 1200)
                       && geb (y (motion unit)) (Rmin 0 800)
                       && leb (y (motion unit)) (Rmax 0 800)
                   | None => false
                   end) (units (clearSelection RegistryFacts.openingGame)) = [0%nat]).
  { cbn. unfold geb. rewrite Rmin_left, Rmax_right by lra.
    rewrite Rmin_left, Rmax_right by lra.
    rewrite !leb_true by lra. reflexivity. }
  rewrite E. reflexivity.
Defined.

End SelectionFacts.

(** ** Multiplayer: deployment events and the sync clock *)

Module DeployFacts.
Import JS JSFacts GameEngine GameStateSync.

Lemma find_In_true {A} (f : A -> bool) (l : list A) (a : A) :
  In a l -> f a = true -> exists b, List.find f l = Some b.
Proof.
  intros Hin Hf. destruct (List.find f l) as [b |] eqn:E; [now exists b |].
  rewrite (find_none _ _ E a Hin) in Hf. discriminate Hf.
Qed.

(** A deployment event of a unit whose id is not registered locally adds
    one unit, registered last: a fresh unit of the event's type and team at
    the event's position, with the remote id and facing (everything else is
    what the constructor gives).  Applying the same event again changes
    nothing, as does an event whose id is already registered. *)
Theorem deployment_event_applied (now : R) (u : Unit) (g : Game) :
  let event := serializeDeploymentEvent now u in
  let g' := applyDeploymentEvent event g in
  (findById g (id u) = None ->
   units g' = units g ++ [length (store g)]
   /\ store g' !! length (store g)
      = Some (on_motion (set_angle (angle (motion u)))
                (newUnit (id u) (type u) (team u) (x (motion u)) (y (motion u))))
   /\ (forall r, (r < length (store g))%nat -> store g' !! r = store g !! r))
  /\ (findById g (id u) <> None -> g' = g)
  /\ applyDeploymentEvent event g' = g'.
Proof.
  cbv zeta.
  assert (Hnew : forall ty tm px py i a,
            alter (on_motion (set_angle a)) (length (store g))
              (alter (set_id i) (length (store g))
                 (store g ++ [newUnit (nextUnitId g) ty tm px py]))
            !! length (store g)
            = Some (on_motion (set_angle a) (newUnit i ty tm px py))).
  { intros. rewrite !list_lookup_alter_eq, lookup_app_r by lia.
    now rewrite Nat.sub_diag. }
  unfold applyDeploymentEvent.
  cbn [ev_id ev_type ev_team ev_x ev_y ev_angle serializeDeploymentEvent].
  destruct (findById g (id u)) as [r0 |] eqn:Hfind.
  { split; [intros H; discriminate H |]. split; [reflexivity |]. now rewrite Hfind. }
  unfold createUnit. cbn [fst snd store units set_store].
  split; [intros _ | split; [intros H; now destruct H |]].
  - split; [reflexivity |]. split; [apply Hnew |].
    intros r Hr. rewrite !list_lookup_alter_ne by lia. now apply lookup_app_l.
  - match goal with |- context [findById ?h] => set (g1 := h) end.
    destruct (find_In_true
                (fun r => match store g1 !! r with
                          | Some u0 => bool_decide (id u0 = id u)
                          | None => false
                          end) (units g1) (length (store g))) as [b Hb].
    + unfold g1. cbn [units set_store]. apply in_or_app. right. now left.
    + unfold g1. cbn [store set_store]. rewrite Hnew.
      now apply bool_decide_eq_true.
    + unfold findById. now rewrite Hb.
Qed.

(** The number of syncs that [shouldSync] grants over a run of ticks, and
    the sync clock at the end. *)
Definition syncRun (dts : list R) (lastSyncTime : R) : nat * R :=
  foldl (fun '(n, t) dt =>
           let '(go, t) := shouldSync dt t in
           (if go then S n else n, t))
    (0%nat, lastSyncTime) dts.

Lemma syncRun_snoc dts dt t0 :
  syncRun (dts ++ [dt]) t0
  = (if fst (shouldSync dt (snd (syncRun dts t0)))
     then S (fst (syncRun dts t0)) else fst (syncRun dts t0),
     snd (shouldSync dt (snd (syncRun dts t0)))).
Proof.
  unfold syncRun. rewrite foldl_app. cbn [foldl].
  destruct (foldl _ _ dts) as [n t]. cbn [fst snd].
  now destruct (shouldSync dt t) as [go t'].
Qed.

(** State is sent at most 15 times per second: over any run of ticks the
    syncs granted, each worth 1/15 s, plus the time left on the sync clock
    never exceed the time put in (the clock's start and the ticks); with a
    non-negative start and non-negative ticks the clock itself stays
    within [0, 1/15). *)
Theorem sync_rate_is_bounded (dts : list R) (t0 : R) :
  INR (fst (syncRun dts t0)) * (1 / 15) + snd (syncRun dts t0)
  <= t0 + foldr Rplus 0 dts
  /\ (0 <= t0 < 1 / 15 -> Forall (fun dt => 0 <= dt) dts ->
      0 <= snd (syncRun dts t0) < 1 / 15).
Proof.
  induction dts as [| dt dts IH] using rev_ind.
  - cbn. split; [lra | intros H _; exact H].
  - destruct IH as [IH1 IH2].
    assert (Esum : foldr Rplus 0 (dts ++ [dt]) = foldr Rplus 0 dts + dt).
    { clear. induction dts as [| d dts IH]; cbn; [lra |]. rewrite IH. lra. }
    rewrite syncRun_snoc, Esum. cbn [fst snd].
    unfold shouldSync, syncInterval, geb.
    destruct (Rle_dec (1 / 15) (snd (syncRun dts t0) + dt)) as [H | H].
    + rewrite leb_true by exact H. cbn [fst snd]. rewrite S_INR.
      split; [lra |]. intros _ _. lra.
    + rewrite leb_false by lra. cbn [fst snd].
      split; [lra |]. intros Ht Hd.
      apply Forall_app in Hd as [Hd Hdt].
      specialize (IH2 Ht Hd). apply Forall_inv in Hdt. lra.
Qed.

Lemma sync_rate_is_bounded_witness :
  INR (fst (syncRun [1 / 60; 1 / 60] 0)) * (1 / 15) + snd (syncRun [1 / 60; 1 / 60] 0)
  <= 0 + foldr Rplus 0 [1 / 60; 1 / 60].
Proof. apply (sync_rate_is_bounded [1 / 60; 1 / 60] 0). Defined.

End DeployFacts.

(** ** The AI: command execution and deployment *)

Module AIFacts.
Import JS JSFacts GameEngine AIExecutor.

(** The unit of the command is not on cooldown at [now]: it has no entry
    in the cooldown map, or an entry at least 500 ms old. *)
Definition due (now : R) (cooldowns : gmap Z R) (cmd : Command) : bool :=
  match cooldowns !! cmd_unitId cmd with
  | Some lastAction => negb (ltb (now - lastAction) 500)
  | None => true
  end.

(** The commands of a queue that are the first of their unit. *)
Fixpoint firstPerUnit (seen : gset Z) (q : list Command) : list Command :=
  match q with
  | [] => []
  | cmd :: q =>
      if bool_decide (cmd_unitId cmd ∈ seen) then firstPerUnit seen q
      else cmd :: firstPerUnit ({[ cmd_unitId cmd ]} ∪ seen) q
  end.

Definition admitted (now : R) (cooldowns : gmap Z R) (q : list Command) : list Command :=
  firstPerUnit ∅ (List.filter (due now cooldowns) q).

Lemma firstPerUnit_ids q : forall seen,
  NoDup (map cmd_unitId (firstPerUnit seen q))
  /\ forall cmd, In cmd (firstPerUnit seen q) -> cmd_unitId cmd ∉ seen.
Proof.
  induction q as [| c q IH]; intros seen.
  - cbn. split; [constructor | intros cmd []].
  - cbn [firstPerUnit].
    destruct (decide (cmd_unitId c ∈ seen)) as [Hin | Hin].
    + rewrite bool_decide_eq_true_2 by exact Hin. apply IH.
    + rewrite bool_decide_eq_false_2 by exact Hin.
      destruct (IH ({[ cmd_unitId c ]} ∪ seen)) as [Hnd Hseen].
      split.
      * cbn [map]. apply NoDup_cons_2; [| exact Hnd].
        intros H. apply list_elem_of_In, in_map_iff in H as (c' & E & Hc').
        apply Hseen in Hc'. rewrite E in Hc'.
        apply Hc'. apply elem_of_union_l. now apply elem_of_singleton.
      * intros cmd [<- | Hc]; [exact Hin |].
        apply Hseen in Hc. intros H. apply Hc. now apply elem_of_union_r.
Qed.

Lemma processQueue_spec now cd q : forall seen cd' g,
  (forall i, i ∈ seen -> cd' !! i = Some now) ->
  (forall i, i ∉ seen -> cd' !! i = cd !! i) ->
  processQueue now q cd' g
  = (foldl (fun m cmd => <[cmd_unitId cmd := now]> m) cd'
       (firstPerUnit seen (List.filter (due now cd) q)),
     foldl (fun g cmd => execute cmd g) g
       (firstPerUnit seen (List.filter (due now cd) q))).
Proof.
  induction q as [| c q IH]; intros seen cd' g Hseen Hother; [reflexivity |].
  cbn [processQueue List.filter].
  destruct (decide (cmd_unitId c ∈ seen)) as [Hin | Hin].
  - rewrite (Hseen _ Hin).
    replace (now - now) with 0 by ring. rewrite ltb_true by lra.
    rewrite (IH seen cd' g Hseen Hother).
    destruct (due now cd c); [| reflexivity].
    cbn [firstPerUnit]. now rewrite bool_decide_eq_true_2 by exact Hin.
  - assert (Hts : match cd !! cmd_unitId c with
                  | Some lastAction => ltb (now - lastAction) 500
                  | None => false
                  end = negb (due now cd c)).
    { unfold due. destruct (cd !! cmd_unitId c); [now rewrite negb_involutive | reflexivity]. }
    rewrite (Hother _ Hin), Hts.
    destruct (due now cd c); cbn [negb]; [| now apply IH].
    cbn [firstPerUnit]. rewrite bool_decide_eq_false_2 by exact Hin.
    cbn [foldl]. apply IH.
    + intros i Hi. destruct (decide (i = cmd_unitId c)) as [-> | Hne].
      * apply lookup_insert_eq.
      * rewrite lookup_insert_ne by congruence. apply Hseen.
        apply elem_of_union in Hi as [Hi | Hi]; [| exact Hi].
        apply elem_of_singleton in Hi. contradiction.
    + intros i Hi. rewrite lookup_insert_ne.
      * apply Hother. intros H. apply Hi. now apply elem_of_union_r.
      * intros E. apply Hi. apply elem_of_union_l. now apply elem_of_singleton.
Qed.

(** One call of [executeQueue] empties the queue and executes, in queue
    order, exactly the commands whose unit is not on cooldown (no command
    of that unit in the last 500 ms) and that are the first of their unit
    in the queue: a unit gets at most one command per call.  The units of
    the executed commands, and only they, get the call's time as their new
    cooldown stamp. *)
Theorem executeQueue_admits (now : R) (ex : Executor) (g : Game) :
  let run := admitted now (unitCooldowns ex) (queue ex) in
  let out := executeQueue now ex g in
  queue (fst out) = []
  /\ snd out = foldl (fun g cmd => execute cmd g) g run
  /\ unitCooldowns (fst out)
     = foldl (fun m cmd => <[cmd_unitId cmd := now]> m) (unitCooldowns ex) run
  /\ NoDup (map cmd_unitId run)
  /\ (forall cmd, In cmd run -> In cmd (queue ex) /\ due now (unitCooldowns ex) cmd = true).
Proof.
  cbv zeta. unfold executeQueue, admitted.
  rewrite (processQueue_spec now (unitCooldowns ex) (queue ex) ∅ (unitCooldowns ex) g);
    [| intros i Hi; now apply elem_of_empty in Hi | reflexivity].
  cbn [fst snd queue unitCooldowns].
  split; [reflexivity |]. split; [reflexivity |]. split; [reflexivity |].
  split; [apply firstPerUnit_ids |].
  intros cmd Hc. apply filter_In.
  revert Hc. generalize (List.filter (due now (unitCooldowns ex)) (queue ex)).
  generalize (∅ : gset Z).
  intros seen l. revert seen. induction l as [| c l IH]; intros seen Hc; [destruct Hc |].
  cbn [firstPerUnit] in Hc.
  destruct (bool_decide (cmd_unitId c ∈ seen)).
  - right. now apply (IH seen).
  - destruct Hc as [<- | Hc]; [now left | right; now apply (IH _ Hc)].
Qed.

(** The selection is empty after a move or a formation command, and a
    select command leaves its units as the selection. *)
Lemma execute_selection cmd g :
  selectedUnits (execute cmd g)
  = match cmd with
    | Select _ rs => rs
    | _ => []
    end.
Proof. destruct cmd; reflexivity. Qed.

Import AIDeployment.

(** Where the AI deploys.  Whatever the random draws, the position lies
    in the blue zone less a margin of 20: 920 <= x <= 1180 and
    20 <= y <= 780.  With draws in [0, 1) the clamps never bind:
    infantry lands at x = 1000 + 100 r2, y = 400 + 480 (r1 - 1/2), a cannon
    at x = 950 + 100 r2, y = 400 + 320 (r1 - 1/2), and cavalry at
    x = 1000 + 100 r1 on one of the two flank lines y = 200, y = 600. *)
Theorem deployment_position_in_zone (ty : UnitType) (blueUnits : Counts)
    (rnd : nat -> R) (k : nat) :
  let px := fst (fst (selectPosition ty blueUnits rnd k)) in
  let py := snd (fst (selectPosition ty blueUnits rnd k)) in
  920 <= px <= 1180 /\ 20 <= py <= 780
  /\ (0 <= rnd k < 1 -> 0 <= rnd (S k) < 1 ->
      match ty with
      | INFANTRY => px = 1000 + 100 * rnd (S k) /\ py = 400 + 480 * (rnd k - 1 / 2)
      | CANNON => px = 950 + 100 * rnd (S k) /\ py = 400 + 320 * (rnd k - 1 / 2)
      | CAVALRY => px = 1000 + 100 * rnd k /\ (py = 200 \/ py = 600)
      end).
Proof.
  cbv zeta. unfold selectPosition.
  unfold mbind, rng_bind, Rng.bind, Rng.random, mret, rng_ret, Rng.ret.
  unfold CONFIG.CANVAS_HEIGHT.
  assert (Hclamp : forall lo hi v a b,
            a <= lo -> lo <= hi -> hi <= b -> a <= Rmax lo (Rmin hi v) <= b).
  { intros lo hi v a b Ha Hle Hb. split.
    - apply Rle_trans with lo; [exact Ha | apply Rmax_l].
    - apply Rle_trans with hi; [| exact Hb].
      apply Rmax_lub; [exact Hle | apply Rmin_l]. }
  assert (Hfree : forall lo hi v, lo <= v <= hi -> Rmax lo (Rmin hi v) = v).
  { intros lo hi v [H1 H2]. rewrite Rmin_right by exact H2. now apply Rmax_right. }
  destruct ty; cbn [fst snd].
  - split; [apply Hclamp; lra |]. split; [apply Hclamp; lra |].
    intros H1 H2. rewrite !Hfree by lra. split; lra.
  - split; [apply Hclamp; lra |]. split; [apply Hclamp; lra |].
    intros H1 _. rewrite Hfree by lra. split; [lra |].
    destruct (eqb _ 0); rewrite Hfree by lra; [left | right]; lra.
  - split; [apply Hclamp; lra |]. split; [apply Hclamp; lra |].
    intros H1 H2. rewrite !Hfree by lra. split; lra.
Qed.

(** The type that [selectMatchingType] returns is one by which blue lags
    red the most: no type has a larger deficit (red's share less blue's
    share), the floor of -1 apart; among equals the first of INFANTRY,
    CAVALRY, CANNON wins. *)
Theorem matching_type_has_largest_deficit (redUnits blueUnits : Counts) (tolerance : R) :
  let deficit ty := share redUnits ty - share blueUnits ty in
  let chosen := selectMatchingType redUnits blueUnits tolerance in
  (forall ty, deficit ty <= deficit chosen \/ deficit ty <= -1)
  /\ (chosen = CAVALRY -> deficit INFANTRY < deficit CAVALRY)
  /\ (chosen = CANNON ->
      deficit INFANTRY < deficit CANNON /\ deficit CAVALRY < deficit CANNON).
Proof.
  cbv zeta. unfold selectMatchingType. cbn [foldl fst snd]. unfold gtb.
  set (dI := share redUnits INFANTRY - share blueUnits INFANTRY).
  set (dV := share redUnits CAVALRY - share blueUnits CAVALRY).
  set (dC := share redUnits CANNON - share blueUnits CANNON).
  destruct (Rlt_dec (-1) dI) as [H1 | H1];
    [rewrite (ltb_true (-1) dI) by exact H1
    | rewrite (ltb_false (-1) dI) by lra]; cbn [fst snd].
  - destruct (Rlt_dec dI dV) as [H2 | H2];
      [rewrite (ltb_true dI dV) by exact H2
      | rewrite (ltb_false dI dV) by lra]; cbn [fst snd].
    + destruct (Rlt_dec dV dC) as [H3 | H3];
        [rewrite (ltb_true dV dC) by exact H3
        | rewrite (ltb_false dV dC) by lra]; cbn [fst snd].
      all: (split; [intros []; fold dI dV dC; lra |]);
        (split; intros E; try discriminate E; fold dI dV dC; lra).
    + destruct (Rlt_dec dI dC) as [H3 | H3];
        [rewrite (ltb_true dI dC) by exact H3
        | rewrite (ltb_false dI dC) by lra]; cbn [fst snd].
      all: (split; [intros []; fold dI dV dC; lra |]);
        (split; intros E; try discriminate E; fold dI dV dC; lra).
  - destruct (Rlt_dec (-1) dV) as [H2 | H2];
      [rewrite (ltb_true (-1) dV) by exact H2
      | rewrite (ltb_false (-1) dV) by lra]; cbn [fst snd].
    + destruct (Rlt_dec dV dC) as [H3 | H3];
        [rewrite (ltb_true dV dC) by exact H3
        | rewrite (ltb_false dV dC) by lra]; cbn [fst snd].
      all: (split; [intros []; fold dI dV dC; lra |]);
        (split; intros E; try discriminate E; fold dI dV dC; lra).
    + destruct (Rlt_dec (-1) dC) as [H3 | H3];
        [rewrite (ltb_true (-1) dC) by exact H3
        | rewrite (ltb_false (-1) dC) by lra]; cbn [fst snd].
      all: (split; [intros []; fold dI dV dC; lra |]);
        (split; intros E; try discriminate E; fold dI dV dC; lra).
Qed.

End AIFacts.
